(** * More House personalised prospectus: the translation engine

    A shallow embedding of [language_engine.py] (the safe HTML fragment
    translator with DeepL batching) and of the response hook of [app.py],
    with the properties of the tokenizer/splicer, the protection codec, the
    skip classifier, the batch client and the document post-processor.

    Python strings are sequences of Unicode code points: a character is a
    code point in [N], a string a list of them.  What Python decides from
    the Unicode character database (whitespace, alphanumerics, decimal
    digits, lower-casing, case-insensitive equivalence) is computed here for
    the ASCII range and taken from a table, [UnicodeData], above it. *)

From Stdlib Require Import String Ascii.
From Stdlib Require Import ZArith NArith Bool Lia Arith List.
From Stdlib Require Import DecimalNat DecimalFacts.
Import ListNotations.

Set Implicit Arguments.

(* ================================================================== *)
(** * Characters and strings *)
(* ================================================================== *)

Definition char := N.
Definition str := list char.

Definition ch (a : ascii) : char := N_of_ascii a.
Definition lit (s : string) : str := map N_of_ascii (list_ascii_of_string s).
Arguments ch a%_char.
Arguments lit s%_string.

(** The double quote, which a string literal cannot hold. *)
Definition dquote : char := 34%N.

Definition char_eqb (a b : char) : bool := N.eqb a b.

Fixpoint str_eqb (a b : str) : bool :=
  match a, b with
  | [], [] => true
  | x :: a', y :: b' => char_eqb x y && str_eqb a' b'
  | _, _ => false
  end.

(** The part of the Unicode database the engine consults for code points
    above the ASCII range. *)
Class UnicodeData := {
  uni_isspace : char -> bool;          (* str.isspace, \s *)
  uni_isalnum : char -> bool;          (* str.isalnum, \w *)
  uni_isdecimal : char -> bool;        (* \d *)
  uni_lower : str -> str;              (* str.lower, beyond ASCII *)
  uni_ieq : char -> char -> bool;      (* re.I: pattern letter, subject *)
  uni_space_not_alnum :
    forall c, uni_isspace c = true -> uni_isalnum c = false
}.

Definition between (lo hi c : char) : bool := (N.leb lo c && N.leb c hi)%bool.

Definition is_ascii (c : char) : bool := N.ltb c 128%N.

Definition ascii_isspace (c : char) : bool :=
  (between 9 13 c || between 28 32 c)%N.

Definition ascii_isalnum (c : char) : bool :=
  (between 48 57 c || between 65 90 c || between 97 122 c)%N.

Definition ascii_lower (c : char) : char :=
  (if between 65 90 c then c + 32 else c)%N.

Definition ascii_upper (c : char) : char :=
  (if between 97 122 c then c - 32 else c)%N.

Section Chars.
Context {U : UnicodeData}.

Definition isspace (c : char) : bool :=
  if is_ascii c then ascii_isspace c else uni_isspace c.

Definition isalnum (c : char) : bool :=
  if is_ascii c then ascii_isalnum c else uni_isalnum c.

Definition isdecimal (c : char) : bool :=
  if is_ascii c then between 48%N 57%N c else uni_isdecimal c.

(** [\w]: alphanumeric or the underscore. *)
Definition isword (c : char) : bool := isalnum c || char_eqb c (ch "_").

(** [s.lower()]: character by character on an ASCII string; beyond ASCII
    the lower case of a character can depend on its neighbours and is the
    table's to give for the string as a whole. *)
Definition lower (s : str) : str :=
  if forallb is_ascii s then map ascii_lower s else uni_lower s.

(** [s.upper()] on the codes of the language table, which are ASCII. *)
Definition upper (s : str) : str := map ascii_upper s.

(** Case-insensitive comparison of a pattern character with a subject
    character, as the regex engine does under [re.I]. *)
Definition ieq (p c : char) : bool :=
  if is_ascii c then char_eqb (ascii_lower c) (ascii_lower p) else uni_ieq p c.

(** [s.strip()] *)
Fixpoint lstrip (s : str) : str :=
  match s with
  | c :: s' => if isspace c then lstrip s' else s
  | [] => []
  end.

Definition rstrip (s : str) : str := rev (lstrip (rev s)).
Definition strip (s : str) : str := rstrip (lstrip s).

End Chars.

(** [s.startswith(p)] *)
Fixpoint startswith (p s : str) : bool :=
  match p, s with
  | [], _ => true
  | x :: p', y :: s' => char_eqb x y && startswith p' s'
  | _ :: _, [] => false
  end.

(** [p in s] for strings. *)
Fixpoint contains (p s : str) : bool :=
  startswith p s || match s with [] => false | _ :: s' => contains p s' end.

(** [s.replace(old, new)] for a non-empty [old]: the occurrences of [old]
    are found left to right and do not overlap.  [skip] counts the
    characters of the occurrence being replaced that are still to pass. *)
Fixpoint replace_from (old new s : str) (skip : nat) : str :=
  match s with
  | [] => []
  | c :: s' =>
      match skip with
      | S k => replace_from old new s' k
      | O =>
          if startswith old s
          then new ++ replace_from old new s' (pred (length old))
          else c :: replace_from old new s' 0
      end
  end.

Definition replace (old new s : str) : str := replace_from old new s 0.

(** [str(i)] for a natural number: its decimal digits. *)
Fixpoint uint_chars (d : Decimal.uint) : str :=
  match d with
  | Decimal.Nil => []
  | Decimal.D0 d => ch "0" :: uint_chars d
  | Decimal.D1 d => ch "1" :: uint_chars d
  | Decimal.D2 d => ch "2" :: uint_chars d
  | Decimal.D3 d => ch "3" :: uint_chars d
  | Decimal.D4 d => ch "4" :: uint_chars d
  | Decimal.D5 d => ch "5" :: uint_chars d
  | Decimal.D6 d => ch "6" :: uint_chars d
  | Decimal.D7 d => ch "7" :: uint_chars d
  | Decimal.D8 d => ch "8" :: uint_chars d
  | Decimal.D9 d => ch "9" :: uint_chars d
  end.

Definition str_of_nat (i : nat) : str := uint_chars (Nat.to_uint i).

(* ================================================================== *)
(** * Regular expressions

    The patterns of the program, matched as Python's [re] module matches
    them: by backtracking, alternatives in order, greedy quantifiers longest
    first and lazy ones shortest first.  Every quantifier of the program
    applies to a single-character set, which is the form [Rep] has. *)
(* ================================================================== *)

Inductive citem :=
| IChar (c : char)
| ISpace            (* \s *)
| IDigit            (* \d *)
| INotWord.         (* \W *)

Inductive cset :=
| CAny                                   (* . under re.S *)
| CSet (negated : bool) (items : list citem).   (* [...] and [^...] *)

Inductive greed := Greedy | Lazy.

Inductive re :=
| Eps
| Lit (c : char)
| WordB                                  (* \b *)
| Seq (a b : re)
| Alt (a b : re)
| Rep (g : greed) (min : nat) (cs : cset)    (* cs*, cs+, cs*?, cs+? *)
| Grp (n : nat) (r : re).                (* the n-th capturing group *)

(** A literal string as a pattern. *)
Fixpoint Str (s : str) : re :=
  match s with
  | [] => Eps
  | c :: s' => Seq (Lit c) (Str s')
  end.

(** A sequence of patterns. *)
Fixpoint Cat (rs : list re) : re :=
  match rs with
  | [] => Eps
  | r :: rs' => Seq r (Cat rs')
  end.

(** Group spans, as offsets from the start of the match; the most recent
    binding of a group comes first. *)
Definition captures := list (nat * (nat * nat)).

Fixpoint cap_lookup (n : nat) (caps : captures) : option (nat * nat) :=
  match caps with
  | [] => None
  | (g, span) :: caps' => if Nat.eqb g n then Some span else cap_lookup n caps'
  end.

Section Engine.
Context {U : UnicodeData}.

Definition in_item (i : citem) (c : char) : bool :=
  match i with
  | IChar x => char_eqb x c
  | ISpace => isspace c
  | IDigit => isdecimal c
  | INotWord => negb (isword c)
  end.

(** The sets of the program hold no letter, so [re.I] does not bear on
    them. *)
Definition in_cset (cs : cset) (c : char) : bool :=
  match cs with
  | CAny => true
  | CSet neg items => xorb neg (existsb (fun i => in_item i c) items)
  end.

(** Is there a word character on this side of the position? *)
Definition word_side (c : option char) : bool :=
  match c with Some x => isword x | None => false end.

Section Matcher.
Variable ic : bool.      (* the re.I flag *)
Variable A : Type.

Definition lit_eq (p c : char) : bool :=
  if ic then ieq p c else char_eqb p c.

(** The continuation receives the character before the position, the rest
    of the subject and the offset reached. *)
Definition kont := option char -> str -> nat -> option A.

Fixpoint rep_greedy (cs : cset) (min : nat) (prev : option char) (s : str)
    (off : nat) (k : kont) : option A :=
  let stop := match min with O => k prev s off | S _ => None end in
  match s with
  | c :: s' =>
      if in_cset cs c then
        match rep_greedy cs (pred min) (Some c) s' (S off) k with
        | Some x => Some x
        | None => stop
        end
      else stop
  | [] => stop
  end.

Fixpoint rep_lazy (cs : cset) (min : nat) (prev : option char) (s : str)
    (off : nat) (k : kont) : option A :=
  let more :=
    match s with
    | c :: s' =>
        if in_cset cs c then rep_lazy cs (pred min) (Some c) s' (S off) k
        else None
    | [] => None
    end in
  match min with
  | O => match k prev s off with Some x => Some x | None => more end
  | S _ => more
  end.

Fixpoint m (r : re) (prev : option char) (s : str) (off : nat)
    (caps : captures)
    (k : option char -> str -> nat -> captures -> option A) : option A :=
  match r with
  | Eps => k prev s off caps
  | Lit p =>
      match s with
      | c :: s' => if lit_eq p c then k (Some c) s' (S off) caps else None
      | [] => None
      end
  | WordB =>
      if xorb (word_side prev) (word_side (hd_error s))
      then k prev s off caps else None
  | Seq a b =>
      m a prev s off caps (fun p' s' o' c' => m b p' s' o' c' k)
  | Alt a b =>
      match m a prev s off caps k with
      | Some x => Some x
      | None => m b prev s off caps k
      end
  | Rep Greedy min cs =>
      rep_greedy cs min prev s off (fun p' s' o' => k p' s' o' caps)
  | Rep Lazy min cs =>
      rep_lazy cs min prev s off (fun p' s' o' => k p' s' o' caps)
  | Grp n r' =>
      m r' prev s off caps (fun p' s' o' c' => k p' s' o' ((n, (off, o')) :: c'))
  end.

End Matcher.

(** A match found at the head of [s]: its length and its groups. *)
Definition match_at (ic : bool) (r : re) (prev : option char) (s : str)
  : option (nat * captures) :=
  m ic r prev s 0 [] (fun _ _ o c => Some (o, c)).

(** [m.group(n)] for a match of length [len] at the head of [s]; a group
    that took no part in the match is the empty string. *)
Definition group (s : str) (len : nat) (caps : captures) (n : nat) : str :=
  match n with
  | O => firstn len s
  | S _ =>
      match cap_lookup n caps with
      | Some (b, e) => firstn (e - b) (skipn b s)
      | None => []
      end
  end.

(** [re.match(r, s)] as a truth value. *)
Definition re_match (ic : bool) (r : re) (s : str) : bool :=
  match match_at ic r None s with Some _ => true | None => false end.

(** [re.fullmatch(r, s)] as a truth value. *)
Definition re_fullmatch (ic : bool) (r : re) (s : str) : bool :=
  match m ic r None s 0 []
          (fun _ s' _ _ => match s' with [] => Some tt | _ => None end) with
  | Some _ => true
  | None => false
  end.

(** [re.search(r, s)] as a truth value: a match at some position. *)
Fixpoint search_from (ic : bool) (r : re) (prev : option char) (s : str) : bool :=
  match match_at ic r prev s with
  | Some _ => true
  | None =>
      match s with
      | [] => false
      | c :: s' => search_from ic r (Some c) s'
      end
  end.

Definition re_search (ic : bool) (r : re) (s : str) : bool :=
  search_from ic r None s.

(** The loop of [re.sub] with a function as replacement: the function sees
    the match and a state of its own (the closure it writes to).  Matches
    are taken left to right without overlap; [skip] counts the characters of
    the current match still to pass, [count] the replacements still allowed
    ([None]: no limit).  No pattern of the program matches the empty string
    ([loop_patterns_consume] below), so a match of length 0 is not looked for. *)
Fixpoint sub_loop (T : Type) (ic : bool) (r : re)
    (f : T -> str -> nat -> captures -> str * T)
    (count : option nat) (prev : option char) (s : str) (skip : nat) (st : T)
  : str * T :=
  match s with
  | [] => ([], st)
  | c :: s' =>
      match skip with
      | S k => sub_loop ic r f count (Some c) s' k st
      | O =>
          match count with
          | Some O => (s, st)
          | _ =>
              match match_at ic r prev s with
              | Some (S n, caps) =>
                  let '(rep, st1) := f st s (S n) caps in
                  let '(out, st2) :=
                    sub_loop ic r f (option_map pred count) (Some c) s' n st1 in
                  (rep ++ out, st2)
              | _ =>
                  let '(out, st2) := sub_loop ic r f count (Some c) s' 0 st in
                  (c :: out, st2)
              end
          end
      end
  end.

(** Replacement templates: text and group references ([\1], [\2]). *)
Inductive titem := TText (s : str) | TGroup (n : nat).

Definition expand (t : list titem) (s : str) (len : nat) (caps : captures) : str :=
  flat_map (fun i => match i with
                     | TText x => x
                     | TGroup n => group s len caps n
                     end) t.

(** [re.sub(r, template, s, count)] *)
Definition re_sub (ic : bool) (r : re) (t : list titem) (count : option nat)
    (s : str) : str :=
  fst (sub_loop ic r (fun (_ : unit) s' len caps => (expand t s' len caps, tt))
         count None s 0 tt).

(** [re.split(r, s)] for a pattern with one capturing group: the texts
    between the matches, and between two texts the group of the match. *)
Fixpoint split_loop (ic : bool) (r : re) (prev : option char) (s : str)
    (skip : nat) (acc : str) : list str :=
  match s with
  | [] => [rev acc]
  | c :: s' =>
      match skip with
      | S k => split_loop ic r (Some c) s' k acc
      | O =>
          match match_at ic r prev s with
          | Some (S n, caps) =>
              rev acc :: group s (S n) caps 1
                :: split_loop ic r (Some c) s' n []
          | _ => split_loop ic r (Some c) s' 0 (c :: acc)
          end
      end
  end.

Definition re_split (ic : bool) (r : re) (s : str) : list str :=
  split_loop ic r None s 0 [].

End Engine.

(* ================================================================== *)
(** * language_engine.py *)
(* ================================================================== *)

(** A Python dict with string keys, as the list of its items. *)
Fixpoint dict_get (V : Type) (d : list (str * V)) (key : str) : option V :=
  match d with
  | [] => None
  | (k, v) :: d' => if str_eqb k key then Some v else dict_get d' key
  end.

Definition LANG_MAP : list (str * str) :=
  [ (lit "en", lit "en"); (lit "en-gb", lit "en"); (lit "en-us", lit "en");
    (lit "ar", lit "ar"); (lit "ru", lit "ru"); (lit "fr", lit "fr");
    (lit "es", lit "es"); (lit "de", lit "de"); (lit "it", lit "it");
    (lit "zh", lit "zh"); (lit "zh-cn", lit "zh"); (lit "zh-hans", lit "zh");
    (lit "zh-hant", lit "zh") ].

Definition RTL : list str := [lit "ar"].

Definition BRAND_TOKENS : list str :=
  [lit "PEN.ai"; lit "PEN"; lit "Cognitive College"; lit "More House";
   lit "PEN Reply"].

(** ** The values the provider's JSON answer is made of *)

#[local] Set Warnings "-register-all".

Inductive json :=
| JNull
| JBool (b : bool)
| JNum (n : Z)
| JStr (s : str)
| JArr (items : list json)
| JObj (fields : list (str * json)).

(** The exceptions of the engine's own operations. *)
Inductive exn :=
  IndexError | KeyError | AttributeError | TypeError | UnicodeEncodeError.

Inductive result (A : Type) :=
| Ok (a : A)
| Raised (e : exn).
Arguments Ok {A} a.
Arguments Raised {A} e.

Definition bind (A B : Type) (r : result A) (f : A -> result B) : result B :=
  match r with
  | Ok a => f a
  | Raised e => Raised e
  end.

Notation "x <- r ;; k" := (bind r (fun x => k))
  (at level 61, r at next level, right associativity).

(** [j.get(key, default)]: only a dict has [get]. *)
Definition json_get (j : json) (key : str) (default : json) : result json :=
  match j with
  | JObj fields =>
      Ok match dict_get fields key with Some v => v | None => default end
  | _ => Raised AttributeError
  end.

(** [j[i]] for an integer [i]. *)
Definition json_index (j : json) (i : nat) : result json :=
  match j with
  | JArr items =>
      match nth_error items i with
      | Some v => Ok v
      | None => Raised IndexError
      end
  | JStr s =>
      match nth_error s i with
      | Some c => Ok (JStr [c])
      | None => Raised IndexError
      end
  | JObj _ => Raised KeyError
  | _ => Raised TypeError
  end.

(** The environment of the module: the credential read at import time
    (already stripped), and the provider behind [requests.post] followed by
    [raise_for_status] and [json]: given the endpoint, the form data and
    the query parameters it yields the decoded answer, or [None] when any
    of the three raises (network error, timeout, status, body). *)
Record env := {
  DEEPL_API_KEY : str;
  provider : str -> list (str * str) -> list (str * str) -> option json
}.

Definition DEEPL_URL (e : env) : option str :=
  match DEEPL_API_KEY e with
  | [] => None
  | _ :: _ => Some (lit "https://api-free.deepl.com/v2/translate")
  end.

Section LanguageEngine.
Context {U : UnicodeData}.

Definition normalise_lang (s : str) : str :=
  match s with
  | [] => lit "en"
  | _ :: _ =>
      match dict_get LANG_MAP (lower (strip s)) with
      | Some v => v
      | None => lit "en"
      end
  end.

Definition is_rtl (lang : str) : bool :=
  existsb (str_eqb (normalise_lang lang)) RTL.

(** ** DeepL batching *)

(** [[out[i].get("text", texts[i]) for i in range(len(texts))]], from
    index [i] on. *)
Fixpoint collect (out : json) (texts : list str) (i : nat) : result (list json) :=
  match texts with
  | [] => Ok []
  | t :: ts =>
      entry <- json_index out i ;;
      v <- json_get entry (lit "text") (JStr t) ;;
      rest <- collect out ts (S i) ;;
      Ok (v :: rest)
  end.

Definition _deepl_batch (e : env) (texts : list str) (lang : str) : list json :=
  let lang := normalise_lang lang in
  match texts with
  | [] => map JStr texts
  | _ :: _ =>
      match DEEPL_API_KEY e, DEEPL_URL e, str_eqb lang (lit "en") with
      | _ :: _, Some url, false =>
          let data := map (fun t => (lit "text", t)) texts in
          let params := [(lit "auth_key", DEEPL_API_KEY e);
                         (lit "target_lang", upper lang)] in
          match provider e url data params with
          | None => map JStr texts
          | Some answer =>
              match (out <- json_get answer (lit "translations") (JArr []) ;;
                     collect out texts 0) with
              | Ok translated => translated
              | Raised _ => map JStr texts
              end
          end
      | _, _, _ => map JStr texts
      end
  end.

(** ** Protection helpers (brands and templating) *)

(** [sorted(tokens, key=len, reverse=True)]: stable, longest first. *)
Fixpoint insert_by_len (t : str) (l : list str) : list str :=
  match l with
  | [] => [t]
  | x :: l' =>
      if Nat.ltb (length x) (length t) then t :: l
      else x :: insert_by_len t l'
  end.

Definition sorted_by_len_desc (l : list str) : list str :=
  fold_right insert_by_len [] (rev l).

(** ["|".join(...)] of literal patterns. *)
Fixpoint alternation (l : list str) : re :=
  match l with
  | [] => Eps
  | [t] => Str t
  | t :: l' => Alt (Str t) (alternation l')
  end.

Definition TOKEN_RE : option re :=
  match BRAND_TOKENS with
  | [] => None
  | _ :: _ => Some (alternation (sorted_by_len_desc BRAND_TOKENS))
  end.

(** [(\{\{.*?\}\}|\[\[.*?\]\])] under [re.S] *)
Definition BRACK_RE : re :=
  Grp 1 (Alt (Cat [Str (lit "{{"); Rep Lazy 0 CAny; Str (lit "}}")])
             (Cat [Str (lit "[["); Rep Lazy 0 CAny; Str (lit "]]")])).

Definition brand_marker (i : nat) : str :=
  lit "__PENBRAND_" ++ str_of_nat i ++ lit "__".

Definition brack_marker (i : nat) : str :=
  lit "__PENPROT_" ++ str_of_nat i ++ lit "__".

(** The local function [sub] of the two protectors: it appends the match to
    the bag and answers the marker of its index. *)
Definition bag_sub (marker : nat -> str) (bag : list str) (s : str) (len : nat)
    (caps : captures) : str * list str :=
  (marker (length bag), bag ++ [group s len caps 0]).

Definition _protect_brands (s : str) : str * list str :=
  match s, TOKEN_RE with
  | _ :: _, Some r => sub_loop false r (bag_sub brand_marker) None None s 0 []
  | _, _ => (s, [])
  end.

Definition _protect_brackets (s : str) : str * list str :=
  match s with
  | [] => (s, [])
  | _ :: _ => sub_loop false BRACK_RE (bag_sub brack_marker) None None s 0 []
  end.

(** [for i, val in enumerate(bag): s = s.replace(marker(i), val)], from
    index [i] on. *)
Fixpoint restore_from (marker : nat -> str) (s : str) (bag : list str) (i : nat)
  : str :=
  match bag with
  | [] => s
  | val :: bag' => restore_from marker (replace (marker i) val s) bag' (S i)
  end.

Definition _restore_brands (s : str) (bag : list str) : str :=
  restore_from brand_marker s bag 0.

Definition _restore_brackets (s : str) (bag : list str) : str :=
  restore_from brack_marker s bag 0.

(** The restorers on a value that came back from the batch client: the
    loop calls [replace] on it, which only a string has, once per bag entry. *)
Definition restore_value (restore : str -> list str -> str) (v : json)
    (bag : list str) : result json :=
  match bag, v with
  | [], _ => Ok v
  | _ :: _, JStr s => Ok (JStr (restore s bag))
  | _ :: _, _ => Raised AttributeError
  end.

(** ** Public helpers *)

(** [[\W_]+] *)
Definition NONWORD_RE : re := Rep Greedy 1 (CSet false [INotWord; IChar (ch "_")]).

(** [\s*[\d\.\,\:\-\+\(\)%\s]+\s*] *)
Definition NUMERIC_SET : cset :=
  CSet false [IDigit; IChar (ch "."); IChar (ch ","); IChar (ch ":");
              IChar (ch "-"); IChar (ch "+"); IChar (ch "("); IChar (ch ")");
              IChar (ch "%"); ISpace].

Definition NUMERIC_RE : re :=
  Cat [Rep Greedy 0 (CSet false [ISpace]); Rep Greedy 1 NUMERIC_SET;
       Rep Greedy 0 (CSet false [ISpace])].

Definition should_skip_text (text : str) : bool :=
  match text, strip text with
  | [], _ | _, [] => true
  | _, stripped =>
      if Nat.leb (length stripped) 1 then true
      else if re_fullmatch false NONWORD_RE text then true
      else if re_fullmatch false NUMERIC_RE text then true
      else false
  end.

(** ** translate_html_fragment *)

(** [(<[^>]+>)] *)
Definition TAG_RE : re :=
  Grp 1 (Cat [Lit (ch "<"); Rep Greedy 1 (CSet true [IChar (ch ">")]);
              Lit (ch ">")]).

Definition SPACES : re := Rep Greedy 0 (CSet false [ISpace]).

(** [bool(re.match(rf"<\s*{tagname}\b", t, re.I)) and not t.startswith("</")] *)
Definition is_opening (tagname t : str) : bool :=
  re_match true (Cat [Lit (ch "<"); SPACES; Str tagname; WordB]) t
  && negb (startswith (lit "</") t).

(** [bool(re.match(rf"<\s*/\s*{tagname}\b", t, re.I))] *)
Definition is_closing (tagname t : str) : bool :=
  re_match true
    (Cat [Lit (ch "<"); SPACES; Lit (ch "/"); SPACES; Str tagname; WordB]) t.

(** The variables of the loop over the parts. *)
Record scan := {
  in_script : bool;
  in_style : bool;
  out : list json;
  jobs : list str;
  jobs_idx : list nat;
  jobs_brandbags : list (list str);
  jobs_brackbags : list (list str)
}.

Definition scan_init : scan :=
  {| in_script := false; in_style := false; out := []; jobs := [];
     jobs_idx := []; jobs_brandbags := []; jobs_brackbags := [] |}.

(** One turn of [for p in parts]. *)
Definition scan_step (st : scan) (p : str) : scan :=
  if startswith (lit "<") p then
    let sc1 := if is_opening (lit "script") p then true else in_script st in
    let sc2 := if is_closing (lit "script") p then false else sc1 in
    let sy1 := if is_opening (lit "style") p then true else in_style st in
    let sy2 := if is_closing (lit "style") p then false else sy1 in
    {| in_script := sc2; in_style := sy2; out := out st ++ [JStr p];
       jobs := jobs st; jobs_idx := jobs_idx st;
       jobs_brandbags := jobs_brandbags st;
       jobs_brackbags := jobs_brackbags st |}
  else if in_script st || in_style st then
    {| in_script := in_script st; in_style := in_style st;
       out := out st ++ [JStr p];
       jobs := jobs st; jobs_idx := jobs_idx st;
       jobs_brandbags := jobs_brandbags st;
       jobs_brackbags := jobs_brackbags st |}
  else if should_skip_text p then
    {| in_script := in_script st; in_style := in_style st;
       out := out st ++ [JStr p];
       jobs := jobs st; jobs_idx := jobs_idx st;
       jobs_brandbags := jobs_brandbags st;
       jobs_brackbags := jobs_brackbags st |}
  else
    let '(s1, brandbag) := _protect_brands p in
    let '(s2, brackbag) := _protect_brackets s1 in
    {| in_script := in_script st; in_style := in_style st;
       out := out st ++ [JStr []];
       jobs := jobs st ++ [s2];
       jobs_idx := jobs_idx st ++ [length (out st)];
       jobs_brandbags := jobs_brandbags st ++ [brandbag];
       jobs_brackbags := jobs_brackbags st ++ [brackbag] |}.

Definition scan_parts (parts : list str) : scan :=
  fold_left scan_step parts scan_init.

(** [l[i]] *)
Definition list_index (A : Type) (l : list A) (i : nat) : result A :=
  match nth_error l i with
  | Some a => Ok a
  | None => Raised IndexError
  end.

(** [l[i] = v] *)
Fixpoint list_set (A : Type) (l : list A) (i : nat) (v : A) : result (list A) :=
  match l, i with
  | [], _ => Raised IndexError
  | _ :: l', O => Ok (v :: l')
  | a :: l', S i' => l'' <- list_set l' i' v ;; Ok (a :: l'')
  end.

(** [for i, s in enumerate(translated): ...], from index [i] on. *)
Fixpoint splice (st : scan) (translated : list json) (i : nat)
    (out : list json) : result (list json) :=
  match translated with
  | [] => Ok out
  | s :: rest =>
      brackbag <- list_index (jobs_brackbags st) i ;;
      s1 <- restore_value _restore_brackets s brackbag ;;
      brandbag <- list_index (jobs_brandbags st) i ;;
      s2 <- restore_value _restore_brands s1 brandbag ;;
      k <- list_index (jobs_idx st) i ;;
      out' <- list_set out k s2 ;;
      splice st rest (S i) out'
  end.

(** The join of [out] on the empty separator. *)
Fixpoint join (out : list json) : result str :=
  match out with
  | [] => Ok []
  | JStr s :: out' => rest <- join out' ;; Ok (s ++ rest)
  | _ :: _ => Raised TypeError
  end.

(** The parts of the document with the translations written back: the list
    [out] as it stands when it is joined. *)
Definition spliced (e : env) (html lang : str) : result (list json) :=
  let st := scan_parts (re_split false TAG_RE html) in
  match jobs st with
  | [] => Ok (out st)
  | _ :: _ => splice st (_deepl_batch e (jobs st) lang) 0 (out st)
  end.

(** The patterns of the post-processing, all under [re.I]. *)

Definition NOT_GT : cset := CSet true [IChar (ch ">")].
Definition NOT_DQ : cset := CSet true [IChar dquote].

(** [<html\b] *)
Definition HTML_RE : re := Cat [Str (lit "<html"); WordB].

(** [(<html\b[^>]*?)\s+lang=Q[^Q]*Q], with Q the double quote *)
Definition HTML_LANG_RE : re :=
  Cat [Grp 1 (Cat [Str (lit "<html"); WordB; Rep Lazy 0 NOT_GT]);
       Rep Greedy 1 (CSet false [ISpace]); Str (lit "lang="); Lit dquote;
       Rep Greedy 0 NOT_DQ; Lit dquote].

(** [(<html\b)([^>]*?)>] *)
Definition HTML_OPEN_RE : re :=
  Cat [Grp 1 (Cat [Str (lit "<html"); WordB]); Grp 2 (Rep Lazy 0 NOT_GT);
       Lit (ch ">")].

(** [<html[^>]*\bdir=] *)
Definition HTML_HAS_DIR_RE : re :=
  Cat [Str (lit "<html"); Rep Greedy 0 NOT_GT; WordB; Str (lit "dir=")].

(** [(<html\b[^>]*\b)dir=Q[^Q]*Q], with Q the double quote *)
Definition HTML_DIR_RE : re :=
  Cat [Grp 1 (Cat [Str (lit "<html"); WordB; Rep Greedy 0 NOT_GT; WordB]);
       Str (lit "dir="); Lit dquote; Rep Greedy 0 NOT_DQ; Lit dquote].

(** [</head>] *)
Definition HEAD_END_RE : re := Str (lit "</head>").

Definition quoted (s : str) : str := dquote :: s ++ [dquote].

(** The last part of [translate_html_fragment]: the [lang] and [dir]
    attributes of the [<html>] tag and the diagnostic marker. *)
Definition postprocess (lang html2 : str) : str :=
  let html3 :=
    if re_search true HTML_RE html2 then
      let a := re_sub true HTML_LANG_RE [TGroup 1] None html2 in
      let b := re_sub true HTML_OPEN_RE
                 [TGroup 1; TText (lit " lang=" ++ quoted lang); TGroup 2;
                  TText (lit ">")] None a in
      if is_rtl lang then
        if re_search true HTML_HAS_DIR_RE b then
          re_sub true HTML_DIR_RE
            [TGroup 1; TText (lit "dir=" ++ quoted (lit "rtl"))] None b
        else
          re_sub true HTML_OPEN_RE
            [TGroup 1; TText (lit " dir=" ++ quoted (lit "rtl")); TGroup 2;
             TText (lit ">")] None b
      else
        re_sub true HTML_DIR_RE [TGroup 1] None b
    else html2 in
  if re_search true HEAD_END_RE html3 then
    re_sub true HEAD_END_RE
      [TText (lit "<meta name=" ++ quoted (lit "penai-lang")
              ++ lit " content=" ++ quoted lang ++ lit "></head>")]
      (Some 1) html3
  else html3.

Definition translate_html_fragment (e : env) (html lang : str) : result str :=
  let lang := normalise_lang lang in
  match str_eqb lang (lit "en"), html, strip html with
  | true, _, _ | _, [], _ | _, _, [] => Ok html
  | _, _, _ =>
      out <- spliced e html lang ;;
      html2 <- join out ;;
      Ok (postprocess lang html2)
  end.

(* ================================================================== *)
(** * app.py: the response hook *)
(* ================================================================== *)

Definition SUPPORTED_LANGS : list str :=
  [lit "en"; lit "zh"; lit "ar"; lit "ru"; lit "fr"; lit "es"; lit "de";
   lit "it"].

Record request := {
  args : list (str * str);
  _pen_lang : option str
}.

Record response := {
  status_code : nat;
  headers : list (str * str);
  direct_passthrough : bool;
  data : str
}.

(** [str.encode()]: UTF-8, which has no encoding for a surrogate. *)
Definition encodable (c : char) : bool := negb (between 55296 57343 c)%N.

Definition utf8_width (c : char) : nat :=
  if (c <? 128)%N then 1
  else if (c <? 2048)%N then 2
  else if (c <? 65536)%N then 3
  else 4.

Definition utf8_length (s : str) : nat :=
  fold_right (fun c n => utf8_width c + n) 0 s.

(** werkzeug's [Headers]: a list of items whose keys compare without
    regard to case. *)
Definition key_eqb (a b : str) : bool :=
  str_eqb (lower a) (lower b).

(** [headers.get(key)]: the value of the first item of that key. *)
Fixpoint headers_get (h : list (str * str)) (key : str)
  : option str :=
  match h with
  | [] => None
  | (k, x) :: h' => if key_eqb k key then Some x else headers_get h' key
  end.

Definition headers_remove (h : list (str * str)) (key : str)
  : list (str * str) :=
  filter (fun item => negb (key_eqb (fst item) key)) h.

(** [headers[key] = v]: the first item of that key is replaced, the others
    of that key are removed; without one the item is appended. *)
Fixpoint headers_set (h : list (str * str)) (key v : str)
  : list (str * str) :=
  match h with
  | [] => [(key, v)]
  | (k, x) :: h' =>
      if key_eqb k key then (key, v) :: headers_remove h' key
      else (k, x) :: headers_set h' key v
  end.

(** What [resp.set_data(d)] leaves when [d] can be encoded: the body, and
    its length in bytes under [Content-Length]. *)
Definition with_data (resp : response) (d : str) : response :=
  {| status_code := status_code resp;
     headers := headers_set (headers resp) (lit "Content-Length")
                  (str_of_nat (utf8_length d));
     direct_passthrough := direct_passthrough resp; data := d |}.

(** [resp.set_data(d)]: the string is encoded first, which raises on a
    surrogate and then leaves the response as it was. *)
Definition set_data (resp : response) (d : str)
  : result response :=
  if forallb encodable d then Ok (with_data resp d)
  else Raised UnicodeEncodeError.

Definition set_header (resp : response) (key v : str)
  : response :=
  {| status_code := status_code resp;
     headers := headers_set (headers resp) key v;
     direct_passthrough := direct_passthrough resp; data := data resp |}.

Definition setdefault_header (resp : response) (key v : str)
  : response :=
  match headers_get (headers resp) key with
  | Some _ => resp
  | None => set_header resp key v
  end.

Definition or_default (V : Type) (o : option V) (d : V) : V :=
  match o with Some v => v | None => d end.

(** [_set_lang]: the language stashed on the request. *)
Definition _set_lang (req : request) : request :=
  let lang_raw := or_default (dict_get (args req) (lit "lang")) (lit "en") in
  let lang := normalise_lang lang_raw in
  let lang := if existsb (str_eqb lang) SUPPORTED_LANGS then lang else lit "en" in
  {| args := args req; _pen_lang := Some lang |}.

Definition ERROR_PAGE : str :=
  lit "<!doctype html><title>Error</title><body>Temporary translation error.</body>".

(** [_translate_response].  The handler of the [except] clause sees the
    response as the [try] block found it: the one call that can raise after
    the translation, [set_data], raises before it writes.  The error page is
    ASCII, so writing it cannot raise. *)
Definition _translate_response (e : env) (req : request) (resp : response)
  : response :=
  if str_eqb (lower (or_default (dict_get (args req) (lit "translate")) []))
       (lit "off")
  then resp
  else
    let lang := or_default (_pen_lang req) (lit "en") in
    let ctype :=
      lower (or_default (headers_get (headers resp) (lit "Content-Type")) []) in
    if negb (str_eqb lang (lit "en")) && Nat.eqb (status_code resp) 200
       && contains (lit "text/html") ctype && negb (direct_passthrough resp)
    then
      let original := data resp in
      let handler :=
        match strip (data resp) with
        | [] => with_data resp ERROR_PAGE
        | _ :: _ => resp
        end in
      match strip original with
      | [] => resp
      | _ :: _ =>
          match translate_html_fragment e original lang with
          | Ok translated =>
              match translated, strip translated with
              | _ :: _, _ :: _ =>
                  match set_data resp translated with
                  | Ok resp1 =>
                      set_header
                        (setdefault_header resp1
                           (lit "Cache-Control") (lit "public, max-age=60"))
                        (lit "Vary") (lit "Accept-Language")
                  | Raised _ => handler
                  end
              | _, _ =>
                  match set_data resp original with
                  | Ok resp1 => resp1
                  | Raised _ => handler
                  end
              end
          | Raised _ => handler
          end
      end
    else resp.

End LanguageEngine.

(** The least length of a match of a pattern. *)
Fixpoint min_len (r : re) : nat :=
  match r with
  | Eps | WordB => 0
  | Lit _ => 1
  | Seq a b => min_len a + min_len b
  | Alt a b => Nat.min (min_len a) (min_len b)
  | Rep _ min _ => min
  | Grp _ r' => min_len r'
  end.

(** The patterns that [re.sub] and [re.split] are called with. *)
Definition LOOP_PATTERNS : list re :=
  TAG_RE :: BRACK_RE :: HTML_LANG_RE :: HTML_OPEN_RE :: HTML_DIR_RE
    :: HEAD_END_RE :: match TOKEN_RE with Some r => [r] | None => [] end.

(* ================================================================== *)
(** * A table for evaluation

    On ASCII subjects the engine never consults the table; this one
    classifies nothing above ASCII and leaves it unchanged. *)
(* ================================================================== *)

Definition ascii_tables : UnicodeData :=
  {| uni_isspace := fun _ => false;
     uni_isalnum := fun _ => false;
     uni_isdecimal := fun _ => false;
     uni_lower := fun s => s;
     uni_ieq := fun p c => char_eqb p c;
     uni_space_not_alnum := fun _ _ => eq_refl |}.

(** The character before the position reached after [n] more characters. *)
Fixpoint after (prev : option char) (s : str) (n : nat) {struct n}
  : option char :=
  match n, s with
  | S n', c :: s' => after (Some c) s' n'
  | _, _ => prev
  end.

(** ** The provider's answer, as the interface describes it

    An object whose [translations] entry is a list of objects, each with a
    string under [text]. *)

Definition spec_translation_entry (j : json) : bool :=
  match j with
  | JObj fields =>
      match dict_get fields (lit "text") with
      | Some (JStr _) => true
      | _ => false
      end
  | _ => false
  end.

Definition spec_well_formed_answer (j : json) : bool :=
  match j with
  | JObj fields =>
      match dict_get fields (lit "translations") with
      | Some (JArr items) => forallb spec_translation_entry items
      | _ => false
      end
  | _ => false
  end.

(** What the batch client needs of an answer to read [n] translations from
    it: an object whose [translations] entry is a list of at least [n]
    items, the first [n] of them objects. *)
Definition is_object (j : json) : bool :=
  match j with JObj _ => true | _ => false end.

Definition answer_usable (j : json) (n : nat) : bool :=
  match j with
  | JObj fields =>
      match dict_get fields (lit "translations") with
      | Some (JArr items) =>
          Nat.leb n (length items) && forallb is_object (firstn n items)
      | _ => false
      end
  | _ => false
  end.

(** The value the batch client reads at index [i] of a usable answer for
    the text [t]. *)
Definition answer_text (j : json) (i : nat) (t : str) : json :=
  match j with
  | JObj fields =>
      match dict_get fields (lit "translations") with
      | Some (JArr items) =>
          match nth_error items i with
          | Some (JObj entry) =>
              or_default (dict_get entry (lit "text")) (JStr t)
          | _ => JStr t
          end
      | _ => JStr t
      end
  | _ => JStr t
  end.

(** The request the batch client sends for [texts] in the language
    [lang], and the provider's answer to it. *)
Definition provider_answer {U : UnicodeData} (e : env) (texts : list str)
    (lang : str) : option json :=
  match DEEPL_URL e with
  | Some url =>
      provider e url (map (fun t => (lit "text", t)) texts)
        [(lit "auth_key", DEEPL_API_KEY e);
         (lit "target_lang", upper (normalise_lang lang))]
  | None => None
  end.

(** ** The skip classifier, in the words of its description *)

(** A character that is neither a letter nor a digit: a non-word or
    punctuation character, the underscore included. *)
Definition spec_nonword {U : UnicodeData} (c : char) : bool :=
  negb (isalnum c).

(** A digit, one of the punctuation marks [. , : - + ( ) %], or
    whitespace. *)
Definition spec_numeric {U : UnicodeData} (c : char) : bool :=
  isdecimal c
  || existsb (char_eqb c)
       [ch "."; ch ","; ch ":"; ch "-"; ch "+"; ch "("; ch ")"; ch "%"]
  || isspace c.

(** ** Script and style context, in the words of its description *)

(** A tag token that opens, or closes, the element [tagname]. *)
Definition opens {U : UnicodeData} (tagname p : str) : bool :=
  startswith (lit "<") p && is_opening tagname p.

Definition closes {U : UnicodeData} (tagname p : str) : bool :=
  startswith (lit "<") p && is_closing tagname p.

(** Token [i] lies after an opening tag of [tagname] with no closing tag of
    [tagname] from there up to it. *)
Definition spec_inside {U : UnicodeData} (tagname : str) (parts : list str)
    (i : nat) : Prop :=
  exists j p,
    j < i /\ nth_error parts j = Some p /\ opens tagname p = true
    /\ forall k q, j <= k < i -> nth_error parts k = Some q ->
                   closes tagname q = false.

Definition is_string (v : json) : bool :=
  match v with JStr _ => true | _ => false end.

(** The condition under which a turn of the loop queues its part. *)
Definition queued {U : UnicodeData} (st : scan) (p : str) : bool :=
  negb (startswith (lit "<") p) && negb (in_script st || in_style st)
  && negb (should_skip_text p).

(** The state the loop keeps: one entry of [out] per part seen; the queue
    and its three companions of one length; every queued index a position
    of [out] that holds the placeholder; everything in [out] a string. *)
Record scan_ok {U : UnicodeData} (l : list str) (st : scan) : Prop := {
  ok_out_length : length (out st) = length l;
  ok_jobs : length (jobs st) = length (jobs_idx st);
  ok_brandbags : length (jobs_brandbags st) = length (jobs_idx st);
  ok_brackbags : length (jobs_brackbags st) = length (jobs_idx st);
  ok_strings : forallb is_string (out st) = true;
  ok_idx : forall k, In k (jobs_idx st) ->
             exists p, nth_error l k = Some p
                       /\ queued (scan_parts (firstn k l)) p = true;
  ok_kept : forall k p, nth_error l k = Some p -> ~ In k (jobs_idx st) ->
              nth_error (out st) k = Some (JStr p)
}.

(** ** Marked texts

    A text as the translation provider is meant to hand it back: stretches
    of text without the underscore, and markers. *)

Inductive atom :=
| Txt (s : str)
| Mark (i : nat).

Definition render_atom (a : atom) : str :=
  match a with
  | Txt s => s
  | Mark i => brand_marker i
  end.

Definition render (atoms : list atom) : str := flat_map render_atom atoms.

Definition plain_char (c : char) : bool := negb (char_eqb c (ch "_")).

(** A string without the underscore. *)
Definition plain (s : str) : bool := forallb plain_char s.

Definition clean_atom (a : atom) : bool :=
  match a with
  | Txt s => plain s
  | Mark _ => true
  end.

Definition clean (atoms : list atom) : bool := forallb clean_atom atoms.

(** The marker [i] gives way to the text [val]. *)
Definition subst_atom (i : nat) (val : str) (a : atom) : atom :=
  match a with
  | Mark j => if Nat.eqb j i then Txt val else a
  | Txt _ => a
  end.

(** The entries of [bag], numbered from [i] on, take the place of their
    markers. *)
Fixpoint subst_bag (bag : list str) (i : nat) (atoms : list atom) : list atom :=
  match bag with
  | [] => atoms
  | val :: bag' => subst_bag bag' (S i) (map (subst_atom i val) atoms)
  end.

(** No occurrence of [old] starts inside [x] when [x] is followed by [r]. *)
Fixpoint no_hit (old x r : str) : Prop :=
  match x with
  | [] => True
  | c :: x' => startswith old (x ++ r) = false /\ no_hit old x' r
  end.

(** A text free of the characters that open a template placeholder. *)
Definition bracket_free (s : str) : bool :=
  forallb (fun c => negb (char_eqb c (ch "{")) && negb (char_eqb c (ch "["))) s.

(** ** translate_text *)

(** The single-string variant.  Its result is what came back from the batch
    client with the two bags restored: a string when that was one. *)
Definition translate_text {U : UnicodeData} (e : env) (text lang : str)
  : result json :=
  match text, strip text with
  | [], _ | _, [] => Ok (JStr text)
  | _, _ =>
      let lang := normalise_lang lang in
      if str_eqb lang (lit "en") then Ok (JStr text)
      else
        let '(s1, brands) := _protect_brands text in
        let '(s2, bracks) := _protect_brackets s1 in
        out <- list_index (_deepl_batch e [s2] lang) 0 ;;
        out <- restore_value _restore_brackets out bracks ;;
        restore_value _restore_brands out brands
  end.

(** ** Markers and the texts around them

    A marker is two underscores, a name, an underscore, a number and two
    underscores. *)
Definition marker_of (name : str) (i : nat) : str :=
  ch "_" :: ch "_" :: name ++ ch "_" :: str_of_nat i ++ [ch "_"; ch "_"].

(** What follows the first stretch of a shielded text: for each protected
    value, numbered from [i] on, its marker and the stretch after it. *)
Fixpoint tail_marked (marker : nat -> str) (i : nat) (rest : list (str * str))
  : str :=
  match rest with
  | [] => []
  | (_, g) :: rest' => marker i ++ g ++ tail_marked marker (S i) rest'
  end.

(** The same with every value in the place of its marker. *)
Fixpoint tail_filled (rest : list (str * str)) : str :=
  match rest with
  | [] => []
  | (v, g) :: rest' => v ++ g ++ tail_filled rest'
  end.

(** What may follow a stretch of a shielded text: nothing, or a marker. *)
Definition opens_marker (r : str) : Prop :=
  r = [] \/ exists b, r = ch "_" :: ch "_" :: b.

(** A text in which the name of a marker does not occur. *)
Definition name_free (name s : str) : bool := negb (contains name s).

(** A template placeholder as the bracket pattern takes it: an opening
    pair, the shortest text up to a closing pair, the closing pair. *)
Definition placeholder_span (v : str) : Prop :=
  exists x,
    (v = lit "{{" ++ x ++ lit "}}"
     /\ contains (lit "}}") (x ++ lit "}") = false)
    \/ (v = lit "[[" ++ x ++ lit "]]"
        /\ contains (lit "]]") (x ++ lit "]") = false).

(** ** A token and the substitutions around it *)

(** [re.sub] over a text in which a token of [b] characters starts [a]
    characters on: what the substitution makes of the text before the token
    and of the text after it, when no match it replaces reaches into the
    token; nothing when one does. *)
Fixpoint sub_track {U : UnicodeData} (T : Type) (ic : bool) (r : re)
    (f : T -> str -> nat -> captures -> str * T)
    (count : option nat) (prev : option char) (s : str) (skip : nat) (st : T)
    (a b : nat) {struct s} : option (str * str) :=
  match s with
  | [] =>
      match a, b, skip with
      | O, O, O => Some ([], [])
      | _, _, _ => None
      end
  | c :: s' =>
      match a with
      | S a' =>
          match skip with
          | S k => sub_track ic r f count (Some c) s' k st a' b
          | O =>
              match count with
              | Some O =>
                  if Nat.leb (a + b) (length s)
                  then Some (firstn a s, skipn (a + b) s) else None
              | _ =>
                  match match_at ic r prev s with
                  | Some (S n, caps) =>
                      if Nat.leb (S n) a then
                        let '(rep, st1) := f st s (S n) caps in
                        match sub_track ic r f (option_map pred count)
                                (Some c) s' n st1 a' b with
                        | Some (x, y) => Some (rep ++ x, y)
                        | None => None
                        end
                      else None
                  | _ =>
                      match sub_track ic r f count (Some c) s' 0 st a' b with
                      | Some (x, y) => Some (c :: x, y)
                      | None => None
                      end
                  end
              end
          end
      | O =>
          match skip, b with
          | S _, _ => None
          | O, O => Some ([], fst (sub_loop ic r f count prev s 0 st))
          | O, S b' =>
              match count with
              | Some O =>
                  if Nat.leb b (length s) then Some ([], skipn b s) else None
              | _ =>
                  match match_at ic r prev s with
                  | Some (S n, caps) => None
                  | _ => sub_track ic r f count (Some c) s' 0 st O b'
                  end
              end
          end
      end
  end.

(** [re.sub(r, template, x + p + y, count)] around the token [p]. *)
Definition re_sub_around {U : UnicodeData} (ic : bool) (r : re)
    (t : list titem) (count : option nat) (x p y : str) : option (str * str) :=
  sub_track ic r (fun (_ : unit) s' len caps => (expand t s' len caps, tt))
    count None (x ++ p ++ y) 0 tt (length x) (length p).

(** The post-processing around the token [p] of the document [x + p + y]:
    the same searches and substitutions, in the same order, each followed
    around the token; nothing when a substitution reaches into it. *)
Definition postprocess_around {U : UnicodeData} (lang x p y : str)
  : option (str * str) :=
  let html3 :=
    if re_search true HTML_RE (x ++ p ++ y) then
      match re_sub_around true HTML_LANG_RE [TGroup 1] None x p y with
      | None => None
      | Some (x1, y1) =>
          match re_sub_around true HTML_OPEN_RE
                  [TGroup 1; TText (lit " lang=" ++ quoted lang); TGroup 2;
                   TText (lit ">")] None x1 p y1 with
          | None => None
          | Some (x2, y2) =>
              if is_rtl lang then
                if re_search true HTML_HAS_DIR_RE (x2 ++ p ++ y2) then
                  re_sub_around true HTML_DIR_RE
                    [TGroup 1; TText (lit "dir=" ++ quoted (lit "rtl"))]
                    None x2 p y2
                else
                  re_sub_around true HTML_OPEN_RE
                    [TGroup 1; TText (lit " dir=" ++ quoted (lit "rtl"));
                     TGroup 2; TText (lit ">")] None x2 p y2
              else
                re_sub_around true HTML_DIR_RE [TGroup 1] None x2 p y2
          end
      end
    else Some (x, y) in
  match html3 with
  | None => None
  | Some (x3, y3) =>
      if re_search true HEAD_END_RE (x3 ++ p ++ y3) then
        re_sub_around true HEAD_END_RE
          [TText (lit "<meta name=" ++ quoted (lit "penai-lang")
                  ++ lit " content=" ++ quoted lang ++ lit "></head>")]
          (Some 1) x3 p y3
      else Some (x3, y3)
  end.

(** ** Where a marker stands in a text *)

(** The characters the markers [__PENBRAND_i__] and [__PENPROT_i__] are
    made of. *)
Definition marker_char (c : char) : bool :=
  existsb (char_eqb c) (lit "_PENBRADOT0123456789").

(** A text that is empty or starts with a character no marker holds. *)
Definition starts_clear (y : str) : bool :=
  match y with
  | [] => true
  | c :: _ => negb (marker_char c)
  end.

(** A text that is empty or ends with a character no marker holds. *)
Definition ends_clear (x : str) : bool := starts_clear (rev x).

(** [m] stands in [t] set off from the rest: at each side the text ends
    or a character follows that no marker holds. *)
Definition stands_in (m t : str) : Prop :=
  exists x y, t = x ++ m ++ y /\ ends_clear x = true /\ starts_clear y = true.

(** ** How the protecting loop reads a text *)

(** The length of the match of [r] at the head of [s], 0 where there is
    none: the loop of [re.sub] takes a match only where this is not 0. *)
Definition head_len {U : UnicodeData} (ic : bool) (r : re)
    (prev : option char) (s : str) : nat :=
  match match_at ic r prev s with
  | Some (n, _) => n
  | None => 0
  end.

Definition brand_len {U : UnicodeData} (prev : option char) (s : str) : nat :=
  match TOKEN_RE with
  | Some r => head_len false r prev s
  | None => 0
  end.

Definition brack_len {U : UnicodeData} (prev : option char) (s : str) : nat :=
  head_len false BRACK_RE prev s.

(** The character before a position, [x] read on from one that had [prev]
    before it. *)
Definition prev_after (prev : option char) (x : str) : option char :=
  fold_left (fun _ c => Some c) x prev.

(** No match starts at a position of the stretch [g], which [after]
    follows in the text. *)
Fixpoint gap_clear (hl : option char -> str -> nat) (prev : option char)
    (g after : str) : bool :=
  match g with
  | [] => true
  | c :: g' =>
      Nat.eqb (hl prev (g ++ after)) 0 && gap_clear hl (Some c) g' after
  end.

(** Each value is the match at its position, not empty, and no match
    starts in the stretch after it. *)
Fixpoint tail_matched (hl : option char -> str -> nat) (prev : option char)
    (rest : list (str * str)) : bool :=
  match rest with
  | [] => true
  | (v, g) :: rest' =>
      negb (Nat.eqb (length v) 0)
      && Nat.eqb (hl prev (v ++ g ++ tail_filled rest')) (length v)
      && gap_clear hl (prev_after prev v) g (tail_filled rest')
      && tail_matched hl (prev_after (prev_after prev v) g) rest'
  end.

(** ** Providers and environments of the examples *)

(** The stub of the scenario: every text comes back in upper case. *)
Definition upper_provider (_ : str) (data : list (str * str))
    (_ : list (str * str)) : option json :=
  Some (JObj [(lit "translations",
               JArr (map (fun d => JObj [(lit "text", JStr (upper (snd d)))])
                       data))]).

(** A provider whose call raises. *)
Definition failing_provider (_ : str) (_ _ : list (str * str)) : option json :=
  None.

(** A provider that gives the same value as the text of every entry. *)
Definition constant_provider (v : json) (_ : str) (data : list (str * str))
    (_ : list (str * str)) : option json :=
  Some (JObj [(lit "translations",
               JArr (map (fun _ => JObj [(lit "text", v)]) data))]).

Definition env_of (p : str -> list (str * str) -> list (str * str) -> option json)
  : env :=
  {| DEEPL_API_KEY := lit "key"; provider := p |}.

(* ================================================================== *)
(** * Properties of the matcher *)
(* ================================================================== *)

Lemma after_add (prev : option char) (s : str) (a b : nat) :
  a <= length s ->
  after (after prev s a) (skipn a s) b = after prev s (a + b).
Proof.
  revert prev s; induction a as [|a IH]; intros prev s Ha; simpl.
  - reflexivity.
  - destruct s as [|c s]; simpl in *; [lia|]. apply IH; lia.
Qed.

Lemma skipn_add (A : Type) (a b : nat) (l : list A) :
  skipn b (skipn a l) = skipn (a + b) l.
Proof.
  revert l; induction a as [|a IH]; intros l; simpl; [reflexivity|].
  destruct l; simpl; [now destruct b | apply IH].
Qed.

Section MatcherFacts.
Context {U : UnicodeData}.
Variable ic : bool.
Variable A : Type.

(** Where the matcher succeeds its continuation has succeeded, at a
    position inside the subject. *)
Lemma rep_greedy_sound (cs : cset) (s : str) :
  forall min prev off (k : kont A) x,
    rep_greedy cs min prev s off k = Some x ->
    exists n, min <= n /\ n <= length s
              /\ forallb (in_cset cs) (firstn n s) = true
              /\ k (after prev s n) (skipn n s) (off + n) = Some x.
Proof.
  induction s as [|c s IH]; intros min prev off k x H; simpl in H.
  - destruct min; [|discriminate].
    exists 0; simpl; rewrite Nat.add_0_r; auto.
  - assert (Hstop : match min with O => k prev (c :: s) off | S _ => None end
                    = Some x ->
                    exists n, min <= n /\ n <= length (c :: s)
                      /\ forallb (in_cset cs) (firstn n (c :: s)) = true
                      /\ k (after prev (c :: s) n) (skipn n (c :: s)) (off + n)
                         = Some x).
    { destruct min; [|discriminate]. intros Hk.
      exists 0; simpl; rewrite Nat.add_0_r; repeat split; auto; lia. }
    destruct (in_cset cs c) eqn:Hc; [|auto].
    destruct (rep_greedy cs (pred min) (Some c) s (S off) k) eqn:Hr; [|auto].
    inversion H; subst; clear H.
    destruct (IH _ _ _ _ _ Hr) as (n & Hmin & Hlen & Hall & Hk).
    exists (S n); simpl; rewrite Hc, Hall, Nat.add_succ_r.
    repeat split; auto; lia.
Qed.

Lemma rep_lazy_sound (cs : cset) (s : str) :
  forall min prev off (k : kont A) x,
    rep_lazy cs min prev s off k = Some x ->
    exists n, min <= n /\ n <= length s
              /\ forallb (in_cset cs) (firstn n s) = true
              /\ k (after prev s n) (skipn n s) (off + n) = Some x.
Proof.
  induction s as [|c s IH]; intros min prev off k x H; simpl in H.
  - destruct min; [|discriminate].
    destruct (k prev [] off) eqn:Hk; [|discriminate].
    inversion H; subst.
    exists 0; simpl; rewrite Nat.add_0_r; auto.
  - assert (Hmore : (if in_cset cs c
                     then rep_lazy cs (pred min) (Some c) s (S off) k
                     else None) = Some x ->
                    exists n, min <= n /\ n <= length (c :: s)
                      /\ forallb (in_cset cs) (firstn n (c :: s)) = true
                      /\ k (after prev (c :: s) n) (skipn n (c :: s)) (off + n)
                         = Some x).
    { destruct (in_cset cs c) eqn:Hc; [|discriminate]. intros Hr.
      destruct (IH _ _ _ _ _ Hr) as (n & Hmin & Hlen & Hall & Hk).
      exists (S n); simpl; rewrite Hc, Hall, Nat.add_succ_r.
      repeat split; auto; lia. }
    destruct min; [|auto].
    destruct (k prev (c :: s) off) eqn:Hk; [|auto].
    inversion H; subst.
    exists 0; simpl; rewrite Nat.add_0_r; repeat split; auto; lia.
Qed.

Lemma m_sound (r : re) :
  forall prev s off caps
         (k : option char -> str -> nat -> captures -> option A) x,
    m ic r prev s off caps k = Some x ->
    exists n caps',
      min_len r <= n /\ n <= length s
      /\ k (after prev s n) (skipn n s) (off + n) caps' = Some x.
Proof.
  induction r as [|p| |a IHa b IHb|a IHa b IHb|g min cs|g r IH];
    intros prev s off caps k x H; simpl in H.
  - exists 0, caps; simpl; rewrite Nat.add_0_r; repeat split; try lia; auto.
  - destruct s as [|c s]; [discriminate|].
    destruct (lit_eq ic p c); [|discriminate].
    exists 1, caps; simpl; rewrite Nat.add_1_r; repeat split; try lia; auto.
  - destruct (xorb _ _); [|discriminate].
    exists 0, caps; simpl; rewrite Nat.add_0_r; repeat split; try lia; auto.
  - destruct (IHa _ _ _ _ _ _ H) as (n1 & c1 & Hm1 & Hn1 & H1).
    destruct (IHb _ _ _ _ _ _ H1) as (n2 & c2 & Hm2 & Hn2 & H2).
    exists (n1 + n2), c2.
    rewrite after_add, skipn_add, <- Nat.add_assoc in H2 by assumption.
    rewrite length_skipn in Hn2. simpl. repeat split; try lia; auto.
  - destruct (m ic a prev s off caps k) eqn:Ha.
    + inversion H; subst.
      destruct (IHa _ _ _ _ _ _ Ha) as (n & c & Hm & Hn & Hk).
      exists n, c. simpl. repeat split; try lia; auto.
    + destruct (IHb _ _ _ _ _ _ H) as (n & c & Hm & Hn & Hk).
      exists n, c. simpl. repeat split; try lia; auto.
  - destruct g.
    + destruct (rep_greedy_sound _ _ _ _ _ _ H) as (n & Hm & Hn & _ & Hk).
      exists n, caps; simpl; auto.
    + destruct (rep_lazy_sound _ _ _ _ _ _ H) as (n & Hm & Hn & _ & Hk).
      exists n, caps; simpl; auto.
  - destruct (IH _ _ _ _ _ _ H) as (n & c1 & Hm & Hn & Hk).
    exists n, ((g, (off, off + n)) :: c1); simpl; auto.
Qed.

End MatcherFacts.

Section MatchAt.
Context {U : UnicodeData}.

(** A match lies inside the subject and has at least the least length of
    its pattern. *)
Lemma match_at_length (ic : bool) (r : re) (prev : option char) (s : str)
    (len : nat) (caps : captures) :
  match_at ic r prev s = Some (len, caps) ->
  min_len r <= len /\ len <= length s.
Proof.
  unfold match_at; intros H.
  destruct (m_sound _ _ _ _ _ _ _ H) as (n & c & Hm & Hn & Hk).
  inversion Hk; subst; simpl; lia.
Qed.

(** Every pattern that the substitution and splitting loops are called
    with consumes at least one character where it matches. *)
Lemma loop_patterns_consume (ic : bool) (r : re) (prev : option char)
    (s : str) (len : nat) (caps : captures) :
  In r LOOP_PATTERNS ->
  match_at ic r prev s = Some (len, caps) -> 1 <= len.
Proof.
  intros Hr Hm. apply match_at_length in Hm as [Hm _].
  assert (Hall : forallb (fun r => Nat.leb 1 (min_len r)) LOOP_PATTERNS = true)
    by (vm_compute; reflexivity).
  rewrite forallb_forall in Hall. specialize (Hall r Hr).
  apply Nat.leb_le in Hall. lia.
Qed.

(** A group around the whole pattern spans the whole match. *)
Lemma match_at_outer_group (ic : bool) (g : nat) (r : re)
    (prev : option char) (s : str) (len : nat) (caps : captures) :
  match_at ic (Grp g r) prev s = Some (len, caps) ->
  cap_lookup g caps = Some (0, len).
Proof.
  unfold match_at; simpl; intros H.
  destruct (m_sound _ _ _ _ _ _ _ H) as (n & c & _ & Hn & Hk).
  inversion Hk; subst; simpl. now rewrite Nat.eqb_refl.
Qed.

Lemma group_outer (ic : bool) (g : nat) (r : re) (prev : option char)
    (s : str) (len : nat) (caps : captures) :
  match_at ic (Grp (S g) r) prev s = Some (len, caps) ->
  group s len caps (S g) = firstn len s.
Proof.
  intros H. unfold group.
  rewrite (match_at_outer_group _ _ _ _ _ H); simpl.
  now rewrite Nat.sub_0_r.
Qed.

(** Splitting on a pattern that is one group loses nothing: the parts,
    read in order, are the subject. *)
Lemma split_loop_concat (ic : bool) (r : re) (s : str) :
  forall prev skip acc,
    concat (split_loop ic (Grp 1 r) prev s skip acc)
    = rev acc ++ skipn skip s.
Proof.
  induction s as [|c s IH]; intros prev skip acc.
  - simpl. rewrite skipn_nil. reflexivity.
  - cbn [split_loop]. destruct skip as [|k].
    + destruct (match_at ic (Grp 1 r) prev (c :: s)) as [[[|n] caps]|] eqn:Hm.
      * rewrite IH. simpl. now rewrite <- app_assoc.
      * rewrite (group_outer _ _ _ _ _ Hm).
        cbn [concat]. rewrite IH. simpl.
        now rewrite firstn_skipn.
      * rewrite IH. simpl. now rewrite <- app_assoc.
    + rewrite IH. reflexivity.
Qed.

End MatchAt.

(* ================================================================== *)
(** * Strings *)
(* ================================================================== *)

Lemma str_eqb_eq (a b : str) : str_eqb a b = true <-> a = b.
Proof.
  revert b; induction a as [|x a IH]; intros [|y b]; simpl;
    try (split; [discriminate | congruence]); [tauto|].
  unfold char_eqb. rewrite andb_true_iff, N.eqb_eq, IH.
  split; [intros [-> ->]; reflexivity | intros H; inversion H; auto].
Qed.

Lemma str_eqb_refl (a : str) : str_eqb a a = true.
Proof. now apply str_eqb_eq. Qed.

Lemma str_eqb_neq (a b : str) : str_eqb a b = false <-> a <> b.
Proof.
  rewrite <- str_eqb_eq. destruct (str_eqb a b); split; congruence.
Qed.

Lemma dict_get_none (V : Type) (d : list (str * V)) (key : str) :
  dict_get d key = None <-> ~ In key (map fst d).
Proof.
  induction d as [|[k v] d IH]; simpl; [tauto|].
  destruct (str_eqb k key) eqn:E.
  - apply str_eqb_eq in E. split; [discriminate | intros H; exfalso; auto].
  - apply str_eqb_neq in E. rewrite IH. tauto.
Qed.

Section StripFacts.
Context {U : UnicodeData}.

Lemma lstrip_nil (s : str) : lstrip s = [] <-> forallb isspace s = true.
Proof.
  induction s as [|c s IH]; simpl; [tauto|].
  destruct (isspace c); simpl; [exact IH | split; discriminate].
Qed.

Lemma lstrip_all (s : str) : forallb isspace (lstrip s) = true -> lstrip s = [].
Proof.
  induction s as [|c s IH]; simpl; [reflexivity|].
  destruct (isspace c) eqn:E; [exact IH|].
  simpl. rewrite E. discriminate.
Qed.

(** [s.strip()] is empty exactly for the empty and the all-whitespace
    strings. *)
Lemma strip_nil (s : str) : strip s = [] <-> forallb isspace s = true.
Proof.
  unfold strip, rstrip. split.
  - intros H. apply lstrip_nil, lstrip_all.
    assert (H' : lstrip (rev (lstrip s)) = []).
    { apply (f_equal (@rev char)) in H. now rewrite rev_involutive in H. }
    apply lstrip_nil in H'.
    rewrite forallb_forall in *. intros x Hx. apply H', in_rev.
    now rewrite rev_involutive.
  - intros H. apply lstrip_nil in H. rewrite H. reflexivity.
Qed.

End StripFacts.

(* ================================================================== *)
(** * The tokenizer *)
(* ================================================================== *)

Section Tokenizer.
Context {U : UnicodeData}.

Lemma split_concat (html : str) :
  concat (re_split false TAG_RE html) = html.
Proof. unfold re_split, TAG_RE. now rewrite split_loop_concat. Qed.

Lemma join_strings (l : list str) : join (map JStr l) = Ok (concat l).
Proof.
  induction l as [|x l IH]; [reflexivity|].
  cbn [map join concat]. now rewrite IH.
Qed.

End Tokenizer.

(** C1. Splitting a document on the tag pattern and concatenating the
    tokens, text and tag alike, in their order gives the document back,
    character for character; so does the join of the engine on the tokens
    passed through as they are. *)
Theorem split_join_lossless (U : UnicodeData) (html : str) :
  concat (re_split false TAG_RE html) = html
  /\ join (map JStr (re_split false TAG_RE html)) = Ok html.
Proof.
  split; [apply split_concat|].
  now rewrite join_strings, split_concat.
Qed.

(* ================================================================== *)
(** * The language normalizer and the identity path *)
(* ================================================================== *)

Section IdentityPath.
Context {U : UnicodeData}.

Lemma fragment_identity_en (e : env) (html lang : str) :
  normalise_lang lang = lit "en" ->
  translate_html_fragment e html lang = Ok html.
Proof.
  intros H. unfold translate_html_fragment. rewrite H, str_eqb_refl.
  reflexivity.
Qed.

Lemma fragment_identity_blank (e : env) (html lang : str) :
  forallb isspace html = true ->
  translate_html_fragment e html lang = Ok html.
Proof.
  intros H. apply strip_nil in H. unfold translate_html_fragment.
  destruct (str_eqb _ _); [reflexivity|].
  destruct html as [|c html]; [reflexivity|]. now rewrite H.
Qed.

Lemma normalise_lang_unknown (lang : str) :
  ~ In (lower (strip lang)) (map fst LANG_MAP) ->
  normalise_lang lang = lit "en".
Proof.
  intros H. apply dict_get_none in H. unfold normalise_lang.
  rewrite H. now destruct lang.
Qed.

End IdentityPath.

(** C4. When the language normalizes to the base language, or the
    document is empty or whitespace only, [translate_html_fragment]
    returns the document unchanged. *)
Theorem identity_fast_path (U : UnicodeData) (e : env) (html lang : str) :
  normalise_lang lang = lit "en" \/ forallb isspace html = true ->
  translate_html_fragment e html lang = Ok html.
Proof.
  intros [H|H];
    [now apply fragment_identity_en | now apply fragment_identity_blank].
Qed.

(** C10. A language that, trimmed and lower-cased, is no key of the alias
    table normalizes to the base language, so the document comes back
    unchanged: nothing translated, no attribute set, no marker inserted. *)
Theorem unknown_language_identity (U : UnicodeData) (e : env)
    (html lang : str) :
  ~ In (lower (strip lang)) (map fst LANG_MAP) ->
  normalise_lang lang = lit "en"
  /\ translate_html_fragment e html lang = Ok html.
Proof.
  intros H. apply normalise_lang_unknown in H.
  split; [assumption | now apply fragment_identity_en].
Qed.

Lemma identity_fast_path_witness :
  (normalise_lang (U := ascii_tables) (lit "en-GB") = lit "en"
   \/ forallb (isspace (U := ascii_tables)) (lit "<p>Hello</p>") = true)
  /\ translate_html_fragment (U := ascii_tables) (env_of upper_provider)
       (lit "<p>Hello</p>") (lit "en-GB")
     = Ok (lit "<p>Hello</p>").
Proof.
  split.
  - left. vm_compute. reflexivity.
  - apply identity_fast_path. left. vm_compute. reflexivity.
Defined.

Lemma unknown_language_identity_witness :
  ~ In (lower (U := ascii_tables) (strip (U := ascii_tables) (lit " JA ")))
       (map fst LANG_MAP)
  /\ translate_html_fragment (U := ascii_tables) (env_of upper_provider)
       (lit "<html><body>Hello world</body></html>") (lit " JA ")
     = Ok (lit "<html><body>Hello world</body></html>").
Proof.
  assert (H : ~ In (lower (U := ascii_tables)
                      (strip (U := ascii_tables) (lit " JA ")))
                   (map fst LANG_MAP)).
  { apply dict_get_none. vm_compute. reflexivity. }
  split; [exact H|].
  exact (proj2 (@unknown_language_identity ascii_tables
                  (env_of upper_provider)
                  (lit "<html><body>Hello world</body></html>") _ H)).
Defined.

(* ================================================================== *)
(** * The batch translation client *)
(* ================================================================== *)

Section BatchClient.
Context {U : UnicodeData}.

Lemma collect_length (out : json) (texts : list str) :
  forall i l, collect out texts i = Ok l -> length l = length texts.
Proof.
  induction texts as [|t ts IH]; intros i l H; simpl in H.
  - now inversion H.
  - destruct (json_index out i) as [entry|]; simpl in H; [|discriminate].
    destruct (json_get entry (lit "text") (JStr t)) as [v|]; simpl in H;
      [|discriminate].
    destruct (collect out ts (S i)) as [rest|] eqn:Hc; simpl in H;
      [|discriminate].
    inversion H; subst; simpl. f_equal. eapply IH; eauto.
Qed.

(** The result has the length of the input, whatever the provider does. *)
Lemma deepl_batch_length (e : env) (texts : list str) (lang : str) :
  length (_deepl_batch e texts lang) = length texts.
Proof.
  assert (Hsame : length (map JStr texts) = length texts) by apply length_map.
  unfold _deepl_batch.
  destruct texts as [|t ts]; [reflexivity|].
  destruct (DEEPL_API_KEY e); [exact Hsame|].
  destruct (DEEPL_URL e); [|exact Hsame].
  destruct (str_eqb _ _); [exact Hsame|].
  destruct (provider e _ _ _) as [answer|]; [|exact Hsame].
  destruct (json_get answer _ _) as [out|]; cbn [bind]; [|exact Hsame].
  destruct (collect out (t :: ts) 0) as [l|] eqn:Hc; [|exact Hsame].
  now apply collect_length in Hc.
Qed.

(** Reading the texts off a list of entries. *)
Lemma collect_items (items : list json) (texts : list str) :
  forall i,
    i <= length items ->
    (Nat.leb (i + length texts) (length items)
     && forallb is_object (firstn (length texts) (skipn i items)) = true ->
     exists l,
       collect (JArr items) texts i = Ok l
       /\ forall k t, nth_error texts k = Some t ->
            nth_error l k
            = Some (match nth_error items (i + k) with
                    | Some (JObj entry) =>
                        or_default (dict_get entry (lit "text")) (JStr t)
                    | _ => JStr t
                    end))
    /\ (Nat.leb (i + length texts) (length items)
        && forallb is_object (firstn (length texts) (skipn i items)) = false ->
        exists ex, collect (JArr items) texts i = Raised ex).
Proof.
  induction texts as [|t ts IH]; intros i Hi.
  - split.
    + intros _. exists []. split; [reflexivity|]. intros [|k] t; discriminate.
    + simpl. rewrite Nat.add_0_r. intros H.
      apply andb_false_iff in H as [H|H]; [|discriminate].
      apply Nat.leb_gt in H. lia.
  - cbn [collect json_index length].
    destruct (nth_error items i) as [entry|] eqn:Hn.
    2:{ apply nth_error_None in Hn. split.
        - intros H. apply andb_true_iff in H as [H _].
          apply Nat.leb_le in H. lia.
        - intros _. eexists. reflexivity. }
    assert (Hlt : i < length items) by (apply nth_error_Some; congruence).
    assert (Hskip : skipn i items = entry :: skipn (S i) items).
    { clear - Hn. revert i Hn. induction items as [|x items IH]; intros [|i] Hn;
        simpl in *; try discriminate.
      - now inversion Hn.
      - now apply IH. }
    rewrite Hskip. cbn [firstn forallb bind].
    destruct (IH (S i) ltac:(lia)) as [IHok IHbad].
    replace (i + S (length ts)) with (S i + length ts) by lia.
    destruct entry as [| | | | |entry];
      try (split; [intros H; apply andb_true_iff in H as [_ H]; discriminate
                  | intros _; eexists; reflexivity]).
    cbn [is_object andb json_get bind].
    split.
    + intros H. destruct (IHok H) as (l & Hl & Hnth).
      rewrite Hl. eexists. split; [reflexivity|].
      intros [|k] t' Hk; simpl in Hk.
      * inversion Hk; subst. simpl. rewrite Nat.add_0_r, Hn.
        now destruct (dict_get entry (lit "text")).
      * simpl. rewrite (Hnth _ _ Hk).
        now replace (i + S k) with (S i + k) by lia.
    + intros H. destruct (IHbad H) as (ex & Hex). rewrite Hex.
      eexists. reflexivity.
Qed.

(** Only a list can be read by position into a list of entries. *)
Lemma collect_not_list (out : json) (t : str) (ts : list str) (i : nat) :
  (forall items, out <> JArr items) ->
  exists ex, collect out (t :: ts) i = Raised ex.
Proof.
  intros H. destruct out as [| | |s|items|fields]; simpl;
    try (eexists; reflexivity).
  - destruct (nth_error s i); simpl; eexists; reflexivity.
  - exfalso. now apply (H items).
Qed.

(** The client on its one path to the provider. *)
Lemma deepl_batch_call (e : env) (t : str) (ts : list str) (lang : str) :
  DEEPL_API_KEY e <> [] ->
  normalise_lang lang <> lit "en" ->
  _deepl_batch e (t :: ts) lang
  = match provider_answer e (t :: ts) lang with
    | None => map JStr (t :: ts)
    | Some answer =>
        match (out <- json_get answer (lit "translations") (JArr []) ;;
               collect out (t :: ts) 0) with
        | Ok translated => translated
        | Raised _ => map JStr (t :: ts)
        end
    end.
Proof.
  intros Hk Hl. unfold _deepl_batch, provider_answer, DEEPL_URL.
  destruct (DEEPL_API_KEY e) as [|c key]; [congruence|].
  apply str_eqb_neq in Hl. rewrite Hl. reflexivity.
Qed.

Lemma deepl_batch_identity (e : env) (texts : list str) (lang : str) :
  texts = [] \/ normalise_lang lang = lit "en" \/ DEEPL_API_KEY e = [] ->
  _deepl_batch e texts lang = map JStr texts.
Proof.
  unfold _deepl_batch, DEEPL_URL. intros [H|[H|H]].
  - now subst.
  - rewrite H, str_eqb_refl. destruct texts; [reflexivity|].
    destruct (DEEPL_API_KEY e); reflexivity.
  - rewrite H. now destruct texts.
Qed.

Lemma deepl_batch_fail_open (e : env) (texts : list str) (lang : str) :
  provider_answer e texts lang = None ->
  _deepl_batch e texts lang = map JStr texts.
Proof.
  intros H. destruct texts as [|t ts]; [reflexivity|].
  destruct (DEEPL_API_KEY e) as [|c key] eqn:Hk;
    [apply deepl_batch_identity; auto|].
  destruct (str_eqb (normalise_lang lang) (lit "en")) eqn:Hl.
  - apply str_eqb_eq in Hl. apply deepl_batch_identity; auto.
  - apply str_eqb_neq in Hl. rewrite deepl_batch_call, H; congruence.
Qed.

Lemma deepl_batch_unusable (e : env) (texts : list str) (lang : str)
    (answer : json) :
  provider_answer e texts lang = Some answer ->
  answer_usable answer (length texts) = false ->
  _deepl_batch e texts lang = map JStr texts.
Proof.
  intros H Hu. destruct texts as [|t ts]; [reflexivity|].
  destruct (DEEPL_API_KEY e) as [|c key] eqn:Hk;
    [apply deepl_batch_identity; auto|].
  destruct (str_eqb (normalise_lang lang) (lit "en")) eqn:Hl.
  { apply str_eqb_eq in Hl. apply deepl_batch_identity; auto. }
  apply str_eqb_neq in Hl. rewrite deepl_batch_call, H by congruence.
  destruct answer as [| | | | |fields]; try reflexivity.
  cbn [json_get bind]. unfold answer_usable in Hu.
  destruct (dict_get fields (lit "translations")) as [out|].
  - destruct out as [| | |s|items|fs];
      try (destruct (collect_not_list t ts 0 (out := JNull)) as [ex ->];
           [congruence | reflexivity]);
      try (edestruct (@collect_not_list) as [ex ->];
           [| reflexivity]; congruence).
    destruct (collect_items items (t :: ts) (i := 0) ltac:(lia)) as [_ Hbad].
    destruct (Hbad Hu) as [ex ->]. reflexivity.
  - destruct (collect_items [] (t :: ts) (i := 0) ltac:(lia)) as [_ Hbad].
    destruct (Hbad eq_refl) as [ex ->]. reflexivity.
Qed.

Lemma deepl_batch_usable (e : env) (texts : list str) (lang : str)
    (answer : json) (i : nat) (t : str) :
  DEEPL_API_KEY e <> [] ->
  normalise_lang lang <> lit "en" ->
  provider_answer e texts lang = Some answer ->
  answer_usable answer (length texts) = true ->
  nth_error texts i = Some t ->
  nth_error (_deepl_batch e texts lang) i = Some (answer_text answer i t).
Proof.
  intros Hk Hl H Hu Hi. destruct texts as [|t0 ts]; [now destruct i|].
  rewrite deepl_batch_call, H by assumption.
  unfold answer_usable in Hu. unfold answer_text.
  destruct answer as [| | | | |fields]; try discriminate.
  cbn [json_get bind].
  destruct (dict_get fields (lit "translations")) as [out|]; [|discriminate].
  destruct out as [| | | |items|]; try discriminate.
  destruct (collect_items items (t0 :: ts) (i := 0) ltac:(lia)) as [Hok _].
  destruct (Hok Hu) as (l & -> & Hnth).
  now rewrite (Hnth _ _ Hi).
Qed.

(** Element by element: the input text, or what a usable answer holds for
    it. *)
Lemma deepl_batch_elements (e : env) (texts : list str) (lang : str)
    (i : nat) (t : str) :
  nth_error texts i = Some t ->
  nth_error (_deepl_batch e texts lang) i = Some (JStr t)
  \/ exists answer,
       provider_answer e texts lang = Some answer
       /\ answer_usable answer (length texts) = true
       /\ nth_error (_deepl_batch e texts lang) i
          = Some (answer_text answer i t).
Proof.
  intros Hi.
  assert (Hid : _deepl_batch e texts lang = map JStr texts ->
                nth_error (_deepl_batch e texts lang) i = Some (JStr t)).
  { intros ->. now rewrite nth_error_map, Hi. }
  destruct (DEEPL_API_KEY e) as [|c key] eqn:Hk;
    [left; apply Hid, deepl_batch_identity; auto|].
  destruct (str_eqb (normalise_lang lang) (lit "en")) eqn:Hl.
  { apply str_eqb_eq in Hl. left; apply Hid, deepl_batch_identity; auto. }
  apply str_eqb_neq in Hl.
  destruct (provider_answer e texts lang) as [answer|] eqn:Ha;
    [|left; now apply Hid, deepl_batch_fail_open].
  destruct (answer_usable answer (length texts)) eqn:Hu;
    [|left; eapply Hid, deepl_batch_unusable; eauto].
  right. exists answer. repeat split; auto.
  eapply deepl_batch_usable; eauto. congruence.
Qed.

End BatchClient.

(** C3 as stated fails on a malformed answer the client does not detect:
    the text of the one entry is null, and the client returns it in place
    of the input. *)
Lemma deepl_batch_keeps_malformed_text :
  provider_answer (U := ascii_tables) (env_of (constant_provider JNull))
    [lit "Hello"] (lit "fr")
  = Some (JObj [(lit "translations", JArr [JObj [(lit "text", JNull)]])])
  /\ spec_well_formed_answer
       (JObj [(lit "translations", JArr [JObj [(lit "text", JNull)]])])
     = false
  /\ _deepl_batch (U := ascii_tables) (env_of (constant_provider JNull))
       [lit "Hello"] (lit "fr")
     = [JNull]
  /\ _deepl_batch (U := ascii_tables) (env_of (constant_provider JNull))
       [lit "Hello"] (lit "fr")
     <> map JStr [lit "Hello"].
Proof.
  repeat split; try (vm_compute; reflexivity).
  vm_compute. discriminate.
Qed.

(** C3, amended. The batch client returns its input unchanged when the
    list is empty, the language normalizes to the base language or no
    credential is configured; it returns its input unchanged when the call
    fails, or when the answer is not an object whose [translations] entry is
    a list of at least as many items as texts, the first of them objects;
    otherwise element [i] is what entry [i] holds under [text], whatever its
    type, or input element [i] when it holds nothing.  In every case the
    result has the length and the order of the input. *)
Theorem deepl_batch_contract (U : UnicodeData) (e : env) (texts : list str)
    (lang : str) :
  (texts = [] \/ normalise_lang lang = lit "en" \/ DEEPL_API_KEY e = [] ->
   _deepl_batch e texts lang = map JStr texts)
  /\ (provider_answer e texts lang = None ->
      _deepl_batch e texts lang = map JStr texts)
  /\ (forall answer,
        provider_answer e texts lang = Some answer ->
        answer_usable answer (length texts) = false ->
        _deepl_batch e texts lang = map JStr texts)
  /\ (forall answer i t,
        DEEPL_API_KEY e <> [] ->
        normalise_lang lang <> lit "en" ->
        provider_answer e texts lang = Some answer ->
        answer_usable answer (length texts) = true ->
        nth_error texts i = Some t ->
        nth_error (_deepl_batch e texts lang) i
        = Some (answer_text answer i t))
  /\ length (_deepl_batch e texts lang) = length texts.
Proof.
  split; [apply deepl_batch_identity|].
  split; [apply deepl_batch_fail_open|].
  split; [apply deepl_batch_unusable|].
  split; [|apply deepl_batch_length].
  intros answer i t. apply deepl_batch_usable.
Qed.

Lemma deepl_batch_contract_witness :
  nth_error
    (_deepl_batch (U := ascii_tables) (env_of upper_provider)
       [lit "Hello"; lit "More House"] (lit "fr")) 1
  = Some (JStr (lit "MORE HOUSE"))
  /\ _deepl_batch (U := ascii_tables) (env_of failing_provider)
       [lit "Hello"; lit "More House"] (lit "fr")
     = [JStr (lit "Hello"); JStr (lit "More House")].
Proof.
  split.
  - refine (proj1 (proj2 (proj2 (proj2
              (@deepl_batch_contract ascii_tables (env_of upper_provider)
                 [lit "Hello"; lit "More House"] (lit "fr")))))
              (JObj [(lit "translations",
                      JArr [JObj [(lit "text", JStr (lit "HELLO"))];
                            JObj [(lit "text", JStr (lit "MORE HOUSE"))]])])
              1 (lit "More House") _ _ _ _ _);
      first [discriminate | reflexivity].
  - refine (proj1 (proj2
              (@deepl_batch_contract ascii_tables (env_of failing_provider)
                 [lit "Hello"; lit "More House"] (lit "fr"))) _).
    reflexivity.
Defined.

(* ================================================================== *)
(** * The skip classifier *)
(* ================================================================== *)

Section Quantifiers.
Context {U : UnicodeData}.
Variable A : Type.

(** A greedy quantifier succeeds as soon as some admissible number of
    characters lets the continuation succeed. *)
Lemma rep_greedy_complete (cs : cset) (s : str) :
  forall min prev off (k : kont A) n,
    min <= n -> n <= length s ->
    forallb (in_cset cs) (firstn n s) = true ->
    k (after prev s n) (skipn n s) (off + n) <> None ->
    rep_greedy cs min prev s off k <> None.
Proof.
  induction s as [|c s IH]; intros min prev off k n Hmin Hlen Hall Hk.
  - simpl in Hlen. assert (n = 0) by lia; subst. assert (min = 0) by lia; subst.
    simpl in *. now rewrite Nat.add_0_r in Hk.
  - destruct n as [|n].
    + assert (min = 0) by lia; subst. simpl in Hk. rewrite Nat.add_0_r in Hk.
      simpl. destruct (in_cset cs c); [|assumption].
      destruct (rep_greedy cs 0 (Some c) s (S off) k); [discriminate|assumption].
    + simpl in Hall, Hlen, Hk. apply andb_true_iff in Hall as [Hc Hall].
      simpl. rewrite Hc. rewrite Nat.add_succ_r in Hk.
      assert (Hrec : rep_greedy cs (pred min) (Some c) s (S off) k <> None).
      { apply (IH _ _ _ _ n); auto; lia. }
      destruct (rep_greedy cs (pred min) (Some c) s (S off) k);
        [discriminate|congruence].
Qed.

End Quantifiers.

Section SkipClassifier.
Context {U : UnicodeData}.

Lemma skipn_nil_length (A : Type) (n : nat) (l : list A) :
  n <= length l -> skipn n l = [] -> n = length l.
Proof.
  intros Hn H. apply (f_equal (@length A)) in H.
  rewrite length_skipn in H. simpl in H. lia.
Qed.

(** [re.fullmatch] of [cs+]: a non-empty string of characters of [cs]. *)
Lemma fullmatch_plus (cs : cset) (s : str) :
  re_fullmatch false (Rep Greedy 1 cs) s = true
  <-> s <> [] /\ forallb (in_cset cs) s = true.
Proof.
  unfold re_fullmatch. cbn [m]. split.
  - destruct (rep_greedy _ _ _ _ _ _) as [x|] eqn:H; [|discriminate].
    intros _. apply rep_greedy_sound in H as (n & Hmin & Hlen & Hall & Hk).
    destruct (skipn n s) eqn:Hs; [|discriminate].
    apply skipn_nil_length in Hs; [subst n|assumption].
    rewrite firstn_all in Hall. split; [|assumption].
    intros ->. simpl in Hmin. lia.
  - intros [Hne Hall].
    assert (H : rep_greedy cs 1 None s 0
                  (fun _ s' _ => match s' with [] => Some tt | _ :: _ => None end)
                <> None).
    { apply (rep_greedy_complete _ _ _ _ _ (n := length s)).
      - destruct s; [congruence | simpl; lia].
      - lia.
      - now rewrite firstn_all.
      - rewrite skipn_all. discriminate. }
    destruct (rep_greedy _ _ _ _ _ _); [reflexivity | congruence].
Qed.

Lemma forallb_eq (A : Type) (f g : A -> bool) (l : list A) :
  (forall a, f a = g a) -> forallb f l = forallb g l.
Proof.
  intros H. induction l as [|a l IH]; simpl; [reflexivity|].
  now rewrite H, IH.
Qed.

Lemma forallb_firstn_skipn (A : Type) (f : A -> bool) (n : nat) (l : list A) :
  forallb f l = forallb f (firstn n l) && forallb f (skipn n l).
Proof. now rewrite <- forallb_app, firstn_skipn. Qed.

Lemma space_in_numeric (c : char) :
  in_cset (CSet false [ISpace]) c = true -> in_cset NUMERIC_SET c = true.
Proof.
  simpl. rewrite orb_false_r. intros ->. now rewrite !orb_true_r.
Qed.

(** [re.fullmatch] of the numeric pattern: a non-empty string of digits,
    the listed punctuation and whitespace. *)
Lemma fullmatch_numeric (s : str) :
  re_fullmatch false NUMERIC_RE s = true
  <-> s <> [] /\ forallb (in_cset NUMERIC_SET) s = true.
Proof.
  unfold re_fullmatch, NUMERIC_RE. cbn [m Cat]. split.
  - destruct (rep_greedy _ _ _ _ _ _) as [x|] eqn:H; [|discriminate].
    intros _.
    apply rep_greedy_sound in H as (n1 & _ & Hl1 & Ha1 & H).
    apply rep_greedy_sound in H as (n2 & Hm2 & Hl2 & Ha2 & H).
    apply rep_greedy_sound in H as (n3 & _ & Hl3 & Ha3 & H).
    destruct (skipn n3 _) eqn:Hs; [|discriminate].
    apply skipn_nil_length in Hs; [|assumption].
    rewrite Hs, firstn_all in Ha3.
    rewrite length_skipn in Hl2. split.
    + intros ->. simpl in Hl2. lia.
    + rewrite (forallb_firstn_skipn _ n1 s).
      rewrite (forallb_firstn_skipn _ n2 (skipn n1 s)).
      rewrite Ha2. rewrite !andb_true_iff. repeat split.
      * rewrite forallb_forall in *. intros c Hc. now apply space_in_numeric, Ha1.
      * rewrite forallb_forall in *. intros c Hc. now apply space_in_numeric, Ha3.
  - intros [Hne Hall].
    match goal with
    | |- match ?t with _ => _ end = true =>
        assert (H : t <> None); [|destruct t; [reflexivity | congruence]]
    end.
    apply (rep_greedy_complete _ _ _ _ _ (n := 0)); simpl; auto; try lia.
    apply (rep_greedy_complete _ _ _ _ _ (n := length s)).
    + destruct s; [congruence | simpl; lia].
    + lia.
    + now rewrite firstn_all.
    + rewrite skipn_all.
      apply (rep_greedy_complete _ _ _ _ _ (n := 0)); simpl; auto.
      discriminate.
Qed.

Lemma underscore_not_alnum (c : char) :
  char_eqb c (ch "_") = true -> isalnum c = false.
Proof.
  unfold char_eqb. intros H. apply N.eqb_eq in H. subst. reflexivity.
Qed.

Lemma in_nonword_set (c : char) :
  in_cset (CSet false [INotWord; IChar (ch "_")]) c = spec_nonword c.
Proof.
  unfold spec_nonword. cbn [in_cset existsb in_item xorb]. unfold isword.
  rewrite orb_false_r.
  replace (char_eqb (ch "_") c) with (char_eqb c (ch "_")) by apply N.eqb_sym.
  destruct (char_eqb c (ch "_")) eqn:E.
  - rewrite (underscore_not_alnum _ E). reflexivity.
  - now rewrite !orb_false_r.
Qed.

Lemma in_numeric_set (c : char) : in_cset NUMERIC_SET c = spec_numeric c.
Proof.
  unfold spec_numeric, NUMERIC_SET. cbn [in_cset existsb in_item xorb].
  unfold char_eqb. rewrite !(N.eqb_sym c).
  destruct (isdecimal c), (isspace c);
    repeat match goal with
           | |- context [N.eqb ?a c] => destruct (N.eqb a c)
           end; reflexivity.
Qed.

(** Whitespace is neither letter nor digit. *)
Lemma space_not_alnum (c : char) : isspace c = true -> isalnum c = false.
Proof.
  unfold isspace, isalnum. destruct (is_ascii c).
  - unfold ascii_isspace, ascii_isalnum, between.
    repeat match goal with
           | |- context [N.leb ?a ?b] => destruct (N.leb_spec a b)
           end; simpl; intros Hsp; try reflexivity; try discriminate; lia.
  - apply uni_space_not_alnum.
Qed.

Lemma lstrip_incl (s : str) (c : char) : In c (lstrip s) -> In c s.
Proof.
  induction s as [|x s IH]; simpl; [tauto|].
  destruct (isspace x); simpl; tauto.
Qed.

Lemma lstrip_split (s : str) (c : char) :
  In c s -> isspace c = true \/ In c (lstrip s).
Proof.
  induction s as [|x s IH]; simpl; [tauto|].
  destruct (isspace x) eqn:E; simpl; [|tauto].
  intros [->|H]; auto.
Qed.

Lemma strip_incl (s : str) (c : char) : In c (strip s) -> In c s.
Proof.
  unfold strip, rstrip. intros H.
  apply in_rev, lstrip_incl in H. rewrite <- in_rev in H.
  now apply lstrip_incl.
Qed.

Lemma strip_split (s : str) (c : char) :
  In c s -> isspace c = true \/ In c (strip s).
Proof.
  unfold strip, rstrip. intros H.
  destruct (lstrip_split _ _ H) as [|H1]; [auto|].
  rewrite in_rev in H1. destruct (lstrip_split _ _ H1) as [|H2]; [auto|].
  right. now rewrite <- in_rev.
Qed.

(** Trimming whitespace does not change whether a text has a letter or a
    digit. *)
Lemma nonword_strip (s : str) :
  forallb spec_nonword (strip s) = forallb spec_nonword s.
Proof.
  apply eq_true_iff_eq. rewrite !forallb_forall. split; intros H c Hc.
  - destruct (strip_split _ _ Hc) as [Hs|Hs]; [|auto].
    unfold spec_nonword. now rewrite (space_not_alnum _ Hs).
  - apply H. now apply strip_incl.
Qed.

Lemma should_skip_text_iff (text : str) :
  should_skip_text text = true
  <-> forallb isspace text = true
      \/ length (strip text) <= 1
      \/ forallb spec_nonword (strip text) = true
      \/ forallb spec_numeric text = true.
Proof.
  rewrite nonword_strip.
  rewrite <- (@forallb_eq _ _ _ text in_nonword_set).
  rewrite <- (@forallb_eq _ _ _ text in_numeric_set).
  unfold should_skip_text.
  destruct text as [|c t]; [simpl; tauto|].
  destruct (strip (c :: t)) as [|x l] eqn:Hs.
  { split; [intros _; left; now apply strip_nil | reflexivity]. }
  assert (Hblank : forallb isspace (c :: t) <> true).
  { intros H. apply strip_nil in H. congruence. }
  destruct (Nat.leb (length (x :: l)) 1) eqn:Hlen.
  { apply Nat.leb_le in Hlen. split; [auto | reflexivity]. }
  apply Nat.leb_gt in Hlen.
  pose proof (fullmatch_plus (CSet false [INotWord; IChar (ch "_")]) (c :: t))
    as H1.
  pose proof (fullmatch_numeric (c :: t)) as H2.
  fold NONWORD_RE in H1.
  destruct (re_fullmatch false NONWORD_RE (c :: t)).
  { split; [intros _|reflexivity]. right; right; left. now apply H1. }
  destruct (re_fullmatch false NUMERIC_RE (c :: t)).
  { split; [intros _|reflexivity]. right; right; right. now apply H2. }
  split; [discriminate|].
  intros [H|[H|[H|H]]].
  - contradiction.
  - lia.
  - apply H1. split; [discriminate | assumption].
  - apply H2. split; [discriminate | assumption].
Qed.

End SkipClassifier.

(** C8. [should_skip_text] is true exactly for a text that is empty or
    all whitespace, or has at most one character once trimmed, or whose
    trimmed text has only non-word or punctuation characters, or that is made
    of digits, the punctuation [. , : - + ( ) %] and whitespace alone; it is
    true for [12.5%] and false for [Hello]. *)
Theorem should_skip_text_spec (U : UnicodeData) :
  (forall text,
     should_skip_text text = true
     <-> forallb isspace text = true
         \/ length (strip text) <= 1
         \/ forallb spec_nonword (strip text) = true
         \/ forallb spec_numeric text = true)
  /\ should_skip_text (lit "12.5%") = true
  /\ should_skip_text (lit "Hello") = false.
Proof.
  split; [apply should_skip_text_iff|].
  split; vm_compute; reflexivity.
Qed.

(* ================================================================== *)
(** * The loop over the parts *)
(* ================================================================== *)

Section Scan.
Context {U : UnicodeData}.

Lemma scan_parts_snoc (l : list str) (p : str) :
  scan_parts (l ++ [p]) = scan_step (scan_parts l) p.
Proof. unfold scan_parts. now rewrite fold_left_app. Qed.

Lemma scan_step_kept (st : scan) (p : str) :
  queued st p = false ->
  out (scan_step st p) = out st ++ [JStr p]
  /\ jobs (scan_step st p) = jobs st
  /\ jobs_idx (scan_step st p) = jobs_idx st
  /\ jobs_brandbags (scan_step st p) = jobs_brandbags st
  /\ jobs_brackbags (scan_step st p) = jobs_brackbags st.
Proof.
  unfold queued, scan_step. intros H.
  destruct (startswith (lit "<") p); [simpl; auto|].
  destruct (in_script st || in_style st); [simpl; auto|].
  destruct (should_skip_text p); [simpl; auto | discriminate].
Qed.

Lemma scan_step_queued (st : scan) (p : str) :
  queued st p = true ->
  out (scan_step st p) = out st ++ [JStr []]
  /\ jobs (scan_step st p)
     = jobs st ++ [fst (_protect_brackets (fst (_protect_brands p)))]
  /\ jobs_idx (scan_step st p) = jobs_idx st ++ [length (out st)]
  /\ jobs_brandbags (scan_step st p)
     = jobs_brandbags st ++ [snd (_protect_brands p)]
  /\ jobs_brackbags (scan_step st p)
     = jobs_brackbags st ++ [snd (_protect_brackets (fst (_protect_brands p)))]
  /\ in_script (scan_step st p) = in_script st
  /\ in_style (scan_step st p) = in_style st.
Proof.
  unfold queued, scan_step. intros H.
  destruct (startswith (lit "<") p); [discriminate|].
  destruct (in_script st || in_style st); [discriminate|].
  destruct (should_skip_text p); [discriminate|].
  destruct (_protect_brands p) as [s1 brandbag]. cbn [fst snd].
  destruct (_protect_brackets s1) as [s2 brackbag]. simpl.
  repeat split; reflexivity.
Qed.

(** The flags after one turn: a closing tag clears, else an opening tag
    sets, else the flag stays. *)
Lemma scan_step_script (st : scan) (p : str) :
  in_script (scan_step st p)
  = if closes (lit "script") p then false
    else if opens (lit "script") p then true else in_script st.
Proof.
  unfold closes, opens, scan_step.
  destruct (startswith (lit "<") p); simpl.
  - destruct (is_closing (lit "script") p), (is_opening (lit "script") p);
      reflexivity.
  - destruct (in_script st || in_style st); [reflexivity|].
    destruct (should_skip_text p); [reflexivity|].
    destruct (_protect_brands p) as [s1 brandbag].
    destruct (_protect_brackets s1) as [s2 brackbag]. reflexivity.
Qed.

Lemma scan_step_style (st : scan) (p : str) :
  in_style (scan_step st p)
  = if closes (lit "style") p then false
    else if opens (lit "style") p then true else in_style st.
Proof.
  unfold closes, opens, scan_step.
  destruct (startswith (lit "<") p); simpl.
  - destruct (is_closing (lit "style") p), (is_opening (lit "style") p);
      reflexivity.
  - destruct (in_script st || in_style st); [reflexivity|].
    destruct (should_skip_text p); [reflexivity|].
    destruct (_protect_brands p) as [s1 brandbag].
    destruct (_protect_brackets s1) as [s2 brackbag]. reflexivity.
Qed.

(** A flag that is updated this way is set exactly inside the element. *)
Lemma flag_inside (tagname : str) (flag : scan -> bool) :
  flag scan_init = false ->
  (forall st p,
     flag (scan_step st p)
     = if closes tagname p then false
       else if opens tagname p then true else flag st) ->
  forall l, flag (scan_parts l) = true <-> spec_inside tagname l (length l).
Proof.
  intros Hinit Hstep l. induction l as [|p l IH] using rev_ind.
  - unfold scan_parts; simpl. rewrite Hinit. split; [discriminate|].
    intros (j & q & Hj & _). lia.
  - rewrite scan_parts_snoc, Hstep, length_app. simpl.
    replace (length l + 1) with (S (length l)) by lia.
    destruct (closes tagname p) eqn:Hc.
    + split; [discriminate|]. intros (j & q & Hj & _ & _ & Hno).
      specialize (Hno (length l) p ltac:(lia)).
      rewrite nth_error_app2, Nat.sub_diag in Hno by lia.
      specialize (Hno eq_refl). congruence.
    + destruct (opens tagname p) eqn:Ho.
      * split; [intros _|reflexivity].
        exists (length l), p. split; [lia|].
        rewrite nth_error_app2, Nat.sub_diag by lia.
        repeat split; auto.
        intros k q Hk Hq. assert (k = length l) by lia; subst k.
        rewrite nth_error_app2, Nat.sub_diag in Hq by lia.
        inversion Hq; subst; assumption.
      * rewrite IH. split.
        -- intros (j & q & Hj & Hq & Hop & Hno).
           exists j, q. split; [lia|]. rewrite nth_error_app1 by lia.
           repeat split; auto.
           intros k r Hk Hr.
           destruct (Nat.eq_dec k (length l)) as [->|Hne].
           ++ rewrite nth_error_app2, Nat.sub_diag in Hr by lia.
              inversion Hr; subst; assumption.
           ++ rewrite nth_error_app1 in Hr by lia. apply (Hno k); auto; lia.
        -- intros (j & q & Hj & Hq & Hop & Hno).
           destruct (Nat.eq_dec j (length l)) as [->|Hne].
           ++ rewrite nth_error_app2, Nat.sub_diag in Hq by lia.
              inversion Hq; subst; congruence.
           ++ exists j, q. rewrite nth_error_app1 in Hq by lia.
              split; [lia|]. repeat split; auto.
              intros k r Hk Hr. apply (Hno k); [lia|].
              rewrite nth_error_app1 by lia. assumption.
Qed.

Lemma in_script_inside (l : list str) :
  in_script (scan_parts l) = true <-> spec_inside (lit "script") l (length l).
Proof. apply flag_inside; [reflexivity | apply scan_step_script]. Qed.

Lemma in_style_inside (l : list str) :
  in_style (scan_parts l) = true <-> spec_inside (lit "style") l (length l).
Proof. apply flag_inside; [reflexivity | apply scan_step_style]. Qed.

(** Being inside depends on the earlier tokens only. *)
Lemma spec_inside_prefix (tagname : str) (l l' : list str) :
  spec_inside tagname (l ++ l') (length l) <-> spec_inside tagname l (length l).
Proof.
  split; intros (j & q & Hj & Hq & Hop & Hno); exists j, q.
  - rewrite nth_error_app1 in Hq by lia. repeat split; auto.
    intros k r Hk Hr. apply (Hno k); [lia|]. now rewrite nth_error_app1 by lia.
  - rewrite nth_error_app1 by lia. repeat split; auto.
    intros k r Hk Hr. rewrite nth_error_app1 in Hr by lia. now apply (Hno k).
Qed.

Lemma firstn_snoc_le (A : Type) (l : list A) (x : A) (k : nat) :
  k <= length l -> firstn k (l ++ [x]) = firstn k l.
Proof.
  intros H. rewrite firstn_app.
  replace (k - length l) with 0 by lia. simpl. apply List.app_nil_r.
Qed.

Lemma scan_parts_ok (l : list str) : scan_ok l (scan_parts l).
Proof.
  induction l as [|p l IH] using rev_ind.
  - constructor; simpl; auto; try tauto.
    intros [|k] p; discriminate.
  - rewrite scan_parts_snoc. destruct IH as [Hlen Hj Hbr Hbk Hstr Hidx Hkept].
    assert (Hold : forall k q, k < length l ->
                     nth_error (l ++ [p]) k = Some q -> nth_error l k = Some q).
    { intros k q Hk. now rewrite nth_error_app1 by lia. }
    destruct (queued (scan_parts l) p) eqn:Hq.
    + destruct (scan_step_queued _ _ Hq) as (Ho & Hjb & Hi & Hb1 & Hb2 & _).
      constructor; rewrite ?Ho, ?Hjb, ?Hi, ?Hb1, ?Hb2, ?length_app; simpl;
        try lia.
      * rewrite forallb_app, Hstr. reflexivity.
      * intros k Hk. apply in_app_or in Hk as [Hk|[<-|[]]].
        -- destruct (Hidx k Hk) as (q & Hq1 & Hq2).
           assert (k < length l) by (apply nth_error_Some; congruence).
           exists q. rewrite nth_error_app1, firstn_snoc_le by lia. auto.
        -- exists p. rewrite Hlen, nth_error_app2, Nat.sub_diag by lia.
           rewrite firstn_app, firstn_all, Nat.sub_diag. simpl.
           rewrite List.app_nil_r. auto.
      * intros k q Hk Hnot.
        assert (k < length l).
        { assert (k < length (l ++ [p])) by (apply nth_error_Some; congruence).
          rewrite length_app in *; simpl in *.
          destruct (Nat.eq_dec k (length l)); [|lia].
          exfalso. apply Hnot, in_or_app. right. left. lia. }
        rewrite nth_error_app1 by lia. apply Hkept; [auto|].
        intros Hin. apply Hnot, in_or_app. auto.
    + destruct (scan_step_kept _ _ Hq) as (Ho & Hjb & Hi & Hb1 & Hb2).
      constructor; rewrite ?Ho, ?Hjb, ?Hi, ?Hb1, ?Hb2, ?length_app; simpl;
        try lia.
      * rewrite forallb_app, Hstr. reflexivity.
      * intros k Hk. destruct (Hidx k Hk) as (q & Hq1 & Hq2).
        assert (k < length l) by (apply nth_error_Some; congruence).
        exists q. rewrite nth_error_app1, firstn_snoc_le by lia. auto.
      * intros k q Hk Hnot.
        destruct (Nat.eq_dec k (length l)) as [->|Hne].
        -- rewrite nth_error_app2, Nat.sub_diag in Hk by lia.
           rewrite nth_error_app2, Hlen, Nat.sub_diag by lia.
           inversion Hk; subst. reflexivity.
        -- assert (k < length (l ++ [p])) by (apply nth_error_Some; congruence).
           rewrite length_app in *; simpl in *.
           rewrite nth_error_app1 by lia. apply Hkept; auto.
           apply Hold; auto; lia.
Qed.

End Scan.

(* ================================================================== *)
(** * Writing the translations back *)
(* ================================================================== *)

Section Splice.
Context {U : UnicodeData}.

Lemma list_set_inv (A : Type) (l : list A) :
  forall i v l',
    list_set l i v = Ok l' ->
    i < length l /\ length l' = length l /\ nth_error l' i = Some v
    /\ forall k, k <> i -> nth_error l' k = nth_error l k.
Proof.
  induction l as [|a l IH]; intros i v l' H; simpl in H; [discriminate|].
  destruct i as [|i].
  - inversion H; subst; simpl. repeat split; auto; try lia.
    intros [|k] Hk; [congruence | reflexivity].
  - destruct (list_set l i v) as [l''|] eqn:E; simpl in H; [|discriminate].
    inversion H; subst; simpl.
    destruct (IH _ _ _ E) as (Hi & Hlen & Hnth & Hother).
    repeat split; auto; try lia.
    intros [|k] Hk; [reflexivity | apply Hother; lia].
Qed.

Lemma list_set_total (A : Type) (l : list A) :
  forall i v, i < length l -> exists l', list_set l i v = Ok l'.
Proof.
  induction l as [|a l IH]; intros i v Hi; simpl in Hi; [lia|].
  destruct i as [|i]; simpl; [eauto|].
  destruct (IH i v ltac:(lia)) as [l' ->]. simpl. eauto.
Qed.

Lemma list_index_total (A : Type) (l : list A) (i : nat) :
  i < length l -> exists a, list_index l i = Ok a /\ nth_error l i = Some a.
Proof.
  intros H. unfold list_index.
  destruct (nth_error l i) eqn:E; [eauto|].
  apply nth_error_None in E. lia.
Qed.

Lemma list_index_inv (A : Type) (l : list A) (i : nat) (a : A) :
  list_index l i = Ok a -> nth_error l i = Some a.
Proof.
  unfold list_index. destruct (nth_error l i); [|discriminate].
  now inversion 1.
Qed.

(** Writing back touches the queued positions only. *)
Lemma splice_elsewhere (st : scan) (translated : list json) :
  forall i out0 out1 k,
    splice st translated i out0 = Ok out1 ->
    ~ In k (jobs_idx st) ->
    nth_error out1 k = nth_error out0 k.
Proof.
  induction translated as [|s rest IH]; intros i out0 out1 k H Hk;
    simpl in H.
  - now inversion H.
  - destruct (list_index (jobs_brackbags st) i); simpl in H; [|discriminate].
    destruct (restore_value _restore_brackets s a) as [s1|]; simpl in H;
      [|discriminate].
    destruct (list_index (jobs_brandbags st) i); simpl in H; [|discriminate].
    destruct (restore_value _restore_brands s1 a0) as [s2|]; simpl in H;
      [|discriminate].
    destruct (list_index (jobs_idx st) i) as [j|] eqn:Hj; simpl in H;
      [|discriminate].
    destruct (list_set out0 j s2) as [out'|] eqn:Hset; simpl in H;
      [|discriminate].
    rewrite (IH _ _ _ _ H Hk).
    apply list_set_inv in Hset as (_ & _ & _ & Hother).
    apply Hother. intros ->. apply Hk.
    apply list_index_inv in Hj. eapply nth_error_In; eauto.
Qed.

Lemma restore_value_string (restore : str -> list str -> str) (v : json)
    (bag : list str) :
  is_string v = true ->
  exists s, restore_value restore v bag = Ok (JStr s).
Proof.
  destruct v; try discriminate. intros _.
  destruct bag; simpl; eauto.
Qed.

Lemma forallb_nth (A : Type) (f : A -> bool) (l : list A) :
  forallb f l = true <-> forall i a, nth_error l i = Some a -> f a = true.
Proof.
  rewrite forallb_forall. split.
  - intros H i a Hi. apply H. eapply nth_error_In; eauto.
  - intros H a Ha. apply In_nth_error in Ha as [i Hi]. eauto.
Qed.

Lemma list_set_strings (l l' : list json) (i : nat) (s : str) :
  list_set l i (JStr s) = Ok l' ->
  forallb is_string l = true -> forallb is_string l' = true.
Proof.
  intros H Hl. apply list_set_inv in H as (_ & _ & Hnth & Hother).
  rewrite forallb_nth in *. intros k a Hk.
  destruct (Nat.eq_dec k i) as [->|Hne].
  - rewrite Hnth in Hk. now inversion Hk.
  - rewrite Hother in Hk by assumption. eauto.
Qed.

(** Writing back succeeds when every translation is a string. *)
Lemma splice_total (st : scan) (translated : list json) :
  forall i out0,
    i + length translated <= length (jobs_idx st) ->
    length (jobs_brackbags st) = length (jobs_idx st) ->
    length (jobs_brandbags st) = length (jobs_idx st) ->
    (forall k, In k (jobs_idx st) -> k < length out0) ->
    forallb is_string translated = true ->
    forallb is_string out0 = true ->
    exists out1,
      splice st translated i out0 = Ok out1
      /\ forallb is_string out1 = true.
Proof.
  induction translated as [|s rest IH];
    intros i out0 Hlen Hbk Hbr Hidx Htr Hout; simpl in *.
  - eauto.
  - apply andb_true_iff in Htr as [Hs Hrest].
    destruct (list_index_total (jobs_brackbags st) (i := i) ltac:(lia))
      as (bk & -> & _).
    destruct (list_index_total (jobs_brandbags st) (i := i) ltac:(lia))
      as (br & -> & _).
    destruct (list_index_total (jobs_idx st) (i := i) ltac:(lia))
      as (j & -> & Hj).
    cbn [bind].
    destruct (restore_value_string _restore_brackets s bk Hs) as [s1 ->].
    cbn [bind].
    destruct (restore_value_string _restore_brands (JStr s1) br eq_refl)
      as [s2 ->].
    cbn [bind].
    assert (Hjlt : j < length out0) by (eapply Hidx, nth_error_In; eauto).
    destruct (list_set_total out0 (JStr s2) Hjlt) as [out' Hset].
    rewrite Hset. cbn [bind].
    pose proof (list_set_strings _ _ _ Hset Hout) as Hout'.
    apply list_set_inv in Hset as (_ & Hl & _ & _).
    apply IH; auto; try lia.
    intros k Hk. rewrite Hl. auto.
Qed.

Lemma join_total (l : list json) :
  forallb is_string l = true -> exists s, join l = Ok s.
Proof.
  induction l as [|v l IH]; simpl; [eauto|].
  intros H. apply andb_true_iff in H as [Hv Hl].
  destruct v; try discriminate.
  destruct (IH Hl) as [s0 ->]. simpl. eauto.
Qed.

(** A string of [out] stands in the joined document between the join of
    what is before it and the join of what is after it. *)
Lemma join_at (l : list json) :
  forall i p s,
    join l = Ok s -> nth_error l i = Some (JStr p) ->
    exists pre post,
      join (firstn i l) = Ok pre /\ join (skipn (S i) l) = Ok post
      /\ s = pre ++ p ++ post.
Proof.
  induction l as [|v l IH]; intros i p s Hj Hi; [now destruct i|].
  simpl in Hj. destruct v; try discriminate.
  destruct (join l) as [rest|] eqn:Hrest; simpl in Hj; [|discriminate].
  inversion Hj; subst; clear Hj.
  destruct i as [|i]; simpl in Hi.
  - inversion Hi; subst. exists [], rest. simpl. auto.
  - destruct (IH _ _ _ eq_refl Hi) as (pre & post & Hpre & Hpost & ->).
    exists (s0 ++ pre), post. simpl. rewrite Hpre. simpl.
    repeat split; auto. now rewrite <- app_assoc.
Qed.

Lemma usable_answer_text (answer : json) (n i : nat) (t : str) :
  spec_well_formed_answer answer = true ->
  answer_usable answer n = true ->
  i < n ->
  is_string (answer_text answer i t) = true.
Proof.
  unfold spec_well_formed_answer, answer_usable, answer_text.
  destruct answer as [| | | | |fields]; try discriminate.
  destruct (dict_get fields (lit "translations")) as [out|]; [|discriminate].
  destruct out as [| | | |items|]; try discriminate.
  intros Hwf Hu Hi. apply andb_true_iff in Hu as [Hn _].
  apply Nat.leb_le in Hn.
  destruct (nth_error items i) as [entry|] eqn:E; [|reflexivity].
  rewrite forallb_forall in Hwf.
  specialize (Hwf entry (nth_error_In _ _ E)).
  unfold spec_translation_entry in Hwf.
  destruct entry as [| | | | |ef]; try discriminate.
  destruct (dict_get ef (lit "text")) as [v|]; [|discriminate].
  destruct v; try discriminate. reflexivity.
Qed.

(** With a provider whose answers are well formed, the batch client
    returns strings. *)
Lemma deepl_batch_strings (e : env) (texts : list str) (lang : str) :
  (forall url data params answer,
     provider e url data params = Some answer ->
     spec_well_formed_answer answer = true) ->
  forallb is_string (_deepl_batch e texts lang) = true.
Proof.
  intros Hwf. apply forallb_nth. intros i v Hv.
  assert (Hi : i < length texts).
  { rewrite <- (deepl_batch_length e texts lang).
    apply nth_error_Some. congruence. }
  destruct (nth_error texts i) as [t|] eqn:Ht;
    [|apply nth_error_None in Ht; lia].
  destruct (deepl_batch_elements e _ lang _ Ht) as [H|(answer & Ha & Hu & H)];
    rewrite H in Hv; inversion Hv; subst; [reflexivity|].
  eapply usable_answer_text; eauto.
  unfold provider_answer in Ha. destruct (DEEPL_URL e); [|discriminate].
  eapply Hwf; eauto.
Qed.

Lemma scan_idx_bound (l : list str) (k : nat) :
  In k (jobs_idx (scan_parts l)) -> k < length (out (scan_parts l)).
Proof.
  intros H. destruct (scan_parts_ok l) as [Hlen _ _ _ _ Hidx _].
  destruct (Hidx k H) as (p & Hp & _).
  rewrite Hlen. apply nth_error_Some. congruence.
Qed.

Lemma spliced_total (e : env) (html lang : str) :
  forallb is_string
    (_deepl_batch e (jobs (scan_parts (re_split false TAG_RE html))) lang)
  = true ->
  exists out1,
    spliced e html lang = Ok out1 /\ forallb is_string out1 = true.
Proof.
  intros Hstr. unfold spliced.
  set (st := scan_parts (re_split false TAG_RE html)) in *.
  destruct (scan_parts_ok (re_split false TAG_RE html))
    as [Hlen Hj Hbr Hbk Hs Hidx Hkept]. fold st in Hlen, Hj, Hbr, Hbk, Hs.
  destruct (jobs st) as [|j js] eqn:Hjobs; [eauto|].
  apply splice_total; auto.
  - rewrite deepl_batch_length, <- Hj. simpl. lia.
  - intros k Hk. now apply scan_idx_bound.
Qed.

End Splice.

(* ================================================================== *)
(** * Script and style immunity *)
(* ================================================================== *)

Section Immunity.
Context {U : UnicodeData}.

(** Off the identity path the result is the post-processed join of the
    parts with the translations written back. *)
Lemma fragment_steps (e : env) (html lang res : str) :
  translate_html_fragment e html lang = Ok res ->
  res = html
  \/ exists outl html2,
       spliced e html (normalise_lang lang) = Ok outl
       /\ join outl = Ok html2
       /\ res = postprocess (normalise_lang lang) html2.
Proof.
  unfold translate_html_fragment.
  destruct (str_eqb _ _); [intros H; inversion H; subst; auto|].
  destruct html as [|c html]; [intros H; inversion H; subst; auto|].
  destruct (strip (c :: html)); [intros H; inversion H; subst; auto|].
  destruct (spliced e (c :: html) (normalise_lang lang)) as [outl|] eqn:Hs;
    simpl; [|discriminate].
  destruct (join outl) as [html2|] eqn:Hj; simpl; [|discriminate].
  intros H; inversion H; subst. right. exists outl, html2. auto.
Qed.

Lemma nth_error_split (A : Type) (l : list A) (i : nat) (a : A) :
  nth_error l i = Some a ->
  l = firstn i l ++ skipn i l /\ length (firstn i l) = i.
Proof.
  intros H. split; [now rewrite firstn_skipn|].
  apply firstn_length_le.
  assert (i < length l) by (apply nth_error_Some; congruence). lia.
Qed.

(** A part inside a script or a style element is not queued. *)
Lemma inside_not_queued (parts : list str) (i : nat) (p : str) :
  nth_error parts i = Some p ->
  spec_inside (lit "script") parts i \/ spec_inside (lit "style") parts i ->
  ~ In i (jobs_idx (scan_parts parts)).
Proof.
  intros Hp Hin Hjob.
  destruct (scan_parts_ok parts) as [_ _ _ _ _ Hidx _].
  destruct (Hidx i Hjob) as (q & Hq & Hqueued).
  destruct (nth_error_split _ _ Hp) as [Hparts Hlen].
  unfold queued in Hqueued.
  apply andb_true_iff in Hqueued as [Hqueued _].
  apply andb_true_iff in Hqueued as [_ Hflags].
  apply negb_true_iff, orb_false_iff in Hflags as [Hsc Hsy].
  assert (Hpre : forall tagname,
             spec_inside tagname parts i ->
             spec_inside tagname (firstn i parts) (length (firstn i parts))).
  { intros tagname H. apply (spec_inside_prefix _ _ (skipn i parts)).
    now rewrite firstn_skipn, Hlen. }
  destruct Hin as [Hin|Hin]; apply Hpre in Hin.
  - apply in_script_inside in Hin. congruence.
  - apply in_style_inside in Hin. congruence.
Qed.

Lemma spliced_keeps (e : env) (html lang : str) (i : nat) (p : str)
    (outl : list json) :
  nth_error (re_split false TAG_RE html) i = Some p ->
  ~ In i (jobs_idx (scan_parts (re_split false TAG_RE html))) ->
  spliced e html lang = Ok outl ->
  nth_error outl i = Some (JStr p).
Proof.
  intros Hp Hnot. unfold spliced.
  destruct (scan_parts_ok (re_split false TAG_RE html))
    as [_ _ _ _ _ _ Hkept].
  destruct (jobs _); intros H.
  - inversion H; subst. now apply Hkept.
  - erewrite splice_elsewhere by eauto. now apply Hkept.
Qed.

End Immunity.


(* ================================================================== *)
(** * The document post-processor *)
(* ================================================================== *)

(** C7. Attributes written with single quotes escape the post-processor:
    for Arabic, an [html] tag that has [dir='ltr'] keeps it and gets no
    [dir] of value [rtl]; an existing [lang='en'] is not stripped, so the
    tag ends up with two [lang] attributes; for French an existing
    [dir='rtl'] is not stripped. *)
Theorem single_quoted_attributes_escape :
  translate_html_fragment (U := ascii_tables) (env_of upper_provider)
    (lit "<html dir='ltr'><body>Hello world</body></html>") (lit "ar")
  = Ok (lit "<html lang=" ++ quoted (lit "ar")
        ++ lit " dir='ltr'><body>HELLO WORLD</body></html>")
  /\ contains (lit "dir=" ++ quoted (lit "rtl"))
       (lit "<html lang=" ++ quoted (lit "ar")
        ++ lit " dir='ltr'><body>HELLO WORLD</body></html>")
     = false
  /\ translate_html_fragment (U := ascii_tables) (env_of upper_provider)
       (lit "<html lang='en'><body>Hello world</body></html>") (lit "fr")
     = Ok (lit "<html lang=" ++ quoted (lit "fr")
           ++ lit " lang='en'><body>HELLO WORLD</body></html>")
  /\ translate_html_fragment (U := ascii_tables) (env_of upper_provider)
       (lit "<html dir='rtl'><body>Hello world</body></html>") (lit "fr")
     = Ok (lit "<html lang=" ++ quoted (lit "fr")
           ++ lit " dir='rtl'><body>HELLO WORLD</body></html>").
Proof. repeat split; vm_compute; reflexivity. Qed.

(* ================================================================== *)
(** * Empty translations and the response hook *)
(* ================================================================== *)

Section BlankDocument.
Context {U : UnicodeData}.

Lemma set_data_cases (resp : response) (d : str) :
  set_data resp d = Ok (with_data resp d)
  \/ exists ex, set_data resp d = Raised ex.
Proof.
  unfold set_data. destruct (forallb encodable d); [now left|right; eauto].
Qed.

(** A blank document from the translator: the hook writes the original
    body back, or, when that cannot be encoded, falls into its handler,
    which finds the body it needs and leaves the response alone. *)
Lemma hook_blank_translation (e : env) (req : request) (resp : response)
    (translated : str) :
  translate_html_fragment e (data resp) (or_default (_pen_lang req) (lit "en"))
  = Ok translated ->
  forallb isspace translated = true ->
  _translate_response e req resp = resp
  \/ _translate_response e req resp = with_data resp (data resp).
Proof.
  intros Ht Hblank. apply strip_nil in Hblank.
  unfold _translate_response.
  destruct (str_eqb _ _); [now left|].
  destruct (_ && _); [|now left].
  destruct (strip (data resp)) eqn:Hs; [now left|].
  rewrite Ht.
  assert (Hback : match set_data resp (data resp) with
                  | Ok resp1 => resp1
                  | Raised _ => resp
                  end = resp
                  \/ match set_data resp (data resp) with
                     | Ok resp1 => resp1
                     | Raised _ => resp
                     end = with_data resp (data resp)).
  { destruct (set_data_cases resp (data resp)) as [->|[ex ->]]; auto. }
  destruct translated as [|x t]; [exact Hback|].
  rewrite Hblank. exact Hback.
Qed.

End BlankDocument.


(* ================================================================== *)
(** * Totality *)
(* ================================================================== *)


Section Totality.
Context {U : UnicodeData}.

Lemma fragment_returns_for_strings (e : env) (html lang : str) :
  (forall texts l, forallb is_string (_deepl_batch e texts l) = true) ->
  exists res, translate_html_fragment e html lang = Ok res.
Proof.
  intros Hstr. unfold translate_html_fragment.
  destruct (str_eqb _ _); [eauto|].
  destruct html as [|c html]; [eauto|].
  destruct (strip (c :: html)); [eauto|].
  destruct (spliced_total e (c :: html) (normalise_lang lang) (Hstr _ _))
    as (outl & Hs & Hout).
  rewrite Hs. cbn [bind].
  destruct (join_total _ Hout) as [html2 Hj]. rewrite Hj. cbn [bind]. eauto.
Qed.

End Totality.

(* ================================================================== *)
(** * The protection codec *)
(* ================================================================== *)

Section StringFacts.

Lemma startswith_app (t r : str) : startswith t (t ++ r) = true.
Proof.
  induction t as [|c t IH]; simpl; [reflexivity|].
  unfold char_eqb. now rewrite N.eqb_refl.
Qed.

Lemma startswith_split (t s : str) :
  startswith t s = true -> s = t ++ skipn (length t) s.
Proof.
  revert s; induction t as [|c t IH]; intros [|x s] H; simpl in *;
    try reflexivity; try discriminate.
  apply andb_true_iff in H as [Hc Ht]. apply N.eqb_eq in Hc. subst.
  f_equal. now apply IH.
Qed.

Lemma startswith_longer (t s r : str) :
  startswith t s = true -> startswith t (s ++ r) = true.
Proof.
  revert s; induction t as [|c t IH]; intros [|x s] H; simpl in *;
    try reflexivity; try discriminate.
  apply andb_true_iff in H as [Hc Ht]. rewrite Hc. simpl. now apply IH.
Qed.

Lemma contains_app_r (b x y : str) : contains b y = true -> contains b (x ++ y) = true.
Proof.
  intros H. induction x as [|c x IH]; simpl; [assumption|].
  rewrite IH. apply orb_true_r.
Qed.

Lemma contains_app_l (b x y : str) : contains b x = true -> contains b (x ++ y) = true.
Proof.
  induction x as [|c x IH]; simpl.
  - destruct b; [|simpl; discriminate]. intros _. now destruct y.
  - intros H. apply orb_true_iff in H as [H|H].
    + apply (startswith_longer _ _ y) in H. simpl in H. now rewrite H.
    + rewrite (IH H). apply orb_true_r.
Qed.

Lemma contains_self (b : str) : contains b b = true.
Proof.
  destruct b as [|c b]; [reflexivity|].
  simpl. unfold char_eqb. rewrite N.eqb_refl. simpl.
  rewrite <- (List.app_nil_r b) at 2. now rewrite startswith_app.
Qed.

(** An occurrence is an offset at which the text starts with the token. *)
Lemma contains_offset (b s : str) :
  contains b s = true
  <-> exists k, k <= length s /\ startswith b (skipn k s) = true.
Proof.
  induction s as [|c s IH]; simpl.
  - rewrite orb_false_r. split.
    + intros H. exists 0. auto.
    + intros (k & Hk & H). now destruct k.
  - rewrite orb_true_iff, IH. split.
    + intros [H|(k & Hk & H)]; [exists 0 | exists (S k)]; simpl; split;
        auto; lia.
    + intros ([|k] & Hk & H); simpl in H; [auto|].
      right. exists k. split; [lia|auto].
Qed.

Lemma replace_from_skip (old new s : str) :
  forall skip, replace_from old new s skip = replace_from old new (skipn skip s) 0.
Proof.
  induction s as [|c s IH]; intros [|k]; simpl; try reflexivity.
  apply IH.
Qed.

(** An occurrence at the head is replaced. *)
Lemma replace_hit (old new r : str) :
  old <> [] -> replace old new (old ++ r) = new ++ replace old new r.
Proof.
  intros Hne. unfold replace. destruct old as [|c old]; [congruence|].
  cbn [app replace_from]. change (c :: old ++ r) with ((c :: old) ++ r).
  rewrite startswith_app. f_equal.
  rewrite replace_from_skip. simpl.
  now rewrite skipn_app, skipn_all, Nat.sub_diag.
Qed.

(** A stretch inside which no occurrence starts passes unchanged. *)
Lemma replace_pass (old new x r : str) :
  no_hit old x r -> replace old new (x ++ r) = x ++ replace old new r.
Proof.
  unfold replace. induction x as [|c x IH]; simpl; [reflexivity|].
  intros [H Hx]. change (c :: x ++ r) with ((c :: x) ++ r) in H.
  simpl in H. rewrite H. f_equal. now apply IH.
Qed.

Lemma no_hit_app (old x y r : str) :
  no_hit old x (y ++ r) -> no_hit old y r -> no_hit old (x ++ y) r.
Proof.
  induction x as [|c x IH]; simpl; [auto|].
  intros [H Hx] Hy. rewrite <- app_assoc. auto.
Qed.

(** A stretch without the first character of [old] has no occurrence. *)
Lemma no_hit_other (c0 : char) (old x r : str) :
  forallb (fun c => negb (char_eqb c c0)) x = true ->
  no_hit (c0 :: old) x r.
Proof.
  induction x as [|c x IH]; simpl; [auto|].
  intros H. apply andb_true_iff in H as [Hc Hx].
  split; [|auto].
  unfold char_eqb in *. rewrite N.eqb_sym.
  apply negb_true_iff in Hc. now rewrite Hc.
Qed.

End StringFacts.

Section Markers.

#[local] Arguments char_eqb : simpl never.

Lemma uint_chars_plain (d : Decimal.uint) : plain (uint_chars d) = true.
Proof. induction d; simpl; auto. Qed.

Lemma uint_chars_inj (d d' : Decimal.uint) :
  uint_chars d = uint_chars d' -> d = d'.
Proof.
  revert d'; induction d; intros d'; destruct d'; simpl; intros H;
    try reflexivity; try discriminate;
    inversion H; f_equal; auto.
Qed.

Lemma str_of_nat_inj (i j : nat) : str_of_nat i = str_of_nat j -> i = j.
Proof.
  unfold str_of_nat. intros H.
  now apply DecimalNat.Unsigned.to_uint_inj, uint_chars_inj.
Qed.

Lemma str_of_nat_plain (i : nat) : plain (str_of_nat i) = true.
Proof. apply uint_chars_plain. Qed.

Lemma str_of_nat_cons (i : nat) :
  exists d ds, str_of_nat i = d :: ds /\ plain_char d = true.
Proof.
  unfold str_of_nat.
  destruct (Nat.to_uint i) eqn:E;
    try (simpl; eexists _, _; split; reflexivity).
  exfalso. pose proof (DecimalNat.Unsigned.of_to i) as H.
  rewrite E in H. simpl in H. subst i. discriminate.
Qed.

(** Two numbers, each closed by an underscore: where the one starts with
    the other they are the same number. *)
Lemma plain_char_neq (c : char) :
  plain_char c = true ->
  char_eqb c 95%N = false /\ char_eqb 95%N c = false.
Proof.
  unfold plain_char, char_eqb. change (ch "_") with 95%N.
  intros H. apply negb_true_iff in H. split; [assumption|].
  now rewrite N.eqb_sym.
Qed.

Lemma digits_prefix (x y a b : str) :
  plain x = true -> plain y = true ->
  startswith (x ++ ch "_" :: a) (y ++ ch "_" :: b) = true -> x = y.
Proof.
  change (ch "_") with 95%N.
  revert y; induction x as [|c x IH]; intros [|d y] Hx Hy H;
    cbn [app startswith plain forallb] in *.
  - reflexivity.
  - apply andb_true_iff in Hy as [Hd _]. apply plain_char_neq in Hd as [_ Hd].
    rewrite Hd in H. discriminate.
  - apply andb_true_iff in Hx as [Hc _]. apply plain_char_neq in Hc as [Hc _].
    rewrite Hc in H. discriminate.
  - apply andb_true_iff in Hx as [_ Hx]. apply andb_true_iff in Hy as [_ Hy].
    apply andb_true_iff in H as [Hcd H]. apply N.eqb_eq in Hcd. subst.
    f_equal. now apply IH.
Qed.

(** In a clean marked text a single underscore never follows plain text
    to be followed by a plain character. *)
Lemma render_no_lone_underscore (atoms : list atom) :
  clean atoms = true ->
  forall u d z,
    plain u = true -> plain_char d = true ->
    startswith (u ++ ch "_" :: d :: z) (render atoms) = false.
Proof.
  change (ch "_") with 95%N.
  induction atoms as [|a atoms IH]; intros Hclean u d z Hu Hd.
  - now destruct u.
  - cbn [clean forallb] in Hclean. apply andb_true_iff in Hclean as [Ha Hclean].
    destruct a as [x|i]; cbn [render flat_map render_atom clean_atom] in *.
    + revert u Hu. induction x as [|c x IHx]; intros u Hu.
      * now apply IH.
      * cbn [plain forallb] in Ha. apply andb_true_iff in Ha as [Hc Hx].
        apply plain_char_neq in Hc as [Hc Hc'].
        destruct u as [|v u]; cbn [app startswith].
        -- now rewrite Hc'.
        -- cbn [plain forallb] in Hu. apply andb_true_iff in Hu as [_ Hu].
           rewrite (IHx Hx u Hu). apply andb_false_r.
    + apply plain_char_neq in Hd as [Hd Hd'].
      destruct u as [|v u]; unfold brand_marker;
        change (lit "__PENBRAND_") with
          [95; 95; 80; 69; 78; 66; 82; 65; 78; 68; 95]%N;
        cbn [app startswith].
      * rewrite Hd. now rewrite andb_false_r.
      * cbn [plain forallb] in Hu. apply andb_true_iff in Hu as [Hv _].
        apply plain_char_neq in Hv as [Hv _]. now rewrite Hv.
Qed.

Lemma startswith_cancel (p a b : str) :
  startswith (p ++ a) (p ++ b) = startswith a b.
Proof.
  induction p as [|c p IH]; simpl; [reflexivity|].
  unfold char_eqb. now rewrite N.eqb_refl.
Qed.

(** Inside the marker of one number no marker of another number starts,
    whatever clean text follows. *)
Lemma marker_no_hit (i j : nat) (rest : list atom) :
  i <> j -> clean rest = true ->
  no_hit (brand_marker j) (brand_marker i) (render rest).
Proof.
  intros Hij Hclean.
  destruct (str_of_nat_cons i) as (di & dsi & Hi & Hdi).
  destruct (str_of_nat_cons j) as (dj & dsj & Hj & Hdj).
  pose proof (str_of_nat_plain i) as Hpi.
  pose proof (str_of_nat_plain j) as Hpj.
  assert (Hne : str_of_nat i <> str_of_nat j)
    by (intros H; now apply Hij, str_of_nat_inj).
  unfold brand_marker.
  apply no_hit_app; [|apply no_hit_app].
  - (* the fixed start of the marker *)
    change (lit "__PENBRAND_") with
      [95%N; 95%N; 80%N; 69%N; 78%N; 66%N; 82%N; 65%N; 78%N; 68%N; 95%N].
    cbn [no_hit]. repeat split; try reflexivity.
    + rewrite <- !app_assoc, startswith_cancel.
      change (lit "__") with [ch "_"; ch "_"]. cbn [app].
      destruct (startswith _ _) eqn:E; [|reflexivity].
      apply digits_prefix in E; congruence.
    + rewrite Hi. cbn [app startswith].
      apply plain_char_neq in Hdi as [_ Hdi]. rewrite Hdi.
      reflexivity.
  - (* the number *)
    change (lit "__PENBRAND_") with
      [95%N; 95%N; 80%N; 69%N; 78%N; 66%N; 82%N; 65%N; 78%N; 68%N; 95%N].
    cbn [app]. apply no_hit_other. exact Hpi.
  - (* the closing underscores *)
    change (lit "__PENBRAND_") with
      [95%N; 95%N; 80%N; 69%N; 78%N; 66%N; 82%N; 65%N; 78%N; 68%N; 95%N].
    change (lit "__") with [95%N; 95%N].
    rewrite Hj. cbn [no_hit app startswith]. repeat split.
    + change (char_eqb 95%N 95%N) with true. cbn [andb].
      apply (render_no_lone_underscore _ Hclean
               [80%N; 69%N; 78%N; 66%N; 82%N; 65%N; 78%N; 68%N] dj
               (dsj ++ [95%N; 95%N]) eq_refl Hdj).
    + change (char_eqb 95%N 95%N) with true. cbn [andb].
      apply (render_no_lone_underscore _ Hclean [] 80%N
               (69 :: 78 :: 66 :: 82 :: 65 :: 78 :: 68 :: 95 :: dj
                  :: dsj ++ [95; 95])%N eq_refl eq_refl).
Qed.

Lemma brand_marker_cons (j : nat) :
  exists old, brand_marker j = ch "_" :: old.
Proof. unfold brand_marker. eexists. reflexivity. Qed.

(** Replacing one marker in a clean marked text replaces that marker and
    nothing else. *)
Lemma replace_marker (j : nat) (val : str) (atoms : list atom) :
  clean atoms = true ->
  replace (brand_marker j) val (render atoms)
  = render (map (subst_atom j val) atoms).
Proof.
  induction atoms as [|a atoms IH]; intros Hclean; [reflexivity|].
  cbn [clean forallb] in Hclean. apply andb_true_iff in Hclean as [Ha Hclean].
  specialize (IH Hclean). unfold render in *.
  destruct a as [x|i]; cbn [flat_map map subst_atom render_atom] in *.
  - destruct (brand_marker_cons j) as [old Hold]. rewrite Hold in *.
    rewrite replace_pass; [now rewrite IH|].
    apply no_hit_other. exact Ha.
  - destruct (Nat.eqb i j) eqn:E.
    + apply Nat.eqb_eq in E. subst i. cbn [render_atom].
      rewrite replace_hit; [now rewrite IH|].
      destruct (brand_marker_cons j) as [old ->]. discriminate.
    + apply Nat.eqb_neq in E. cbn [render_atom].
      rewrite replace_pass; [now rewrite IH|].
      now apply marker_no_hit.
Qed.

Lemma clean_subst (i : nat) (val : str) (atoms : list atom) :
  plain val = true -> clean atoms = true ->
  clean (map (subst_atom i val) atoms) = true.
Proof.
  intros Hval. unfold clean. rewrite !forallb_forall.
  intros H a Ha. apply in_map_iff in Ha as (a0 & <- & Ha0).
  specialize (H _ Ha0). destruct a0 as [x|j]; simpl; [assumption|].
  destruct (Nat.eqb j i); [assumption | reflexivity].
Qed.

(** Restoring a bag of plain entries in a clean marked text puts each
    entry in the place of its marker. *)
Lemma restore_from_marked (bag : list str) :
  forall i atoms,
    forallb plain bag = true -> clean atoms = true ->
    restore_from brand_marker (render atoms) bag i
    = render (subst_bag bag i atoms).
Proof.
  induction bag as [|val bag IH]; intros i atoms Hbag Hclean; [reflexivity|].
  cbn [forallb] in Hbag. apply andb_true_iff in Hbag as [Hval Hbag].
  cbn [restore_from subst_bag].
  rewrite replace_marker by assumption.
  apply IH; [assumption | now apply clean_subst].
Qed.

Lemma subst_bag_txt (bag : list str) :
  forall i atoms v, In (Txt v) atoms -> In (Txt v) (subst_bag bag i atoms).
Proof.
  induction bag as [|val bag IH]; intros i atoms v H; [assumption|].
  cbn [subst_bag]. apply IH.
  apply in_map_iff. exists (Txt v). auto.
Qed.

Lemma subst_bag_mark (bag : list str) :
  forall i k atoms v,
    nth_error bag k = Some v -> In (Mark (i + k)) atoms ->
    In (Txt v) (subst_bag bag i atoms).
Proof.
  induction bag as [|val bag IH]; intros i k atoms v Hk H;
    [now destruct k|].
  cbn [subst_bag]. destruct k as [|k]; simpl in Hk.
  - inversion Hk; subst. apply subst_bag_txt.
    apply in_map_iff. exists (Mark (i + 0)). split; [|assumption].
    simpl. now rewrite Nat.add_0_r, Nat.eqb_refl.
  - apply (IH (S i) k); [assumption|].
    apply in_map_iff. exists (Mark (i + S k)). split.
    + simpl. destruct (Nat.eqb (i + S k) i) eqn:E.
      * apply Nat.eqb_eq in E. lia.
      * f_equal. lia.
    + assumption.
Qed.

Lemma render_contains (atoms : list atom) (v : str) :
  In (Txt v) atoms -> contains v (render atoms) = true.
Proof.
  induction atoms as [|a atoms IH]; intros H; [destruct H|].
  cbn [render flat_map]. destruct H as [->|H].
  - apply contains_app_l, contains_self.
  - apply contains_app_r. now apply IH.
Qed.

(** A bag entry whose marker stands in a clean marked text is part of the
    restored text. *)
Lemma restore_brands_contains (bag : list str) (atoms : list atom) (k : nat)
    (v : str) :
  forallb plain bag = true -> clean atoms = true ->
  nth_error bag k = Some v -> In (Mark k) atoms ->
  contains v (_restore_brands (render atoms) bag) = true.
Proof.
  intros Hbag Hclean Hk Hin. unfold _restore_brands.
  rewrite restore_from_marked by assumption.
  apply render_contains. now apply (subst_bag_mark bag 0 k).
Qed.

Lemma contains_trans (a b s : str) :
  contains a b = true -> contains b s = true -> contains a s = true.
Proof.
  intros Hab Hbs. apply contains_offset in Hbs as (k & Hk & H).
  apply startswith_split in H.
  rewrite <- (firstn_skipn k s), H.
  apply contains_app_r, contains_app_l. assumption.
Qed.

End Markers.

Section BrandPattern.
Context {U : UnicodeData}.

(** A literal string matches where the subject starts with it. *)
Lemma m_Str (A : Type) (t : str) :
  forall prev s off caps
         (k : option char -> str -> nat -> captures -> option A),
    m false (Str t) prev s off caps k
    = if startswith t s
      then k (after prev s (length t)) (skipn (length t) s) (off + length t) caps
      else None.
Proof.
  induction t as [|c t IH]; intros prev s off caps k.
  - simpl. now rewrite Nat.add_0_r.
  - cbn [Str m]. destruct s as [|x s]; [reflexivity|].
    unfold lit_eq. cbn [startswith length after skipn].
    destruct (char_eqb c x); [|reflexivity].
    rewrite IH. cbn [andb]. now rewrite Nat.add_succ_r.
Qed.

(** An alternation of literals matches with the first of them that the
    subject starts with. *)
Lemma match_at_alternation (l : list str) (prev : option char) (s : str) :
  l <> [] ->
  match_at false (alternation l) prev s
  = option_map (fun t => (length t, []))
      (find (fun t => startswith t s) l).
Proof.
  unfold match_at. induction l as [|t l IH]; intros Hne; [congruence|].
  destruct l as [|t2 l].
  - cbn [alternation find]. rewrite m_Str.
    destruct (startswith t s); reflexivity.
  - change (alternation (t :: t2 :: l))
      with (Alt (Str t) (alternation (t2 :: l))).
    cbn [m find]. rewrite m_Str.
    destruct (startswith t s); [reflexivity|].
    apply IH. discriminate.
Qed.

Lemma TOKEN_RE_eq :
  TOKEN_RE
  = Some (alternation [lit "Cognitive College"; lit "More House";
                       lit "PEN Reply"; lit "PEN.ai"; lit "PEN"]).
Proof. reflexivity. Qed.

Lemma match_at_brand (r : re) (prev : option char) (s : str) :
  TOKEN_RE = Some r ->
  match_at false r prev s
  = option_map (fun t => (length t, []))
      (find (fun t => startswith t s)
         [lit "Cognitive College"; lit "More House"; lit "PEN Reply";
          lit "PEN.ai"; lit "PEN"]).
Proof.
  intros H.
  assert (Hr : r = alternation [lit "Cognitive College"; lit "More House";
                                lit "PEN Reply"; lit "PEN.ai"; lit "PEN"])
    by (rewrite TOKEN_RE_eq in H; congruence).
  rewrite Hr. apply match_at_alternation. discriminate.
Qed.

Lemma startswith_firstn (t s : str) :
  startswith t s = true -> firstn (length t) s = t.
Proof.
  intros H. apply startswith_split in H. rewrite H at 1.
  now rewrite firstn_app, firstn_all, Nat.sub_diag, List.app_nil_r.
Qed.

(** A match of the brand pattern is a brand token, which is plain text
    and not empty. *)
Lemma brand_match (r : re) (prev : option char) (s : str) (len : nat)
    (caps : captures) :
  TOKEN_RE = Some r ->
  match_at false r prev s = Some (len, caps) ->
  find (fun t => startswith t s)
    [lit "Cognitive College"; lit "More House"; lit "PEN Reply";
     lit "PEN.ai"; lit "PEN"] = Some (firstn len s)
  /\ len = length (firstn len s)
  /\ In (firstn len s) BRAND_TOKENS
  /\ plain (firstn len s) = true
  /\ len <> 0.
Proof.
  intros Hr Hm. rewrite (match_at_brand _ _ Hr) in Hm.
  destruct (find _ _) as [t|] eqn:Hf; [|discriminate].
  simpl in Hm. inversion Hm; subst.
  pose proof (find_some _ _ Hf) as [Hin Hst].
  rewrite (startswith_firstn _ _ Hst).
  repeat split; auto;
    cbn [In] in Hin;
    repeat (destruct Hin as [<-|Hin];
            [first [ now (unfold BRAND_TOKENS; cbn [In]; auto 10)
                   | reflexivity | discriminate ] |]);
    destruct Hin.
Qed.

End BrandPattern.

Section BrandCover.
Context {U : UnicodeData}.

Ltac overlap_step H :=
  cbn in H;
  first [ discriminate H | reflexivity | congruence ].

(** An occurrence of a brand token that starts inside a match of the
    brand pattern lies inside the match: no token overlaps the end of
    another, and of two tokens at one place the longer is matched. *)
Lemma brand_overlap (s m b : str) (k : nat) :
  find (fun t => startswith t s)
    [lit "Cognitive College"; lit "More House"; lit "PEN Reply";
     lit "PEN.ai"; lit "PEN"] = Some m ->
  In b BRAND_TOKENS ->
  k < length m ->
  startswith b (skipn k s) = true ->
  contains b m = true.
Proof.
  intros Hf Hb Hk Hocc. cbn [find] in Hf.
  unfold BRAND_TOKENS in Hb. cbn [In] in Hb.
  destruct (startswith (lit "Cognitive College") s) eqn:E1.
  { inversion Hf; subst m. apply startswith_split in E1.
    set (s0 := skipn _ s) in E1. clearbody s0. subst s.
    cbn in Hk.
    destruct Hb as [<-|[<-|[<-|[<-|[<-|[]]]]]];
      do 17 (destruct k as [|k]; [overlap_step Hocc|]); lia. }
  destruct (startswith (lit "More House") s) eqn:E2.
  { inversion Hf; subst m. apply startswith_split in E2.
    set (s0 := skipn _ s) in E2. clearbody s0. subst s.
    cbn in Hk, E1.
    destruct Hb as [<-|[<-|[<-|[<-|[<-|[]]]]]];
      do 10 (destruct k as [|k]; [overlap_step Hocc|]); lia. }
  destruct (startswith (lit "PEN Reply") s) eqn:E3.
  { inversion Hf; subst m. apply startswith_split in E3.
    set (s0 := skipn _ s) in E3. clearbody s0. subst s.
    cbn in Hk, E1, E2.
    destruct Hb as [<-|[<-|[<-|[<-|[<-|[]]]]]];
      do 9 (destruct k as [|k]; [overlap_step Hocc|]); lia. }
  destruct (startswith (lit "PEN.ai") s) eqn:E4.
  { inversion Hf; subst m. apply startswith_split in E4.
    set (s0 := skipn _ s) in E4. clearbody s0. subst s.
    cbn in Hk, E1, E2, E3.
    destruct Hb as [<-|[<-|[<-|[<-|[<-|[]]]]]];
      do 6 (destruct k as [|k]; [overlap_step Hocc|]); lia. }
  destruct (startswith (lit "PEN") s) eqn:E5; [|discriminate].
  inversion Hf; subst m. apply startswith_split in E5.
  set (s0 := skipn _ s) in E5. clearbody s0. subst s.
  cbn in Hk, E1, E2, E3, E4.
  destruct Hb as [<-|[<-|[<-|[<-|[<-|[]]]]]];
    do 3 (destruct k as [|k]; [overlap_step Hocc|]); lia.
Qed.

End BrandCover.

Section ProtectLoop.
Context {U : UnicodeData}.
Variable r : re.
Variable marker : nat -> str.

(** The bag only grows. *)
Lemma protect_loop_grows (s : str) :
  forall prev skip b0 out1 b1,
    sub_loop false r (bag_sub marker) None prev s skip b0 = (out1, b1) ->
    exists ext, b1 = b0 ++ ext.
Proof.
  induction s as [|c s IH]; intros prev skip b0 out1 b1 H; cbn [sub_loop] in H.
  - inversion H; subst. exists []. now rewrite List.app_nil_r.
  - destruct skip as [|k]; [|eauto].
    destruct (match_at false r prev (c :: s)) as [[[|n] caps]|].
    + destruct (sub_loop _ _ _ _ _ s 0 b0) as [o b] eqn:E.
      inversion H; subst. eauto.
    + cbn [bag_sub option_map] in H.
      destruct (sub_loop _ _ _ _ _ s n _) as [o b] eqn:E.
      inversion H; subst.
      destruct (IH _ _ _ _ _ E) as [ext ->].
      exists (group (c :: s) (S n) caps 0 :: ext). now rewrite <- app_assoc.
    + destruct (sub_loop _ _ _ _ _ s 0 b0) as [o b] eqn:E.
      inversion H; subst. eauto.
Qed.

(** What holds of every match holds of every entry of the bag. *)
Lemma protect_loop_entries (P : str -> Prop) (s : str) :
  (forall prev x len caps,
     match_at false r prev x = Some (len, caps) -> P (firstn len x)) ->
  forall prev skip b0 out1 b1,
    sub_loop false r (bag_sub marker) None prev s skip b0 = (out1, b1) ->
    Forall P b0 -> Forall P b1.
Proof.
  intros HP. induction s as [|c s IH]; intros prev skip b0 out1 b1 H Hb0;
    cbn [sub_loop] in H.
  - now inversion H; subst.
  - destruct skip as [|k]; [|eauto].
    destruct (match_at false r prev (c :: s)) as [[[|n] caps]|] eqn:Hm.
    + destruct (sub_loop _ _ _ _ _ s 0 b0) as [o b] eqn:E.
      inversion H; subst. eauto.
    + cbn [bag_sub option_map] in H.
      destruct (sub_loop _ _ _ _ _ s n _) as [o b] eqn:E.
      inversion H; subst.
      apply (IH _ _ _ _ _ E). apply Forall_app. split; [assumption|].
      constructor; [|constructor]. apply (HP _ _ _ _ Hm).
    + destruct (sub_loop _ _ _ _ _ s 0 b0) as [o b] eqn:E.
      inversion H; subst. eauto.
Qed.

(** What holds of the characters of the subject and of the markers holds
    of the characters of the result. *)
Lemma protect_loop_chars (Q : char -> bool) (s : str) :
  (forall i, forallb Q (marker i) = true) ->
  forall prev skip b0 out1 b1,
    sub_loop false r (bag_sub marker) None prev s skip b0 = (out1, b1) ->
    forallb Q s = true -> forallb Q out1 = true.
Proof.
  intros HQ. induction s as [|c s IH]; intros prev skip b0 out1 b1 H Hs;
    cbn [sub_loop] in H.
  - now inversion H; subst.
  - cbn [forallb] in Hs. apply andb_true_iff in Hs as [Hc Hs].
    destruct skip as [|k]; [|eauto].
    destruct (match_at false r prev (c :: s)) as [[[|n] caps]|] eqn:Hm.
    + destruct (sub_loop _ _ _ _ _ s 0 b0) as [o b] eqn:E.
      inversion H; subst. cbn [forallb]. rewrite Hc. eauto.
    + cbn [bag_sub option_map] in H.
      destruct (sub_loop _ _ _ _ _ s n _) as [o b] eqn:E.
      inversion H; subst. rewrite forallb_app, HQ. eauto.
    + destruct (sub_loop _ _ _ _ _ s 0 b0) as [o b] eqn:E.
      inversion H; subst. cbn [forallb]. rewrite Hc. eauto.
Qed.

(** Where the pattern matches at none of the characters of the subject,
    the subject comes back as it is. *)
Lemma protect_loop_no_match (Q : char -> bool) (s : str) :
  (forall prev c x, Q c = true -> match_at false r prev (c :: x) = None) ->
  forallb Q s = true ->
  forall prev b0,
    sub_loop false r (bag_sub marker) None prev s 0 b0 = (s, b0).
Proof.
  intros Hno. induction s as [|c s IH]; intros Hs prev b0; cbn [sub_loop].
  - reflexivity.
  - cbn [forallb] in Hs. apply andb_true_iff in Hs as [Hc Hs].
    rewrite (Hno prev c s Hc). now rewrite IH.
Qed.

End ProtectLoop.

Section ProtectBrands.
Context {U : UnicodeData}.

(** Every occurrence of a brand token from the current position on ends
    up inside an entry of the bag. *)
Lemma protect_loop_covers (r : re) (b : str) (s : str) :
  TOKEN_RE = Some r ->
  In b BRAND_TOKENS ->
  forall prev skip b0 out1 b1 k,
    sub_loop false r (bag_sub brand_marker) None prev s skip b0 = (out1, b1) ->
    skip <= k ->
    startswith b (skipn k s) = true ->
    exists v, In v b1 /\ contains b v = true.
Proof.
  intros Hr Hb.
  assert (Hne : b <> []).
  { unfold BRAND_TOKENS in Hb. cbn [In] in Hb.
    repeat (destruct Hb as [<-|Hb]; [discriminate|]). destruct Hb. }
  induction s as [|c s IH]; intros prev skip b0 out1 b1 k H Hk Hocc.
  - rewrite skipn_nil in Hocc. destruct b; [congruence | discriminate].
  - cbn [sub_loop] in H. destruct skip as [|sk].
    + destruct (match_at false r prev (c :: s)) as [[len caps]|] eqn:Hm.
      * destruct (@brand_match _ _ _ _ _ _ Hr Hm) as (Hfind & Hlen & _ & _ & Hnz).
        destruct len as [|n]; [congruence|].
        cbn [bag_sub option_map group] in H.
        destruct (sub_loop _ _ _ _ _ s n _) as [o bg] eqn:E.
        inversion H; subst.
        destruct (Nat.le_gt_cases k n) as [Hin|Hout].
        -- exists (firstn (S n) (c :: s)). split.
           ++ destruct (@protect_loop_grows _ _ _ _ _ _ _ _ _ E) as [ext ->].
              apply in_or_app. left. apply in_or_app. right. now left.
           ++ apply (@brand_overlap _ _ _ k Hfind Hb); [lia | assumption].
        -- destruct k as [|k']; [lia|]. cbn [skipn] in Hocc.
           apply (IH _ _ _ _ _ k' E); [lia | assumption].
      * destruct k as [|k'].
        -- exfalso. rewrite (match_at_brand _ _ Hr) in Hm.
           destruct (find _ _) eqn:Hf; [discriminate|].
           cbn [skipn] in Hocc.
           assert (Hin : In b [lit "Cognitive College"; lit "More House";
                               lit "PEN Reply"; lit "PEN.ai"; lit "PEN"]).
           { unfold BRAND_TOKENS in Hb. cbn [In] in Hb |- *. tauto. }
           pose proof (find_none _ _ Hf _ Hin) as Hnone. cbn beta in Hnone.
           congruence.
        -- destruct (sub_loop _ _ _ _ _ s 0 b0) as [o bg] eqn:E.
           inversion H; subst. cbn [skipn] in Hocc.
           apply (IH _ _ _ _ _ k' E); [lia | assumption].
    + destruct k as [|k']; [lia|]. cbn [skipn] in Hocc.
      apply (IH _ _ _ _ _ k' H); [lia | assumption].
Qed.

(** The bag of [_protect_brands] holds brand tokens, which are plain. *)
Lemma protect_brands_bag_plain (p : str) :
  forallb plain (snd (_protect_brands p)) = true.
Proof.
  unfold _protect_brands. destruct p as [|c p]; [reflexivity|].
  destruct TOKEN_RE as [r|] eqn:Hr; [|reflexivity].
  destruct (sub_loop _ _ _ _ _ _ _ _) as [o bag] eqn:E. cbn [snd].
  apply forallb_forall. apply Forall_forall.
  eapply (@protect_loop_entries _ _ _ (fun t => plain t = true)); eauto.
  intros prev x len caps Hm.
  now destruct (@brand_match _ _ _ _ _ _ Hr Hm) as (_ & _ & _ & Hp & _).
Qed.

(** Every brand token of a text lies inside an entry of the bag. *)
Lemma protect_brands_covers (p b : str) :
  In b BRAND_TOKENS -> contains b p = true ->
  exists k v,
    nth_error (snd (_protect_brands p)) k = Some v /\ contains b v = true.
Proof.
  intros Hb Hocc. apply contains_offset in Hocc as (k & Hk & Hocc).
  unfold _protect_brands. destruct p as [|c p].
  { exfalso. rewrite skipn_nil in Hocc.
    unfold BRAND_TOKENS in Hb. cbn [In] in Hb.
    repeat (destruct Hb as [<-|Hb]; [discriminate|]). destruct Hb. }
  destruct TOKEN_RE as [r|] eqn:Hr; [|discriminate].
  destruct (sub_loop _ _ _ _ _ _ _ _) as [o bag] eqn:E. cbn [snd].
  destruct (@protect_loop_covers _ _ _ Hr Hb _ _ _ _ _ k E (Nat.le_0_l k)
              Hocc) as (v & Hv & Hc).
  apply In_nth_error in Hv as [i Hi]. eauto.
Qed.

Lemma brand_marker_bracket_free (i : nat) :
  bracket_free (brand_marker i) = true.
Proof.
  unfold brand_marker, bracket_free. rewrite !forallb_app.
  assert (H : forallb
                (fun c => negb (char_eqb c (ch "{")) && negb (char_eqb c (ch "[")))
                (str_of_nat i) = true).
  { unfold str_of_nat. induction (Nat.to_uint i); simpl; auto. }
  rewrite H. reflexivity.
Qed.

(** Protecting the brands of a text without placeholder brackets leaves it
    without them. *)
Lemma protect_brands_bracket_free (p : str) :
  bracket_free p = true -> bracket_free (fst (_protect_brands p)) = true.
Proof.
  intros Hp. unfold _protect_brands. destruct p as [|c p]; [reflexivity|].
  destruct TOKEN_RE as [r|]; [|assumption].
  destruct (sub_loop _ _ _ _ _ _ _ _) as [o bag] eqn:E. cbn [fst].
  eapply protect_loop_chars; eauto. apply brand_marker_bracket_free.
Qed.

(** The bracket pattern starts with one of the two brackets. *)
Lemma brack_no_match (prev : option char) (c : char) (x : str) :
  negb (char_eqb c (ch "{")) && negb (char_eqb c (ch "[")) = true ->
  match_at false BRACK_RE prev (c :: x) = None.
Proof.
  intros H. apply andb_true_iff in H as [H1 H2].
  apply negb_true_iff in H1, H2. unfold char_eqb in *.
  rewrite N.eqb_sym in H1, H2.
  unfold match_at, BRACK_RE. cbn [m Cat Str lit_eq].
  change (lit "{{") with [ch "{"; ch "{"].
  change (lit "[[") with [ch "["; ch "["].
  cbn [m Str lit_eq]. unfold char_eqb. now rewrite H1, H2.
Qed.

(** A text without placeholder brackets has nothing to protect. *)
Lemma protect_brackets_none (s : str) :
  bracket_free s = true -> _protect_brackets s = (s, []).
Proof.
  intros Hs. unfold _protect_brackets. destruct s as [|c s]; [reflexivity|].
  eapply protect_loop_no_match; [|exact Hs].
  intros prev c0 x Hc. now apply brack_no_match.
Qed.

End ProtectBrands.

(* ================================================================== *)
(** * Brand preservation *)
(* ================================================================== *)

Section BrandPreservation.
Context {U : UnicodeData}.

Lemma nth_error_snoc (A : Type) (l : list A) (x y : A) (j : nat) :
  nth_error (l ++ [x]) j = Some y ->
  (j < length l /\ nth_error l j = Some y) \/ (j = length l /\ y = x).
Proof.
  intros H. destruct (Nat.lt_ge_cases j (length l)) as [Hlt|Hge].
  - left. rewrite nth_error_app1 in H by assumption. auto.
  - right. rewrite nth_error_app2 in H by assumption.
    destruct (j - length l) as [|d] eqn:E; simpl in H.
    + inversion H. split; [lia | reflexivity].
    + now destruct d.
Qed.

(** The queue and its companions, entry by entry: the [j]-th queued index
    is the position of a part, and the job and the two bags at [j] are what
    the protectors made of that part. *)
Lemma scan_jobs (l : list str) :
  forall j i,
    nth_error (jobs_idx (scan_parts l)) j = Some i ->
    exists p,
      nth_error l i = Some p
      /\ nth_error (jobs (scan_parts l)) j
         = Some (fst (_protect_brackets (fst (_protect_brands p))))
      /\ nth_error (jobs_brandbags (scan_parts l)) j
         = Some (snd (_protect_brands p))
      /\ nth_error (jobs_brackbags (scan_parts l)) j
         = Some (snd (_protect_brackets (fst (_protect_brands p)))).
Proof.
  induction l as [|q l IH] using rev_ind; intros j i H.
  - now destruct j.
  - destruct (scan_parts_ok l) as [Hlen Hj Hbr Hbk _ Hidx _].
    rewrite scan_parts_snoc in *.
    destruct (queued (scan_parts l) q) eqn:Hq.
    + destruct (scan_step_queued _ _ Hq) as (_ & Hjb & Hi & Hb1 & Hb2 & _).
      rewrite Hjb, Hb1, Hb2. rewrite Hi in H.
      apply nth_error_snoc in H as [[Hlt H]|[-> ->]].
      * destruct (IH _ _ H) as (p & Hp & H1 & H2 & H3).
        assert (i < length l) by (apply nth_error_Some; congruence).
        exists p. rewrite !nth_error_app1 by lia. auto.
      * exists q. rewrite Hlen. repeat split.
        -- now rewrite nth_error_app2, Nat.sub_diag by lia.
        -- rewrite <- Hj. now rewrite nth_error_app2, Nat.sub_diag by lia.
        -- rewrite <- Hbr. now rewrite nth_error_app2, Nat.sub_diag by lia.
        -- rewrite <- Hbk. now rewrite nth_error_app2, Nat.sub_diag by lia.
    + destruct (scan_step_kept _ _ Hq) as (_ & Hjb & Hi & Hb1 & Hb2).
      rewrite Hjb, Hb1, Hb2. rewrite Hi in H.
      destruct (IH _ _ H) as (p & Hp & H1 & H2 & H3).
      assert (i < length l) by (apply nth_error_Some; congruence).
      exists p. rewrite nth_error_app1 by lia. auto.
Qed.

(** No position is queued twice. *)
Lemma scan_idx_once (l : list str) :
  forall j j' i,
    nth_error (jobs_idx (scan_parts l)) j = Some i ->
    nth_error (jobs_idx (scan_parts l)) j' = Some i ->
    j = j'.
Proof.
  induction l as [|q l IH] using rev_ind; intros j j' i H H'.
  - now destruct j.
  - destruct (scan_parts_ok l) as [Hlen _ _ _ _ Hidx _].
    rewrite scan_parts_snoc in *.
    assert (Hold : forall n k, nth_error (jobs_idx (scan_parts l)) n = Some k ->
                     k < length l).
    { intros n k Hn. apply nth_error_In in Hn.
      destruct (Hidx _ Hn) as (p & Hp & _).
      apply nth_error_Some. congruence. }
    destruct (queued (scan_parts l) q) eqn:Hq.
    + destruct (scan_step_queued _ _ Hq) as (_ & _ & Hi & _).
      rewrite Hi, Hlen in *.
      apply nth_error_snoc in H as [[Hlt H]|[-> ->]];
        apply nth_error_snoc in H' as [[Hlt' H']|[-> Hi']].
      * eauto.
      * apply Hold in H. lia.
      * apply Hold in H'. lia.
      * reflexivity.
    + destruct (scan_step_kept _ _ Hq) as (_ & _ & Hi & _).
      rewrite Hi in *. eauto.
Qed.

(** Writing back leaves alone what no later job points at. *)
Lemma splice_untouched (st : scan) (translated : list json) :
  forall i out0 out1 k,
    splice st translated i out0 = Ok out1 ->
    (forall j, i <= j -> nth_error (jobs_idx st) j <> Some k) ->
    nth_error out1 k = nth_error out0 k.
Proof.
  induction translated as [|s rest IH]; intros i out0 out1 k H Hk;
    simpl in H.
  - now inversion H.
  - destruct (list_index (jobs_brackbags st) i); simpl in H; [|discriminate].
    destruct (restore_value _restore_brackets s a) as [s1|]; simpl in H;
      [|discriminate].
    destruct (list_index (jobs_brandbags st) i); simpl in H; [|discriminate].
    destruct (restore_value _restore_brands s1 a0) as [s2|]; simpl in H;
      [|discriminate].
    destruct (list_index (jobs_idx st) i) as [j|] eqn:Hj; simpl in H;
      [|discriminate].
    destruct (list_set out0 j s2) as [out'|] eqn:Hset; simpl in H;
      [|discriminate].
    rewrite (IH _ _ _ k H) by (intros j' Hj'; apply Hk; lia).
    apply list_set_inv in Hset as (_ & _ & _ & Hother).
    apply Hother. intros ->. apply (Hk i); [lia|].
    now apply list_index_inv.
Qed.

(** What writing back leaves at a queued position: the translation of its
    job with the brackets and then the brands restored. *)
Lemma splice_at (st : scan) (translated : list json) :
  (forall j j' k,
     nth_error (jobs_idx st) j = Some k ->
     nth_error (jobs_idx st) j' = Some k -> j = j') ->
  forall i out0 out1 n v k,
    splice st translated i out0 = Ok out1 ->
    nth_error translated n = Some v ->
    nth_error (jobs_idx st) (i + n) = Some k ->
    exists bk br s1 s2,
      nth_error (jobs_brackbags st) (i + n) = Some bk
      /\ nth_error (jobs_brandbags st) (i + n) = Some br
      /\ restore_value _restore_brackets v bk = Ok s1
      /\ restore_value _restore_brands s1 br = Ok s2
      /\ nth_error out1 k = Some s2.
Proof.
  intros Honce.
  induction translated as [|s rest IH]; intros i out0 out1 n v k H Hn Hk;
    [now destruct n|].
  simpl in H.
  destruct (list_index (jobs_brackbags st) i) as [bk|] eqn:Hbk; simpl in H;
    [|discriminate].
  destruct (restore_value _restore_brackets s bk) as [s1|] eqn:Hs1;
    simpl in H; [|discriminate].
  destruct (list_index (jobs_brandbags st) i) as [br|] eqn:Hbr; simpl in H;
    [|discriminate].
  destruct (restore_value _restore_brands s1 br) as [s2|] eqn:Hs2;
    simpl in H; [|discriminate].
  destruct (list_index (jobs_idx st) i) as [j|] eqn:Hj; simpl in H;
    [|discriminate].
  destruct (list_set out0 j s2) as [out'|] eqn:Hset; simpl in H;
    [|discriminate].
  apply list_index_inv in Hbk, Hbr, Hj.
  destruct n as [|n].
  - rewrite Nat.add_0_r in *. simpl in Hn. inversion Hn; subst v.
    assert (j = k) by congruence. subst j.
    exists bk, br, s1, s2. repeat split; auto.
    assert (Hunt : nth_error out1 k = nth_error out' k).
    { eapply splice_untouched; [exact H|].
      intros j' Hj' Hc. specialize (Honce _ _ _ Hc Hk). lia. }
    rewrite Hunt. now apply list_set_inv in Hset as (_ & _ & Hnth & _).
  - simpl in Hn. replace (i + S n) with (S i + n) in * by lia.
    eapply IH; eauto.
Qed.

End BrandPreservation.

Section BrandTheorem.
Context {U : UnicodeData}.

Lemma restore_value_nil (restore : str -> list str -> str) (v : json) :
  restore_value restore v [] = Ok v.
Proof. reflexivity. Qed.

Lemma restore_brands_value (t : str) (bag : list str) :
  restore_value _restore_brands (JStr t) bag
  = Ok (JStr (_restore_brands t bag)).
Proof. now destruct bag. Qed.

(** A queued part is not blank, so its document is not. *)
Lemma queued_not_blank (html : str) (i j : nat) :
  nth_error (jobs_idx (scan_parts (re_split false TAG_RE html))) j = Some i ->
  forallb isspace html = false.
Proof.
  intros Hj. destruct (forallb isspace html) eqn:Hblank; [|reflexivity].
  exfalso.
  destruct (scan_parts_ok (re_split false TAG_RE html)) as [_ _ _ _ _ Hidx _].
  destruct (Hidx i (nth_error_In _ _ Hj)) as (p & Hp & Hq).
  assert (Hpblank : forallb isspace p = true).
  { apply forallb_forall. intros c Hc.
    rewrite forallb_forall in Hblank. apply Hblank.
    rewrite <- (split_concat html).
    apply in_concat. exists p. split; [|assumption].
    eapply nth_error_In; eauto. }
  unfold queued in Hq. apply andb_true_iff in Hq as [_ Hskip].
  apply negb_true_iff in Hskip.
  assert (should_skip_text p = true) by (apply should_skip_text_iff; auto).
  congruence.
Qed.

Lemma spliced_at_job (e : env) (html lang : str) (i j : nat) (p t : str)
    (outl : list json) :
  nth_error (re_split false TAG_RE html) i = Some p ->
  nth_error (jobs_idx (scan_parts (re_split false TAG_RE html))) j = Some i ->
  bracket_free p = true ->
  nth_error
    (_deepl_batch e (jobs (scan_parts (re_split false TAG_RE html))) lang) j
  = Some (JStr t) ->
  spliced e html lang = Ok outl ->
  nth_error outl i
  = Some (JStr (_restore_brands t (snd (_protect_brands p)))).
Proof.
  intros Hp Hj Hfree Ht Hs. unfold spliced in Hs.
  set (st := scan_parts (re_split false TAG_RE html)) in *.
  destruct (scan_jobs _ _ Hj) as (p' & Hp' & Hjob & Hbr & Hbk).
  fold st in Hjob, Hbr, Hbk.
  assert (p' = p) by congruence. subst p'.
  rewrite (@protect_brackets_none _ _ (@protect_brands_bracket_free _ _ Hfree))
    in Hbk.
  cbn [snd] in Hbk.
  destruct (jobs st) as [|x xs] eqn:Hjobs; [now destruct j|].
  rewrite <- Hjobs in *.
  edestruct splice_at
    as (bk & br & s1 & s2 & Hbk' & Hbr' & Hs1 & Hs2 & Hout);
    [apply (scan_idx_once (re_split false TAG_RE html))
    | exact Hs | exact Ht | exact Hj |].
  assert (Hbk0 : Some bk = Some []) by (rewrite <- Hbk', <- Hbk; reflexivity).
  assert (Hbr0 : Some br = Some (snd (_protect_brands p)))
    by (rewrite <- Hbr', <- Hbr; reflexivity).
  inversion Hbk0; subst bk. inversion Hbr0; subst br.
  rewrite restore_value_nil in Hs1. inversion Hs1; subst s1.
  rewrite restore_brands_value in Hs2. inversion Hs2; subst s2.
  exact Hout.
Qed.

End BrandTheorem.

(* ================================================================== *)
(** * Failing open *)
(* ================================================================== *)

Section FailOpen.
Context {U : UnicodeData}.

Lemma subst_bag_txt_cons (bag : list str) :
  forall i x atoms,
    subst_bag bag i (Txt x :: atoms) = Txt x :: subst_bag bag i atoms.
Proof.
  induction bag as [|val bag IH]; intros i x atoms; [reflexivity|].
  cbn [subst_bag map subst_atom]. apply IH.
Qed.

Lemma subst_atom_later (i : nat) (val : str) (atoms : list atom) :
  (forall j, In (Mark j) atoms -> i < j) ->
  map (subst_atom i val) atoms = atoms.
Proof.
  induction atoms as [|a atoms IH]; intros H; [reflexivity|].
  cbn [map]. rewrite IH by (intros j Hj; apply H; now right).
  destruct a as [x|j]; [reflexivity|].
  specialize (H j (or_introl eq_refl)). cbn [subst_atom].
  destruct (Nat.eqb j i) eqn:E; [apply Nat.eqb_eq in E; lia | reflexivity].
Qed.

Lemma plain_firstn (n : nat) (s : str) :
  plain s = true -> plain (firstn n s) = true.
Proof.
  unfold plain. rewrite !forallb_forall. intros H c Hc.
  apply H. rewrite <- (firstn_skipn n s). apply in_or_app. now left.
Qed.

(** The result of the protecting loop on plain text is a clean marked
    text, and filling the new bag entries in gives the text back. *)
Lemma protect_loop_marked (r : re) (s : str) :
  forall prev skip b0 out1 b1,
    sub_loop false r (bag_sub brand_marker) None prev s skip b0 = (out1, b1) ->
    plain s = true ->
    exists ext atoms,
      b1 = b0 ++ ext
      /\ forallb plain ext = true
      /\ out1 = render atoms
      /\ clean atoms = true
      /\ (forall i, In (Mark i) atoms -> length b0 <= i)
      /\ render (subst_bag ext (length b0) atoms) = skipn skip s.
Proof.
  induction s as [|c s IH]; intros prev skip b0 out1 b1 H Hs;
    cbn [sub_loop] in H.
  - inversion H; subst. exists [], []. rewrite List.app_nil_r, skipn_nil.
    repeat split; auto. intros i [].
  - pose proof Hs as Hcs. cbn [plain forallb] in Hs.
    apply andb_true_iff in Hs as [Hc Hs]. fold (plain s) in Hs.
    destruct skip as [|k]; [|now apply (IH _ _ _ _ _ H)].
    destruct (match_at false r prev (c :: s)) as [[[|n] caps]|].
    + destruct (sub_loop _ _ _ _ _ s 0 b0) as [o bg] eqn:E.
      inversion H; subst.
      destruct (IH _ _ _ _ _ E Hs) as (ext & atoms & -> & He & -> & Hcl & Hm & Hr).
      exists ext, (Txt [c] :: atoms). rewrite subst_bag_txt_cons.
      repeat split; auto.
      * change (clean (Txt [c] :: atoms))
          with (plain_char c && true && clean atoms).
        now rewrite Hc, Hcl.
      * intros i [Hi|Hi]; [discriminate | auto].
      * change (render (Txt [c] :: subst_bag ext (length b0) atoms))
          with (c :: render (subst_bag ext (length b0) atoms)).
        now rewrite Hr.
    + cbn [bag_sub option_map group] in H.
      destruct (sub_loop _ _ _ _ _ s n _) as [o bg] eqn:E.
      inversion H; subst.
      destruct (IH _ _ _ _ _ E Hs) as (ext & atoms & -> & He & -> & Hcl & Hm & Hr).
      rewrite length_app in Hm, Hr. cbn [length] in Hm, Hr.
      exists (firstn (S n) (c :: s) :: ext), (Mark (length b0) :: atoms).
      repeat split.
      * now rewrite <- app_assoc.
      * cbn [forallb]. now rewrite (plain_firstn _ _ Hcs), He.
      * exact Hcl.
      * intros i [Hi|Hi]; [inversion Hi; lia | apply Hm in Hi; lia].
      * cbn [subst_bag map subst_atom]. rewrite Nat.eqb_refl.
        rewrite subst_atom_later by (intros j Hj; apply Hm in Hj; lia).
        rewrite subst_bag_txt_cons.
        cbn [render flat_map render_atom].
        replace (S (length b0)) with (length b0 + 1) by lia.
        unfold render in Hr. rewrite Hr.
        change (skipn n s) with (skipn (S n) (c :: s)).
        apply firstn_skipn.
    + destruct (sub_loop _ _ _ _ _ s 0 b0) as [o bg] eqn:E.
      inversion H; subst.
      destruct (IH _ _ _ _ _ E Hs) as (ext & atoms & -> & He & -> & Hcl & Hm & Hr).
      exists ext, (Txt [c] :: atoms). rewrite subst_bag_txt_cons.
      repeat split; auto.
      * change (clean (Txt [c] :: atoms))
          with (plain_char c && true && clean atoms).
        now rewrite Hc, Hcl.
      * intros i [Hi|Hi]; [discriminate | auto].
      * change (render (Txt [c] :: subst_bag ext (length b0) atoms))
          with (c :: render (subst_bag ext (length b0) atoms)).
        now rewrite Hr.
Qed.

(** Protecting the brands of a plain text and restoring them from the
    shielded text gives the text back. *)
Lemma protect_restore_brands (p : str) :
  plain p = true ->
  _restore_brands (fst (_protect_brands p)) (snd (_protect_brands p)) = p.
Proof.
  intros Hp. unfold _protect_brands. destruct p as [|c p]; [reflexivity|].
  destruct TOKEN_RE as [r|]; [|reflexivity].
  destruct (sub_loop _ _ _ _ _ _ _ _) as [o bag] eqn:E. cbn [fst snd].
  destruct (protect_loop_marked _ _ _ _ _ E Hp)
    as (ext & atoms & -> & He & -> & Hcl & _ & Hr).
  unfold _restore_brands. cbn [app].
  rewrite restore_from_marked by assumption. exact Hr.
Qed.

Lemma splice_length (st : scan) (translated : list json) :
  forall i out0 out1,
    splice st translated i out0 = Ok out1 -> length out1 = length out0.
Proof.
  induction translated as [|s rest IH]; intros i out0 out1 H; simpl in H.
  - now inversion H.
  - destruct (list_index (jobs_brackbags st) i); simpl in H; [|discriminate].
    destruct (restore_value _restore_brackets s a) as [s1|]; simpl in H;
      [|discriminate].
    destruct (list_index (jobs_brandbags st) i); simpl in H; [|discriminate].
    destruct (restore_value _restore_brands s1 a0) as [s2|]; simpl in H;
      [|discriminate].
    destruct (list_index (jobs_idx st) i) as [j|]; simpl in H; [|discriminate].
    destruct (list_set out0 j s2) as [out'|] eqn:Hset; simpl in H;
      [|discriminate].
    rewrite (IH _ _ _ H). now apply list_set_inv in Hset as (_ & Hl & _).
Qed.

Lemma spliced_length (e : env) (html lang : str) (outl : list json) :
  spliced e html lang = Ok outl ->
  length outl = length (re_split false TAG_RE html).
Proof.
  unfold spliced. intros H.
  destruct (scan_parts_ok (re_split false TAG_RE html)) as [Hlen _ _ _ _ _ _].
  destruct (jobs _).
  - inversion H; subst. exact Hlen.
  - apply splice_length in H. now rewrite H.
Qed.

Lemma forallb_map_JStr (l : list str) : forallb is_string (map JStr l) = true.
Proof. induction l; simpl; auto. Qed.

End FailOpen.


(* ================================================================== *)
(** * Further properties: the language normalizer *)
(* ================================================================== *)

Section Normalizer.
Context {U : UnicodeData}.

Lemma dict_get_in (V : Type) (d : list (str * V)) (key : str) (v : V) :
  dict_get d key = Some v -> In (key, v) d.
Proof.
  induction d as [|[k x] d IH]; simpl; [discriminate|].
  destruct (str_eqb k key) eqn:E.
  - apply str_eqb_eq in E. subst. intros H. inversion H. now left.
  - auto.
Qed.

Lemma normalise_lang_cases (s : str) :
  normalise_lang s = lit "en"
  \/ (s <> [] /\ In (lower (strip s), normalise_lang s) LANG_MAP).
Proof.
  unfold normalise_lang. destruct s as [|c s]; [now left|].
  destruct (dict_get LANG_MAP (lower (strip (c :: s)))) as [v|] eqn:E;
    [|now left].
  right. split; [discriminate|]. now apply dict_get_in.
Qed.

Lemma normalise_lang_supported (s : str) :
  In (normalise_lang s) SUPPORTED_LANGS.
Proof.
  destruct (normalise_lang_cases s) as [->|[_ H]]; [now left|].
  unfold LANG_MAP in H. cbn [In] in H. unfold SUPPORTED_LANGS. cbn [In].
  repeat (destruct H as [H|H];
          [inversion H; clear H; auto 10|]).
  destruct H.
Qed.

Lemma normalise_lang_fixed (v : str) :
  In v SUPPORTED_LANGS -> normalise_lang v = v.
Proof.
  unfold SUPPORTED_LANGS. cbn [In]. intros H.
  repeat (destruct H as [<-|H]; [vm_compute; reflexivity|]).
  destruct H.
Qed.

Lemma lstrip_idem (s : str) : lstrip (lstrip s) = lstrip s.
Proof.
  induction s as [|c s IH]; simpl; [reflexivity|].
  destruct (isspace c) eqn:E; [assumption|].
  simpl. now rewrite E.
Qed.

(** Stripping on the left stops at a character that is no whitespace. *)
Lemma lstrip_snoc (a : str) (c : char) :
  isspace c = false -> exists y, lstrip (a ++ [c]) = y ++ [c].
Proof.
  intros Hc. induction a as [|x a IH]; simpl.
  - rewrite Hc. now exists [].
  - destruct (isspace x); [assumption|]. now exists (x :: a).
Qed.

Lemma lstrip_head (c : char) (s : str) :
  isspace c = false -> lstrip (c :: s) = c :: s.
Proof. intros H. simpl. now rewrite H. Qed.

Lemma strip_idem (s : str) : strip (strip s) = strip s.
Proof.
  unfold strip, rstrip.
  destruct (lstrip s) as [|c x] eqn:Hx; [reflexivity|].
  assert (Hc : isspace c = false).
  { destruct (isspace c) eqn:E; [|reflexivity]. exfalso.
    assert (H : lstrip (lstrip s) = lstrip s) by apply lstrip_idem.
    rewrite Hx in H. simpl in H. rewrite E in H.
    apply (f_equal (@length char)) in H. simpl in H.
    assert (Hle : forall l, length (lstrip l) <= length l).
    { clear. induction l as [|y l IH]; simpl; [lia|].
      destruct (isspace y); simpl; lia. }
    specialize (Hle x). lia. }
  cbn [rev].
  destruct (@lstrip_snoc (rev x) c Hc) as [y Hy]. rewrite Hy.
  rewrite rev_app_distr. cbn [rev app].
  rewrite (@lstrip_head c (rev y) Hc).
  replace (c :: rev y) with (rev (y ++ [c]))
    by (rewrite rev_app_distr; reflexivity).
  rewrite rev_involutive, <- Hy, lstrip_idem. reflexivity.
Qed.

End Normalizer.

(** X1. Whatever it is given, [normalise_lang] answers one of the eight
    supported codes, and on each of those it answers the code itself: it is
    idempotent. *)
Theorem normalise_lang_closed (U : UnicodeData) (s : str) :
  In (normalise_lang s) SUPPORTED_LANGS
  /\ normalise_lang (normalise_lang s) = normalise_lang s.
Proof.
  split; [apply normalise_lang_supported|].
  apply normalise_lang_fixed, normalise_lang_supported.
Qed.

(** X2. [normalise_lang] does not see the whitespace around a code: the
    trimmed string normalizes to what the string normalizes to. *)
Theorem normalise_lang_trims (U : UnicodeData) (s : str) :
  normalise_lang (strip s) = normalise_lang s.
Proof.
  unfold normalise_lang at 1.
  destruct (strip s) as [|c x] eqn:Hs.
  - unfold normalise_lang. destruct s as [|d s]; [reflexivity|].
    rewrite Hs. reflexivity.
  - rewrite <- Hs, strip_idem. unfold normalise_lang.
    destruct s as [|d s]; [discriminate|reflexivity].
Qed.

(** X3. [is_rtl] holds exactly for the codes that, trimmed and
    lower-cased, are [ar]. *)
Theorem is_rtl_iff (U : UnicodeData) (lang : str) :
  is_rtl lang = true <-> lang <> [] /\ lower (strip lang) = lit "ar".
Proof.
  unfold is_rtl, RTL. cbn [existsb]. rewrite orb_false_r, str_eqb_eq.
  split.
  - intros H. destruct (normalise_lang_cases lang) as [He|[Hne Hin]].
    + rewrite He in H. discriminate.
    + split; [assumption|]. rewrite H in Hin.
      unfold LANG_MAP in Hin. cbn [In] in Hin.
      repeat (destruct Hin as [Hin|Hin];
              [apply pair_equal_spec in Hin; destruct Hin as [Hk Hv];
               first [ now (vm_compute in Hv; discriminate Hv)
                     | now symmetry ]|]).
      destruct Hin.
  - intros [Hne H]. unfold normalise_lang.
    destruct lang as [|c l]; [congruence|]. rewrite H. reflexivity.
Qed.

Lemma set_lang_stashes (U : UnicodeData) (req : request) :
  _pen_lang (_set_lang req)
  = Some (normalise_lang
            (or_default (dict_get (args req) (lit "lang")) (lit "en")))
  /\ args (_set_lang req) = args req.
Proof.
  set (raw := or_default (dict_get (args req) (lit "lang")) (lit "en")).
  assert (Hex : existsb (str_eqb (normalise_lang raw)) SUPPORTED_LANGS = true).
  { apply existsb_exists. exists (normalise_lang raw).
    split; [apply normalise_lang_supported|apply str_eqb_refl]. }
  split; [|reflexivity].
  unfold _set_lang. fold raw. cbn [_pen_lang]. now rewrite Hex.
Qed.

(** X4. [_set_lang] stashes the normalized [lang] argument of the request
    ([en] when there is none), which is always one of the supported codes:
    the clamp after the normalizer never changes it.  The arguments of the
    request are left as they were. *)
Theorem set_lang_supported (U : UnicodeData) (req : request) :
  _pen_lang (_set_lang req)
  = Some (normalise_lang (or_default (dict_get (args req) (lit "lang")) (lit "en")))
  /\ (exists lang, _pen_lang (_set_lang req) = Some lang
                   /\ In lang SUPPORTED_LANGS)
  /\ args (_set_lang req) = args req.
Proof.
  set (raw := or_default (dict_get (args req) (lit "lang")) (lit "en")).
  assert (Hex : existsb (str_eqb (normalise_lang raw)) SUPPORTED_LANGS = true).
  { apply existsb_exists. exists (normalise_lang raw).
    split; [apply normalise_lang_supported|apply str_eqb_refl]. }
  assert (H : _pen_lang (_set_lang req) = Some (normalise_lang raw)).
  { unfold _set_lang. fold raw. cbn [_pen_lang]. now rewrite Hex. }
  split; [exact H|]. split; [|reflexivity].
  exists (normalise_lang raw). split; [exact H|apply normalise_lang_supported].
Qed.

(* ================================================================== *)
(** * Further properties: the response hook *)
(* ================================================================== *)

(** X5. The hook keeps the status code and the pass-through flag, and the
    body it leaves is either the body it found or a translation that
    [translate_html_fragment] returned for that body and the request's
    language, one that is not blank; so a body that is not blank is never
    replaced by a blank one, nor by the error page. *)
Theorem hook_body (U : UnicodeData) (e : env) (req : request)
    (resp : response) :
  let out := _translate_response e req resp in
  status_code out = status_code resp
  /\ direct_passthrough out = direct_passthrough resp
  /\ (data out = data resp
      \/ (translate_html_fragment e (data resp)
            (or_default (_pen_lang req) (lit "en")) = Ok (data out)
          /\ strip (data out) <> []))
  /\ (strip (data resp) <> [] -> strip (data out) <> []).
Proof.
  cbv zeta. unfold _translate_response.
  destruct (str_eqb _ (lit "off")); [repeat split; auto|].
  destruct (_ && _ && _ && _); [|repeat split; auto].
  assert (Hback :
    status_code match set_data resp (data resp) with
                | Ok resp1 => resp1
                | Raised _ => resp
                end = status_code resp
    /\ direct_passthrough match set_data resp (data resp) with
                          | Ok resp1 => resp1
                          | Raised _ => resp
                          end = direct_passthrough resp
    /\ data match set_data resp (data resp) with
            | Ok resp1 => resp1
            | Raised _ => resp
            end = data resp).
  { unfold set_data. destruct (forallb encodable (data resp)); cbn; auto. }
  destruct Hback as (Hb1 & Hb2 & Hb3).
  destruct (strip (data resp)) as [|c x] eqn:Hs; [repeat split; auto|].
  destruct (translate_html_fragment e (data resp) _) as [t|ex] eqn:Ht.
  - destruct t as [|d t].
    { rewrite Hb1, Hb2, Hb3, Hs. repeat split; auto. }
    destruct (strip (d :: t)) as [|d' t'] eqn:Hst.
    { rewrite Hb1, Hb2, Hb3, Hs. repeat split; auto. }
    unfold set_data. destruct (forallb encodable (d :: t)).
    + unfold setdefault_header.
      destruct (headers_get _ (lit "Cache-Control"));
        cbn [status_code direct_passthrough data set_header with_data];
        rewrite Hst;
        (repeat split; auto; try discriminate; right; split;
         [reflexivity|discriminate]).
    + rewrite Hs. repeat split; auto.
  - rewrite Hs. repeat split; auto.
Qed.

(** X6. When [translate_html_fragment] raises on the body, the hook hands
    the response back as it received it. *)
Theorem hook_on_exception (U : UnicodeData) (e : env) (req : request)
    (resp : response) (ex : exn) :
  translate_html_fragment e (data resp)
    (or_default (_pen_lang req) (lit "en")) = Raised ex ->
  _translate_response e req resp = resp.
Proof.
  intros Hr. unfold _translate_response.
  destruct (str_eqb _ (lit "off")); [reflexivity|].
  destruct (_ && _ && _ && _); [|reflexivity].
  destruct (strip (data resp)) as [|c x] eqn:Hs; [reflexivity|].
  rewrite Hr. reflexivity.
Qed.

(* ================================================================== *)
(** * Further properties: the markers, whatever the text *)
(* ================================================================== *)

(** The name of a marker has no underscore, so an occurrence of the name
    never runs over one. *)
Lemma startswith_prefix (a b t : str) :
  startswith (a ++ b) t = true -> startswith a t = true.
Proof.
  revert t; induction a as [|c a IH]; intros t H; [reflexivity|].
  destruct t as [|d t]; cbn [app startswith] in *; [discriminate|].
  apply andb_true_iff in H as [-> H]. cbn [andb]. now apply IH.
Qed.

Lemma startswith_stops (p a b : str) :
  plain p = true ->
  startswith p (a ++ ch "_" :: b) = true -> startswith p a = true.
Proof.
  change (ch "_") with 95%N.
  revert a; induction p as [|c p IH]; intros a Hp H; [reflexivity|].
  cbn [plain forallb] in Hp. apply andb_true_iff in Hp as [Hc Hp].
  destruct a as [|d a]; cbn [app startswith] in *.
  - apply plain_char_neq in Hc as [Hc _]. rewrite Hc in H. discriminate.
  - apply andb_true_iff in H as [-> H]. cbn [andb]. now apply IH with (a := a).
Qed.

Lemma startswith_stops_nil (p a r : str) :
  plain p = true ->
  r = [] \/ (exists b, r = ch "_" :: b) ->
  startswith p (a ++ r) = true -> startswith p a = true.
Proof.
  intros Hp [->|[b ->]] H.
  - now rewrite List.app_nil_r in H.
  - now apply startswith_stops in H.
Qed.

Lemma name_free_cons (name : str) (c : char) (s : str) :
  name_free name (c :: s) = true ->
  startswith name (c :: s) = false /\ name_free name s = true.
Proof.
  unfold name_free. cbn [contains]. intros H.
  apply negb_true_iff, orb_false_iff in H as [H1 H2].
  now rewrite H1, H2.
Qed.

Lemma name_free_app (name a b : str) :
  name_free name (a ++ b) = true ->
  name_free name a = true /\ name_free name b = true.
Proof.
  unfold name_free. intros H. apply negb_true_iff in H.
  split; apply negb_true_iff.
  - destruct (contains name a) eqn:E; [|reflexivity].
    now rewrite (contains_app_l _ _ b E) in H.
  - destruct (contains name b) eqn:E; [|reflexivity].
    now rewrite (contains_app_r _ a _ E) in H.
Qed.

Lemma name_free_head (name s : str) :
  name_free name s = true -> name <> [] -> startswith name s = false.
Proof.
  intros H Hne. destruct s as [|c s].
  - destruct name; [congruence|reflexivity].
  - now apply name_free_cons in H.
Qed.

Lemma plain_not_underscore (p t : str) :
  plain p = true -> p <> [] -> startswith p (ch "_" :: t) = false.
Proof.
  change (ch "_") with 95%N. intros Hp Hne.
  destruct p as [|c p]; [congruence|].
  cbn [plain forallb] in Hp. apply andb_true_iff in Hp as [Hc _].
  apply plain_char_neq in Hc as [Hc _]. cbn [startswith]. now rewrite Hc.
Qed.

Lemma underscore_not_plain (p x y : str) :
  plain p = true -> p <> [] -> startswith (ch "_" :: x) (p ++ y) = false.
Proof.
  change (ch "_") with 95%N. intros Hp Hne.
  destruct p as [|c p]; [congruence|].
  cbn [plain forallb] in Hp. apply andb_true_iff in Hp as [Hc _].
  apply plain_char_neq in Hc as [_ Hc]. cbn [app startswith]. now rewrite Hc.
Qed.

Lemma startswith_cons (c d : char) (p s : str) :
  startswith (c :: p) (d :: s) = char_eqb c d && startswith p s.
Proof. reflexivity. Qed.

Lemma marker_of_split (name : str) (i : nat) :
  marker_of name i
  = (ch "_" :: ch "_" :: name ++ [ch "_"]) ++ str_of_nat i ++ ch "_" :: [ch "_"].
Proof. unfold marker_of. cbn [app]. now rewrite <- app_assoc. Qed.

Section Names.

Variable name : str.
Hypothesis name_plain : plain name = true.
Hypothesis name_ne : name <> [].

#[local] Arguments char_eqb : simpl never.

Lemma opens_marker_stop (r : str) :
  opens_marker r -> r = [] \/ (exists b, r = ch "_" :: b).
Proof. intros [->|[b ->]]; [now left|right; eauto]. Qed.

Lemma tail_marked_opens (i : nat) (rest : list (str * str)) :
  opens_marker (tail_marked (marker_of name) i rest).
Proof.
  destruct rest as [|[v g] rest]; [now left|].
  right. cbn [tail_marked]. unfold marker_of. cbn [app]. eauto.
Qed.

(** Where a marker starts, its name starts two characters on. *)
Lemma marker_name (j : nat) (c d : char) (t : str) :
  startswith (marker_of name j) (c :: d :: t) = true ->
  startswith name t = true.
Proof.
  unfold marker_of. cbn [startswith]. intros H.
  apply andb_true_iff in H as [_ H]. apply andb_true_iff in H as [_ H].
  now apply startswith_prefix in H.
Qed.

Lemma name_not_at (g r : str) :
  name_free name g = true -> opens_marker r ->
  startswith name (g ++ r) = false.
Proof.
  intros Hg Hr. destruct (startswith name (g ++ r)) eqn:E; [|reflexivity].
  apply startswith_stops_nil in E;
    [|exact name_plain|now apply opens_marker_stop].
  now rewrite (name_free_head _ Hg name_ne) in E.
Qed.

(** No marker starts inside a stretch of text in which the name does not
    occur, when nothing or a marker follows it. *)
Lemma gap_no_hit (j : nat) (g r : str) :
  name_free name g = true -> opens_marker r ->
  no_hit (marker_of name j) g r.
Proof.
  intros Hg Hr. induction g as [|c g IH]; [exact I|].
  apply name_free_cons in Hg as [Hhead Hg].
  split; [|now apply IH].
  destruct (startswith (marker_of name j) ((c :: g) ++ r)) eqn:E;
    [exfalso|reflexivity].
  cbn [app] in E. destruct g as [|d g]; cbn [app] in E.
  - destruct Hr as [->|[b ->]].
    + unfold marker_of in E. cbn [startswith] in E.
      now rewrite andb_false_r in E.
    + apply marker_name in E.
      now rewrite plain_not_underscore in E.
  - apply marker_name in E. apply name_free_cons in Hg as [_ Hg].
    now rewrite name_not_at in E.
Qed.

(** No marker starts inside the marker of another number. *)
Lemma marker_of_no_hit (i j : nat) (g r : str) :
  i <> j -> name_free name g = true -> opens_marker r ->
  no_hit (marker_of name j) (marker_of name i) (g ++ r).
Proof.
  intros Hij Hg Hr.
  destruct (str_of_nat_cons i) as (d & ds & Hd & Hdp).
  pose proof (str_of_nat_plain i) as Hpi.
  pose proof (str_of_nat_plain j) as Hpj.
  apply plain_char_neq in Hdp as [Hdp Hdp'].
  assert (H0 : startswith (marker_of name j) (marker_of name i ++ g ++ r)
               = false).
  { destruct (startswith _ _) eqn:E; [exfalso|reflexivity].
    rewrite !marker_of_split in E. rewrite <- app_assoc in E.
    rewrite startswith_cancel in E. rewrite <- app_assoc in E.
    cbn [app] in E. apply digits_prefix in E; try assumption.
    apply str_of_nat_inj in E. congruence. }
  unfold marker_of at 2. cbn [no_hit]. split; [exact H0|]. split.
  - unfold marker_of. cbn [app]. rewrite <- app_assoc, startswith_cons.
    rewrite underscore_not_plain by assumption. apply andb_false_r.
  - apply no_hit_app.
    + unfold marker_of. apply no_hit_other. exact name_plain.
    + cbn [no_hit]. split.
      * unfold marker_of. rewrite Hd. change (ch "_") with 95%N.
        cbn [app startswith]. rewrite Hdp'. now rewrite andb_false_r.
      * apply no_hit_app; [unfold marker_of; apply no_hit_other; exact Hpi|].
        cbn [no_hit app]. repeat split.
        -- match goal with |- ?x = false => destruct x eqn:E end; [|reflexivity].
           apply marker_name in E. now rewrite name_not_at in E.
        -- match goal with |- ?x = false => destruct x eqn:E end;
             [exfalso|reflexivity].
           destruct g as [|c g]; cbn [app] in E.
           ++ destruct Hr as [->|[b ->]].
              ** unfold marker_of in E. cbn [startswith] in E.
                 now rewrite andb_false_r in E.
              ** apply marker_name in E.
                 now rewrite plain_not_underscore in E.
           ++ apply marker_name in E. apply name_free_cons in Hg as [_ Hg].
              now rewrite name_not_at in E.
Qed.

(** A replacement of the marker [k] leaves what comes after it alone. *)
Lemma tail_untouched (k : nat) (v : str) (rest : list (str * str)) :
  forall i g,
    k < i -> name_free name g = true ->
    Forall (fun vg => name_free name (snd vg) = true) rest ->
    replace (marker_of name k) v (g ++ tail_marked (marker_of name) i rest)
    = g ++ tail_marked (marker_of name) i rest.
Proof.
  induction rest as [|[v' g'] rest IH]; intros i g Hk Hg Hall;
    cbn [tail_marked].
  - rewrite replace_pass by (apply gap_no_hit; [assumption|now left]).
    reflexivity.
  - inversion Hall as [|? ? Hg' Hrest]; subst. cbn [snd] in Hg'.
    rewrite replace_pass
      by (apply gap_no_hit; [assumption|];
          right; unfold marker_of; cbn [app]; eauto).
    rewrite replace_pass
      by (apply marker_of_no_hit;
          [lia|assumption|apply tail_marked_opens]).
    rewrite IH by (try assumption; lia). reflexivity.
Qed.

Lemma free_gaps (rest : list (str * str)) :
  forall pre,
    name_free name (pre ++ tail_filled rest) = true ->
    Forall (fun vg => name_free name (snd vg) = true) rest.
Proof.
  induction rest as [|[v g] rest IH]; intros pre H; constructor.
  - cbn [tail_filled snd] in *.
    apply name_free_app in H as [_ H]. apply name_free_app in H as [_ H].
    now apply name_free_app in H as [H _].
  - apply (IH (pre ++ v ++ g)). cbn [tail_filled] in H.
    now rewrite <- !app_assoc.
Qed.

(** The restoring loop on a shielded text: every marker gives way to its
    value, when the name of the markers does not occur in the result. *)
Lemma restore_tail (rest : list (str * str)) :
  forall k pre,
    name_free name (pre ++ tail_filled rest) = true ->
    restore_from (marker_of name)
      (pre ++ tail_marked (marker_of name) k rest) (map fst rest) k
    = pre ++ tail_filled rest.
Proof.
  induction rest as [|[v g] rest IH]; intros k pre H; [reflexivity|].
  cbn [map fst restore_from tail_marked tail_filled] in *.
  pose proof (free_gaps ((v, g) :: rest) pre H) as Hall.
  inversion Hall as [|? ? Hg Hrest]; subst. cbn [snd] in Hg.
  pose proof (name_free_app _ _ _ H) as [Hpre _].
  rewrite replace_pass
    by (apply gap_no_hit; [assumption|];
        right; unfold marker_of; cbn [app]; eauto).
  rewrite replace_hit by (unfold marker_of; discriminate).
  rewrite tail_untouched by (try assumption; lia).
  replace (pre ++ v ++ g ++ tail_marked (marker_of name) (S k) rest)
    with ((pre ++ v ++ g) ++ tail_marked (marker_of name) (S k) rest)
    by (now rewrite <- !app_assoc).
  rewrite IH by (now rewrite <- !app_assoc).
  now rewrite <- !app_assoc.
Qed.

End Names.

Section RoundTrip.
Context {U : UnicodeData}.

(** The shape of what the protecting loop returns, whatever the text: a
    first stretch, then for each match its marker and the stretch after
    it; with the matches in the place of the markers it is the text. *)
Lemma protect_loop_shape (r : re) (marker : nat -> str) (s : str) :
  forall prev skip b0 out1 b1,
    sub_loop false r (bag_sub marker) None prev s skip b0 = (out1, b1) ->
    exists g rest,
      out1 = g ++ tail_marked marker (length b0) rest
      /\ b1 = b0 ++ map fst rest
      /\ skipn skip s = g ++ tail_filled rest.
Proof.
  induction s as [|c s IH]; intros prev skip b0 out1 b1 H;
    cbn [sub_loop] in H.
  - inversion H; subst. exists [], [].
    cbn [tail_marked tail_filled map app].
    now rewrite List.app_nil_r, skipn_nil.
  - destruct skip as [|k]; [|now apply (IH _ _ _ _ _ H)].
    destruct (match_at false r prev (c :: s)) as [[[|n] caps]|].
    + destruct (sub_loop _ _ _ _ _ s 0 b0) as [o bg] eqn:E.
      inversion H; subst.
      destruct (IH _ _ _ _ _ E) as (g & rest & -> & -> & Hr).
      exists (c :: g), rest. cbn [skipn app] in *.
      repeat split. now rewrite Hr.
    + cbn [bag_sub option_map group] in H.
      destruct (sub_loop _ _ _ _ _ s n _) as [o bg] eqn:E.
      inversion H; subst.
      destruct (IH _ _ _ _ _ E) as (g & rest & -> & -> & Hr).
      rewrite length_app in *. cbn [length] in *.
      exists [], ((firstn (S n) (c :: s), g) :: rest).
      cbn [tail_marked tail_filled map fst app].
      replace (length b0 + 1) with (S (length b0)) by lia.
      repeat split.
      * now rewrite <- app_assoc.
      * rewrite <- Hr. change (skipn n s) with (skipn (S n) (c :: s)).
        cbn [skipn]. symmetry. apply (firstn_skipn (S n) (c :: s)).
    + destruct (sub_loop _ _ _ _ _ s 0 b0) as [o bg] eqn:E.
      inversion H; subst.
      destruct (IH _ _ _ _ _ E) as (g & rest & -> & -> & Hr).
      exists (c :: g), rest. cbn [skipn app] in *.
      repeat split. now rewrite Hr.
Qed.

(** Protecting and restoring with the markers of one name gives the text
    back, when the name does not occur in the text. *)
Lemma protect_restore (name : str) (r : re) (s out1 : str) (bag : list str) :
  plain name = true -> name <> [] ->
  sub_loop false r (bag_sub (marker_of name)) None None s 0 [] = (out1, bag) ->
  name_free name s = true ->
  restore_from (marker_of name) out1 bag 0 = s.
Proof.
  intros Hp Hne H Hs.
  destruct (protect_loop_shape _ _ _ _ _ _ H) as (g & rest & -> & -> & Hr).
  cbn [skipn length app] in *. subst s.
  now apply restore_tail.
Qed.

Lemma brand_marker_of : brand_marker = marker_of (lit "PENBRAND").
Proof. reflexivity. Qed.

Lemma brack_marker_of : brack_marker = marker_of (lit "PENPROT").
Proof. reflexivity. Qed.

Lemma brands_round_trip (p : str) :
  name_free (lit "PENBRAND") p = true ->
  _restore_brands (fst (_protect_brands p)) (snd (_protect_brands p)) = p.
Proof.
  intros Hp. unfold _protect_brands. destruct p as [|c p]; [reflexivity|].
  destruct TOKEN_RE as [r|]; [|reflexivity].
  destruct (sub_loop _ _ _ _ _ _ _ _) as [o bag] eqn:E. cbn [fst snd].
  unfold _restore_brands. rewrite brand_marker_of in *.
  eapply protect_restore; eauto. discriminate.
Qed.

Lemma brackets_round_trip (s : str) :
  name_free (lit "PENPROT") s = true ->
  _restore_brackets (fst (_protect_brackets s)) (snd (_protect_brackets s)) = s.
Proof.
  intros Hs. unfold _protect_brackets. destruct s as [|c s]; [reflexivity|].
  destruct (sub_loop _ _ _ _ _ _ _ _) as [o bag] eqn:E. cbn [fst snd].
  unfold _restore_brackets. rewrite brack_marker_of in *.
  eapply protect_restore; eauto. discriminate.
Qed.

(** The two names next to each other: the markers of the brands bring no
    occurrence of the name of the placeholder markers into a text. *)
Lemma name_free_underscore (n t : str) :
  plain n = true -> n <> [] ->
  name_free n t = true -> name_free n (ch "_" :: t) = true.
Proof.
  intros Hp Hne Ht. unfold name_free in *. cbn [contains].
  rewrite plain_not_underscore by assumption.
  exact Ht.
Qed.

Lemma name_free_join (n a b : str) :
  plain n = true ->
  name_free n a = true -> name_free n (ch "_" :: b) = true ->
  name_free n (a ++ ch "_" :: b) = true.
Proof.
  intros Hp Ha Hb. induction a as [|c a IH]; [exact Hb|].
  apply name_free_cons in Ha as [Hhead Ha].
  unfold name_free. cbn [app contains].
  destruct (startswith n (c :: a ++ ch "_" :: b)) eqn:E.
  - apply (startswith_stops n (c :: a) b Hp) in E. congruence.
  - cbn [orb]. now apply IH.
Qed.

Lemma digits_name_free (i : nat) :
  name_free (lit "PENPROT") (str_of_nat i) = true.
Proof.
  unfold str_of_nat. induction (Nat.to_uint i) as [|d IH|d IH|d IH|d IH|d IH
    |d IH|d IH|d IH|d IH|d IH]; [reflexivity|..];
    unfold name_free in *; cbn [uint_chars contains];
    (replace (startswith (lit "PENPROT") _) with false
       by (symmetry; reflexivity)); exact IH.
Qed.

Lemma brand_marker_name_free (i : nat) (w : str) :
  name_free (lit "PENPROT") w = true ->
  name_free (lit "PENPROT") (brand_marker i ++ w) = true.
Proof.
  intros Hw.
  assert (Hp : plain (lit "PENPROT") = true) by reflexivity.
  assert (Hne : lit "PENPROT" <> []) by discriminate.
  unfold brand_marker. rewrite <- !app_assoc.
  change (lit "__PENBRAND_" ++ str_of_nat i ++ lit "__" ++ w)
    with (ch "_" :: ch "_" :: lit "PENBRAND"
            ++ ch "_" :: str_of_nat i ++ ch "_" :: ch "_" :: w).
  apply name_free_underscore; [assumption|assumption|].
  apply name_free_underscore; [assumption|assumption|].
  apply name_free_join; [assumption|reflexivity|].
  apply name_free_underscore; [assumption|assumption|].
  apply name_free_join; [assumption|apply digits_name_free|].
  apply name_free_underscore; [assumption|assumption|].
  now apply name_free_underscore.
Qed.

Lemma brands_tail_name_free (rest : list (str * str)) :
  forall i g,
    name_free (lit "PENPROT") g = true ->
    Forall (fun vg => name_free (lit "PENPROT") (snd vg) = true) rest ->
    name_free (lit "PENPROT") (g ++ tail_marked brand_marker i rest) = true.
Proof.
  induction rest as [|[v g'] rest IH]; intros i g Hg Hall;
    cbn [tail_marked].
  - now rewrite List.app_nil_r.
  - inversion Hall as [|? ? Hg' Hrest]; subst. cbn [snd] in Hg'.
    pose proof (@brand_marker_name_free i _ (IH (S i) g' Hg' Hrest)) as Hm.
    unfold brand_marker in *. rewrite <- !app_assoc in *.
    apply (@name_free_join (lit "PENPROT") g
             (lit "_PENBRAND_" ++ str_of_nat i ++ lit "__" ++ g'
                ++ tail_marked
                     (fun i => lit "__PENBRAND_" ++ str_of_nat i ++ lit "__")
                     (S i) rest));
      [reflexivity|assumption|exact Hm].
Qed.

(** The text shielded from the brands has no occurrence of the name of
    the placeholder markers when the text itself has none. *)
Lemma protect_brands_name_free (p : str) :
  name_free (lit "PENPROT") p = true ->
  name_free (lit "PENPROT") (fst (_protect_brands p)) = true.
Proof.
  intros Hp. unfold _protect_brands. destruct p as [|c p]; [assumption|].
  destruct TOKEN_RE as [r|]; [|assumption].
  destruct (sub_loop _ _ _ _ _ _ _ _) as [o bag] eqn:E. cbn [fst].
  destruct (protect_loop_shape _ _ _ _ _ _ E) as (g & rest & -> & _ & Hr).
  cbn [skipn length] in *. rewrite Hr in Hp.
  apply brands_tail_name_free.
  - now apply name_free_app in Hp.
  - apply (@free_gaps (lit "PENPROT") rest g Hp).
Qed.

(** Both protections, then both restorations in the reverse order, give
    the text back when it names neither kind of marker. *)
Lemma codec_round_trip (p : str) :
  name_free (lit "PENBRAND") p = true ->
  name_free (lit "PENPROT") p = true ->
  _restore_brands
    (_restore_brackets
       (fst (_protect_brackets (fst (_protect_brands p))))
       (snd (_protect_brackets (fst (_protect_brands p)))))
    (snd (_protect_brands p))
  = p.
Proof.
  intros Hb Hk.
  rewrite brackets_round_trip by now apply protect_brands_name_free.
  now apply brands_round_trip.
Qed.

End RoundTrip.

(** X7. Protecting the brands of a text and restoring them from the
    shielded text gives the text back, for every text in which the name of
    the brand markers, PENBRAND, does not occur; underscores, placeholders
    and look-alikes of other markers do no harm. *)
Theorem brands_protect_restore (U : UnicodeData) (p : str) :
  contains (lit "PENBRAND") p = false ->
  _restore_brands (fst (_protect_brands p)) (snd (_protect_brands p)) = p.
Proof.
  intros H. apply brands_round_trip. unfold name_free. now rewrite H.
Qed.

Lemma brands_protect_restore_witness :
  contains (lit "PENBRAND") (lit "The __PEN.ai__ team_1 at More House") = false
  /\ _restore_brands
       (fst (_protect_brands (U := ascii_tables)
               (lit "The __PEN.ai__ team_1 at More House")))
       (snd (_protect_brands (U := ascii_tables)
               (lit "The __PEN.ai__ team_1 at More House")))
     = lit "The __PEN.ai__ team_1 at More House".
Proof.
  split; [reflexivity|].
  apply (@brands_protect_restore ascii_tables). reflexivity.
Defined.

(** X8. Protecting the template placeholders of a text and restoring them
    gives the text back, for every text in which the name of the
    placeholder markers, PENPROT, does not occur. *)
Theorem brackets_protect_restore (U : UnicodeData) (s : str) :
  contains (lit "PENPROT") s = false ->
  _restore_brackets (fst (_protect_brackets s)) (snd (_protect_brackets s)) = s.
Proof.
  intros H. apply brackets_round_trip. unfold name_free. now rewrite H.
Qed.

Lemma brackets_protect_restore_witness :
  contains (lit "PENPROT") (lit "Dear {{first_name}}, see [[link_1]] {{x") = false
  /\ _restore_brackets
       (fst (_protect_brackets (U := ascii_tables)
               (lit "Dear {{first_name}}, see [[link_1]] {{x")))
       (snd (_protect_brackets (U := ascii_tables)
               (lit "Dear {{first_name}}, see [[link_1]] {{x")))
     = lit "Dear {{first_name}}, see [[link_1]] {{x".
Proof.
  split; [reflexivity|].
  apply (@brackets_protect_restore ascii_tables). reflexivity.
Defined.

(* ================================================================== *)
(** * Further properties: translate_text *)
(* ================================================================== *)

Section TranslateText.
Context {U : UnicodeData}.

Lemma restore_brackets_value (t : str) (bag : list str) :
  restore_value _restore_brackets (JStr t) bag
  = Ok (JStr (_restore_brackets t bag)).
Proof. now destruct bag. Qed.

(** The batch client hands its input back when no key is configured and
    when the call fails. *)
Lemma deepl_batch_back (e : env) (texts : list str) (lang : str) :
  DEEPL_API_KEY e = []
  \/ (forall url data params, provider e url data params = None) ->
  _deepl_batch e texts lang = map JStr texts.
Proof.
  intros [Hkey|Hfail].
  - apply deepl_batch_identity. auto.
  - apply deepl_batch_fail_open. unfold provider_answer.
    destruct (DEEPL_URL e); [apply Hfail | reflexivity].
Qed.

Lemma translate_text_back (e : env) (text lang : str) :
  DEEPL_API_KEY e = []
  \/ (forall url data params, provider e url data params = None) ->
  name_free (lit "PENBRAND") text = true ->
  name_free (lit "PENPROT") text = true ->
  translate_text e text lang = Ok (JStr text).
Proof.
  intros He Hb Hk. unfold translate_text.
  destruct text as [|c text]; [reflexivity|].
  destruct (strip (c :: text)); [reflexivity|].
  destruct (str_eqb _ _); [reflexivity|].
  pose proof (codec_round_trip _ Hb Hk) as Hrt.
  destruct (_protect_brands (c :: text)) as [s1 brands].
  cbn [fst snd] in Hrt.
  destruct (_protect_brackets s1) as [s2 bracks]. cbn [fst snd] in Hrt.
  rewrite deepl_batch_back by assumption.
  cbn [map list_index nth_error bind].
  rewrite restore_brackets_value. cbn [bind].
  rewrite restore_brands_value. now rewrite Hrt.
Qed.

Lemma translate_text_string (e : env) (text lang : str) :
  forallb is_string
    (_deepl_batch e
       [fst (_protect_brackets (fst (_protect_brands text)))]
       (normalise_lang lang)) = true ->
  exists t, translate_text e text lang = Ok (JStr t).
Proof.
  intros Hs. unfold translate_text.
  destruct text as [|c text]; [eauto|].
  destruct (strip (c :: text)); [eauto|].
  destruct (str_eqb _ _); [eauto|].
  destruct (_protect_brands (c :: text)) as [s1 brands].
  cbn [fst] in Hs.
  destruct (_protect_brackets s1) as [s2 bracks]. cbn [fst] in Hs.
  pose proof (deepl_batch_length e [s2] (normalise_lang lang)) as Hlen.
  destruct (_deepl_batch e [s2] (normalise_lang lang)) as [|v [|w l]];
    try discriminate Hlen.
  cbn [forallb] in Hs. destruct v; try discriminate Hs.
  cbn [list_index nth_error bind].
  rewrite restore_brackets_value. cbn [bind].
  rewrite restore_brands_value. eauto.
Qed.

End TranslateText.

(** X9. [translate_text] fails open: with no key configured, or a
    provider whose call fails, it returns the text, for every text in which
    neither marker name occurs, brands and placeholders included. *)
Theorem translate_text_fail_open (U : UnicodeData) (e : env)
    (text lang : str) :
  DEEPL_API_KEY e = []
  \/ (forall url data params, provider e url data params = None) ->
  contains (lit "PENBRAND") text = false ->
  contains (lit "PENPROT") text = false ->
  translate_text e text lang = Ok (JStr text).
Proof.
  intros He Hb Hk.
  apply translate_text_back; unfold name_free; try assumption.
  - now rewrite Hb.
  - now rewrite Hk.
Qed.

Lemma translate_text_fail_open_witness :
  translate_text (U := ascii_tables) (env_of failing_provider)
    (lit "Dear {{first_name}}, welcome to More House [[x]]") (lit "fr")
  = Ok (JStr (lit "Dear {{first_name}}, welcome to More House [[x]]")).
Proof.
  apply (@translate_text_fail_open ascii_tables).
  - right. reflexivity.
  - reflexivity.
  - reflexivity.
Defined.

(** X10. [translate_text] returns a string, without raising, for every
    text and language, when every answer the provider gives is well
    formed, the provider that fails included. *)
Theorem translate_text_total (U : UnicodeData) (e : env) (text lang : str) :
  (forall url data params answer,
     provider e url data params = Some answer ->
     spec_well_formed_answer answer = true) ->
  exists t, translate_text e text lang = Ok (JStr t).
Proof.
  intros Hwf. apply translate_text_string. now apply deepl_batch_strings.
Qed.

Lemma translate_text_total_witness :
  exists t,
    translate_text (U := ascii_tables) (env_of upper_provider)
      (lit "Visit More House in {{city}}") (lit "it") = Ok (JStr t).
Proof.
  apply (@translate_text_total ascii_tables).
  intros url data params answer H.
  unfold env_of, provider, upper_provider in H. inversion H; subst.
  clear H.
  change (forallb spec_translation_entry
            (map (fun d => JObj [(lit "text",
                                  JStr (upper (snd d)))])
               data) = true).
  induction data as [|d data IH]; [reflexivity|].
  cbn [map forallb]. rewrite IH. reflexivity.
Defined.

(* ================================================================== *)
(** * Further properties: what the fragment translator leaves alone *)
(* ================================================================== *)

Section Fragment.
Context {U : UnicodeData}.

(** What the splice writes at a queued part: the translation of its job
    with both bags of the part restored. *)
Lemma spliced_at (e : env) (html lang : str) (i j : nat) (p : str)
    (v : json) (outl : list json) :
  nth_error (re_split false TAG_RE html) i = Some p ->
  nth_error (jobs_idx (scan_parts (re_split false TAG_RE html))) j = Some i ->
  nth_error
    (_deepl_batch e (jobs (scan_parts (re_split false TAG_RE html))) lang) j
  = Some v ->
  spliced e html lang = Ok outl ->
  exists s1 s2,
    restore_value _restore_brackets v
      (snd (_protect_brackets (fst (_protect_brands p)))) = Ok s1
    /\ restore_value _restore_brands s1 (snd (_protect_brands p)) = Ok s2
    /\ nth_error outl i = Some s2.
Proof.
  intros Hp Hj Ht Hs. unfold spliced in Hs.
  set (st := scan_parts (re_split false TAG_RE html)) in *.
  destruct (scan_jobs _ _ Hj) as (p' & Hp' & Hjob & Hbr & Hbk).
  fold st in Hjob, Hbr, Hbk.
  assert (p' = p) by congruence. subst p'.
  destruct (jobs st) as [|x xs] eqn:Hjobs; [now destruct j|].
  rewrite <- Hjobs in *.
  edestruct splice_at
    as (bk & br & s1 & s2 & Hbk' & Hbr' & Hs1 & Hs2 & Hout);
    [apply (scan_idx_once (re_split false TAG_RE html))
    | exact Hs | exact Ht | exact Hj |].
  assert (Hbk0 : Some bk
                 = Some (snd (_protect_brackets (fst (_protect_brands p)))))
    by (rewrite <- Hbk', <- Hbk; reflexivity).
  assert (Hbr0 : Some br = Some (snd (_protect_brands p)))
    by (rewrite <- Hbr', <- Hbr; reflexivity).
  inversion Hbk0; subst bk. inversion Hbr0; subst br.
  exists s1, s2. auto.
Qed.

Lemma name_free_concat (name : str) (l : list str) (p : str) :
  name_free name (concat l) = true -> In p l -> name_free name p = true.
Proof.
  induction l as [|x l IH]; intros H Hin; [destruct Hin|].
  cbn [concat] in H. apply name_free_app in H as [Hx Hl].
  destruct Hin as [->|Hin]; auto.
Qed.

(** When the batch client hands the jobs back, and no queued part names a
    marker, every part comes back as it was. *)
Lemma spliced_back (e : env) (html lang : str) :
  _deepl_batch e (jobs (scan_parts (re_split false TAG_RE html))) lang
  = map JStr (jobs (scan_parts (re_split false TAG_RE html))) ->
  name_free (lit "PENBRAND") html = true ->
  name_free (lit "PENPROT") html = true ->
  spliced e html lang = Ok (map JStr (re_split false TAG_RE html)).
Proof.
  intros Hback Hb Hk.
  destruct (spliced_total e html lang) as (outl & Hs & _).
  { rewrite Hback. apply forallb_map_JStr. }
  rewrite Hs. f_equal. apply nth_error_ext. intros k.
  pose proof (spliced_length _ _ _ Hs) as Hlen.
  rewrite nth_error_map.
  destruct (nth_error (re_split false TAG_RE html) k) as [p|] eqn:Hp.
  2:{ apply nth_error_None in Hp. apply nth_error_None. lia. }
  cbn [option_map].
  destruct (in_dec Nat.eq_dec k
              (jobs_idx (scan_parts (re_split false TAG_RE html))))
    as [Hin|Hnot].
  - assert (Hpin : In p (re_split false TAG_RE html))
      by (eapply nth_error_In; eauto).
    rewrite <- (split_concat html) in Hb, Hk.
    pose proof (name_free_concat _ _ _ Hb Hpin) as Hbp.
    pose proof (name_free_concat _ _ _ Hk Hpin) as Hkp.
    apply In_nth_error in Hin as [j Hj].
    destruct (scan_jobs _ _ Hj) as (p' & Hp' & Hjob & _).
    assert (p' = p) by congruence. subst p'.
    assert (Ht : nth_error
                   (_deepl_batch e
                      (jobs (scan_parts (re_split false TAG_RE html))) lang) j
                 = Some (JStr (fst (_protect_brackets
                                      (fst (_protect_brands p)))))).
    { rewrite Hback, nth_error_map, Hjob. reflexivity. }
    destruct (spliced_at _ _ _ _ Hp Hj Ht Hs) as (s1 & s2 & H1 & H2 & Hout).
    rewrite restore_brackets_value in H1. inversion H1; subst s1.
    rewrite restore_brands_value in H2. inversion H2; subst s2.
    rewrite Hout. now rewrite codec_round_trip.
  - eapply spliced_keeps; eauto.
Qed.

Lemma fragment_back (e : env) (html lang : str) :
  DEEPL_API_KEY e = []
  \/ (forall url data params, provider e url data params = None) ->
  name_free (lit "PENBRAND") html = true ->
  name_free (lit "PENPROT") html = true ->
  translate_html_fragment e html lang
  = Ok (if str_eqb (normalise_lang lang) (lit "en") || forallb isspace html
        then html
        else postprocess (normalise_lang lang) html).
Proof.
  intros He Hb Hk. unfold translate_html_fragment.
  destruct (str_eqb (normalise_lang lang) (lit "en")); [reflexivity|].
  cbn [orb]. destruct html as [|c html]; [reflexivity|].
  destruct (strip (c :: html)) eqn:Hstrip.
  { apply strip_nil in Hstrip. now rewrite Hstrip. }
  assert (Hblank : forallb isspace (c :: html) = false).
  { destruct (forallb isspace (c :: html)) eqn:E; [|reflexivity].
    apply strip_nil in E. congruence. }
  rewrite Hblank.
  rewrite spliced_back; auto.
  - cbn [bind]. rewrite join_strings. cbn [bind]. now rewrite split_concat.
  - now apply deepl_batch_back.
Qed.

(** A part that is not queued is in the joined document as it was. *)
Lemma kept_in_result (e : env) (html lang res : str) (i : nat) (p : str) :
  nth_error (re_split false TAG_RE html) i = Some p ->
  ~ In i (jobs_idx (scan_parts (re_split false TAG_RE html))) ->
  translate_html_fragment e html lang = Ok res ->
  res = html
  \/ exists outl pre post,
       spliced e html (normalise_lang lang) = Ok outl
       /\ nth_error outl i = Some (JStr p)
       /\ join (firstn i outl) = Ok pre
       /\ join (skipn (S i) outl) = Ok post
       /\ res = postprocess (normalise_lang lang) (pre ++ p ++ post).
Proof.
  intros Hp Hnot Hres.
  apply fragment_steps in Hres as [->|(outl & html2 & Hs & Hj & ->)];
    [auto|right].
  assert (Hi : nth_error outl i = Some (JStr p))
    by (eapply spliced_keeps; eauto).
  destruct (join_at _ _ Hj Hi) as (pre & post & Hpre & Hpost & ->).
  exists outl, pre, post. auto.
Qed.

Lemma not_queued (parts : list str) (i : nat) (p : str) :
  nth_error parts i = Some p ->
  startswith (lit "<") p = true \/ should_skip_text p = true ->
  ~ In i (jobs_idx (scan_parts parts)).
Proof.
  intros Hp Hor Hjob.
  destruct (scan_parts_ok parts) as [_ _ _ _ _ Hidx _].
  destruct (Hidx i Hjob) as (q & Hq & Hqueued).
  assert (q = p) by congruence. subst q.
  unfold queued in Hqueued.
  apply andb_true_iff in Hqueued as [Hqueued Hskip].
  apply andb_true_iff in Hqueued as [Htag _].
  apply negb_true_iff in Hskip, Htag.
  destruct Hor; congruence.
Qed.

(** With nothing queued the splice is the list of the parts. *)
Lemma spliced_nothing (e : env) (html lang : str) :
  jobs_idx (scan_parts (re_split false TAG_RE html)) = [] ->
  spliced e html lang = Ok (map JStr (re_split false TAG_RE html)).
Proof.
  intros Hnone.
  destruct (scan_parts_ok (re_split false TAG_RE html))
    as [Hlen Hjobs _ _ _ _ Hkept].
  unfold spliced.
  destruct (jobs (scan_parts (re_split false TAG_RE html))) as [|x xs] eqn:E.
  2:{ rewrite Hnone in Hjobs. discriminate. }
  f_equal. apply nth_error_ext. intros k. rewrite nth_error_map.
  destruct (nth_error (re_split false TAG_RE html) k) as [p|] eqn:Hp.
  - cbn [option_map]. apply Hkept; [assumption|]. rewrite Hnone. intros [].
  - apply nth_error_None in Hp. apply nth_error_None. lia.
Qed.

End Fragment.



(** X11. [translate_html_fragment] fails open on every document that does
    not name a marker: with no key configured, or a provider whose call
    fails, the result is the document with the post-processing applied (the
    document itself on the identity path), whatever underscores, brands
    and placeholders its text has. *)
Theorem fragment_fail_open_any_text (U : UnicodeData) (e : env)
    (html lang : str) :
  DEEPL_API_KEY e = []
  \/ (forall url data params, provider e url data params = None) ->
  contains (lit "PENBRAND") html = false ->
  contains (lit "PENPROT") html = false ->
  translate_html_fragment e html lang
  = Ok (if str_eqb (normalise_lang lang) (lit "en") || forallb isspace html
        then html
        else postprocess (normalise_lang lang) html).
Proof.
  intros He Hb Hk.
  apply fragment_back; unfold name_free; try assumption.
  - now rewrite Hb.
  - now rewrite Hk.
Qed.

Lemma fragment_fail_open_any_text_witness :
  translate_html_fragment (U := ascii_tables) (env_of failing_provider)
    (lit "<p>Dear {{first_name}}, More House uses snake_case [[x]]</p>")
    (lit "es")
  = Ok (lit "<p>Dear {{first_name}}, More House uses snake_case [[x]]</p>").
Proof.
  apply (@fragment_fail_open_any_text ascii_tables (env_of failing_provider)
           (lit "<p>Dear {{first_name}}, More House uses snake_case [[x]]</p>")
           (lit "es")).
  - right. reflexivity.
  - reflexivity.
  - reflexivity.
Defined.

(** X12. A tag token, and a text token that [should_skip_text] skips, is
    never queued for translation, and it is in the joined document as it
    was, whatever the provider answers. *)
Theorem tags_and_skipped_text_kept (U : UnicodeData) (e : env)
    (html lang : str) (i : nat) (p : str) :
  nth_error (re_split false TAG_RE html) i = Some p ->
  startswith (lit "<") p = true \/ should_skip_text p = true ->
  ~ In i (jobs_idx (scan_parts (re_split false TAG_RE html)))
  /\ forall res,
       translate_html_fragment e html lang = Ok res ->
       res = html
       \/ exists outl pre post,
            spliced e html (normalise_lang lang) = Ok outl
            /\ nth_error outl i = Some (JStr p)
            /\ join (firstn i outl) = Ok pre
            /\ join (skipn (S i) outl) = Ok post
            /\ res = postprocess (normalise_lang lang) (pre ++ p ++ post).
Proof.
  intros Hp Hor.
  assert (Hnot : ~ In i (jobs_idx (scan_parts (re_split false TAG_RE html))))
    by (eapply not_queued; eauto).
  split; [assumption|].
  intros res Hres. eapply kept_in_result; eauto.
Qed.

Lemma tags_and_skipped_text_kept_witness :
  ~ In 1 (jobs_idx (scan_parts (U := ascii_tables)
                      (re_split (U := ascii_tables) false TAG_RE
                         (lit "Hello<b title='More House'>12.5%</b>"))))
  /\ forall res,
       translate_html_fragment (U := ascii_tables) (env_of upper_provider)
         (lit "Hello<b title='More House'>12.5%</b>") (lit "fr") = Ok res ->
       res = lit "Hello<b title='More House'>12.5%</b>"
       \/ exists outl pre post,
            spliced (U := ascii_tables) (env_of upper_provider)
              (lit "Hello<b title='More House'>12.5%</b>")
              (normalise_lang (U := ascii_tables) (lit "fr")) = Ok outl
            /\ nth_error outl 1 = Some (JStr (lit "<b title='More House'>"))
            /\ join (firstn 1 outl) = Ok pre
            /\ join (skipn 2 outl) = Ok post
            /\ res = postprocess (U := ascii_tables)
                       (normalise_lang (U := ascii_tables) (lit "fr"))
                       (pre ++ lit "<b title='More House'>" ++ post).
Proof.
  apply (@tags_and_skipped_text_kept ascii_tables (env_of upper_provider)
           (lit "Hello<b title='More House'>12.5%</b>") (lit "fr") 1
           (lit "<b title='More House'>")).
  - vm_compute. reflexivity.
  - left. vm_compute. reflexivity.
Defined.

(** X13. A document with nothing to translate, every part of which is a
    tag, a text that is skipped or a text inside a script or style element,
    does not depend on the provider: the result is the document with the
    post-processing applied (the document itself on the identity path). *)
Theorem nothing_to_translate (U : UnicodeData) (e : env) (html lang : str) :
  (forall i p,
     nth_error (re_split false TAG_RE html) i = Some p ->
     startswith (lit "<") p = true \/ should_skip_text p = true
     \/ spec_inside (lit "script") (re_split false TAG_RE html) i
     \/ spec_inside (lit "style") (re_split false TAG_RE html) i) ->
  translate_html_fragment e html lang
  = Ok (if str_eqb (normalise_lang lang) (lit "en") || forallb isspace html
        then html
        else postprocess (normalise_lang lang) html).
Proof.
  intros Hall.
  assert (Hnone : jobs_idx (scan_parts (re_split false TAG_RE html)) = []).
  { destruct (jobs_idx (scan_parts (re_split false TAG_RE html)))
      as [|k ks] eqn:E; [reflexivity|exfalso].
    assert (Hin : In k (jobs_idx (scan_parts (re_split false TAG_RE html))))
      by (rewrite E; now left).
    destruct (scan_parts_ok (re_split false TAG_RE html))
      as [_ _ _ _ _ Hidx _].
    destruct (Hidx k Hin) as (p & Hp & _).
    destruct (Hall k p Hp) as [H|[H|H]].
    - eapply not_queued; eauto.
    - eapply not_queued; eauto.
    - eapply inside_not_queued; eauto. }
  unfold translate_html_fragment.
  destruct (str_eqb (normalise_lang lang) (lit "en")); [reflexivity|].
  cbn [orb]. destruct html as [|c html]; [reflexivity|].
  destruct (strip (c :: html)) eqn:Hstrip.
  { apply strip_nil in Hstrip. now rewrite Hstrip. }
  assert (Hblank : forallb isspace (c :: html) = false).
  { destruct (forallb isspace (c :: html)) eqn:E; [|reflexivity].
    apply strip_nil in E. congruence. }
  rewrite Hblank, spliced_nothing by assumption.
  cbn [bind]. rewrite join_strings. cbn [bind]. now rewrite split_concat.
Qed.

Lemma nothing_to_translate_witness :
  translate_html_fragment (U := ascii_tables)
    (env_of (constant_provider JNull))
    (lit "<script>var a = 1;</script>12.5%") (lit "de")
  = Ok (lit "<script>var a = 1;</script>12.5%").
Proof.
  apply (@nothing_to_translate ascii_tables (env_of (constant_provider JNull))
           (lit "<script>var a = 1;</script>12.5%") (lit "de")).
  intros i p Hp.
  destruct i as [|[|[|[|[|i]]]]].
  - right; left. vm_compute in Hp. inversion Hp. reflexivity.
  - left. vm_compute in Hp. inversion Hp. reflexivity.
  - right; right; left. exists 1, (lit "<script>").
    split; [lia|]. split; [reflexivity|]. split; [reflexivity|].
    intros k q Hk Hq. assert (k = 1) by lia. subst k.
    vm_compute in Hq. inversion Hq. reflexivity.
  - left. vm_compute in Hp. inversion Hp. reflexivity.
  - right; left. vm_compute in Hp. inversion Hp. reflexivity.
  - vm_compute in Hp. destruct i; discriminate Hp.
Defined.

(* ================================================================== *)
(** * Further properties: a text without tags *)
(* ================================================================== *)

Section TextFragment.
Context {U : UnicodeData}.

Lemma tag_no_match (prev : option char) (c : char) (x : str) :
  char_eqb c (ch "<") = false ->
  match_at false TAG_RE prev (c :: x) = None.
Proof.
  intros H. unfold char_eqb in H. rewrite N.eqb_sym in H.
  unfold match_at, TAG_RE. cbn [m Cat lit_eq]. unfold char_eqb.
  now rewrite H.
Qed.

(** A text without the character that opens a tag is one part. *)
Lemma split_no_tag (s : str) :
  forall prev acc,
    forallb (fun c => negb (char_eqb c (ch "<"))) s = true ->
    split_loop false TAG_RE prev s 0 acc = [rev acc ++ s].
Proof.
  induction s as [|c s IH]; intros prev acc H; cbn [split_loop].
  - now rewrite List.app_nil_r.
  - cbn [forallb] in H. apply andb_true_iff in H as [Hc Hs].
    apply negb_true_iff in Hc. rewrite tag_no_match by assumption.
    rewrite IH by assumption. cbn [rev]. now rewrite <- app_assoc.
Qed.

End TextFragment.

(** X14. On a text without the character that opens a tag, and that is
    not skipped, [translate_html_fragment] is [translate_text] followed by
    the post-processing: the same protection, the same call, the same
    restoration, and the same exception when the restoration raises; a
    value that is no string makes the join raise. *)
Theorem fragment_of_text (U : UnicodeData) (e : env) (text lang : str) :
  forallb (fun c => negb (char_eqb c (ch "<"))) text = true ->
  should_skip_text text = false ->
  translate_html_fragment e text lang
  = if str_eqb (normalise_lang lang) (lit "en") then Ok text
    else v <- translate_text e text lang ;;
         s <- join [v] ;;
         Ok (postprocess (normalise_lang lang) s).
Proof.
  intros Htag Hskip. unfold translate_html_fragment, translate_text.
  destruct (str_eqb (normalise_lang lang) (lit "en")) eqn:Hen; [reflexivity|].
  destruct text as [|c t]; [discriminate Hskip|].
  destruct (strip (c :: t)) as [|d x] eqn:Hstrip.
  { unfold should_skip_text in Hskip. rewrite Hstrip in Hskip.
    discriminate Hskip. }
  unfold spliced, re_split. rewrite split_no_tag by assumption.
  cbn [rev app]. unfold scan_parts. cbn [fold_left]. unfold scan_step.
  assert (Hlt : startswith (lit "<") (c :: t) = false).
  { cbn [forallb] in Htag. apply andb_true_iff in Htag as [Hc _].
    apply negb_true_iff in Hc. unfold char_eqb in Hc.
    rewrite N.eqb_sym in Hc.
    change (lit "<") with [ch "<"]. cbn [startswith]. unfold char_eqb.
    now rewrite Hc. }
  rewrite Hlt. unfold scan_init. cbn [in_script in_style orb].
  rewrite Hskip.
  destruct (_protect_brands (c :: t)) as [s1 brands].
  destruct (_protect_brackets s1) as [s2 bracks].
  cbn [jobs out jobs_idx jobs_brandbags jobs_brackbags app length].
  pose proof (deepl_batch_length e [s2] (normalise_lang lang)) as Hlen.
  destruct (_deepl_batch e [s2] (normalise_lang lang)) as [|v [|w l]];
    try discriminate Hlen.
  cbn [splice list_index nth_error bind
       jobs out jobs_idx jobs_brandbags jobs_brackbags].
  destruct (restore_value _restore_brackets v bracks) as [v1|ex];
    cbn [bind]; [|reflexivity].
  destruct (restore_value _restore_brands v1 brands) as [v2|ex];
    cbn [bind list_set]; reflexivity.
Qed.

Lemma fragment_of_text_witness :
  translate_html_fragment (U := ascii_tables) (env_of upper_provider)
    (lit "Hello from More House, {{name}}") (lit "fr")
  = (v <- translate_text (U := ascii_tables) (env_of upper_provider)
             (lit "Hello from More House, {{name}}") (lit "fr") ;;
     s <- join [v] ;;
     Ok (postprocess (U := ascii_tables)
           (normalise_lang (U := ascii_tables) (lit "fr")) s)).
Proof.
  apply (@fragment_of_text ascii_tables (env_of upper_provider)
           (lit "Hello from More House, {{name}}") (lit "fr"));
    vm_compute; reflexivity.
Defined.

(* ================================================================== *)
(** * Further properties: the brand pattern *)
(* ================================================================== *)

(** X15. The brand pattern matches at the head of a text exactly when some
    brand token starts the text, and what it matches is the longest token
    that does: the alternation lists the tokens by falling length. *)
Theorem brand_match_longest (U : UnicodeData) (r : re) (prev : option char)
    (s : str) :
  TOKEN_RE = Some r ->
  (forall len caps,
     match_at false r prev s = Some (len, caps) ->
     In (firstn len s) BRAND_TOKENS
     /\ length (firstn len s) = len
     /\ forall b, In b BRAND_TOKENS -> startswith b s = true ->
                  length b <= len)
  /\ (match_at false r prev s = None ->
      forall b, In b BRAND_TOKENS -> startswith b s = false).
Proof.
  intros Hr. rewrite (match_at_brand prev s Hr). cbn [find].
  assert (Hcase :
    forall t,
      In t BRAND_TOKENS -> startswith t s = true ->
      (forall b, In b BRAND_TOKENS -> startswith b s = true ->
                 length b <= length t) ->
      (forall len caps,
         Some (length t, @nil (nat * (nat * nat))) = Some (len, caps) ->
         In (firstn len s) BRAND_TOKENS
         /\ length (firstn len s) = len
         /\ forall b, In b BRAND_TOKENS -> startswith b s = true ->
                      length b <= len)).
  { intros t Ht Hst Hmax len caps Hm. inversion Hm; subst len caps.
    rewrite (startswith_firstn _ _ Hst). auto. }
  destruct (startswith (lit "Cognitive College") s) eqn:H1;
    [|destruct (startswith (lit "More House") s) eqn:H2;
      [|destruct (startswith (lit "PEN Reply") s) eqn:H3;
        [|destruct (startswith (lit "PEN.ai") s) eqn:H4;
          [|destruct (startswith (lit "PEN") s) eqn:H5]]]];
    cbn [option_map];
    (split; [|intros Hm; try discriminate Hm]).
  1-5: apply Hcase;
    [unfold BRAND_TOKENS; cbn [In]; auto 10
    |assumption
    |unfold BRAND_TOKENS; cbn [In]; intros b Hb Hsb;
     repeat (destruct Hb as [<-|Hb];
             [first [ congruence | vm_compute; lia ]|]);
     destruct Hb].
  - intros len caps Hm. discriminate Hm.
  - unfold BRAND_TOKENS; cbn [In]. intros b Hb.
    repeat (destruct Hb as [<-|Hb]; [assumption|]). destruct Hb.
Qed.

Lemma brand_match_longest_witness :
  TOKEN_RE
  = Some (alternation [lit "Cognitive College"; lit "More House";
                       lit "PEN Reply"; lit "PEN.ai"; lit "PEN"])
  /\ (forall len caps,
        match_at (U := ascii_tables) false
          (alternation [lit "Cognitive College"; lit "More House";
                        lit "PEN Reply"; lit "PEN.ai"; lit "PEN"])
          None (lit "PEN.ai helps") = Some (len, caps) ->
        In (firstn len (lit "PEN.ai helps")) BRAND_TOKENS
        /\ length (firstn len (lit "PEN.ai helps")) = len
        /\ forall b, In b BRAND_TOKENS ->
                     startswith b (lit "PEN.ai helps") = true ->
                     length b <= len).
Proof.
  split; [reflexivity|].
  apply (@brand_match_longest ascii_tables
           (alternation [lit "Cognitive College"; lit "More House";
                         lit "PEN Reply"; lit "PEN.ai"; lit "PEN"])
           None (lit "PEN.ai helps")).
  reflexivity.
Defined.

(* ================================================================== *)
(** * Further properties: restoring without markers *)
(* ================================================================== *)

Lemma restore_from_free (name : str) (bag : list str) :
  plain name = true -> name <> [] ->
  forall s i,
    name_free name s = true ->
    restore_from (marker_of name) s bag i = s.
Proof.
  intros Hp Hne. induction bag as [|v bag IH]; intros s i Hs; [reflexivity|].
  cbn [restore_from].
  assert (Hrep : replace (marker_of name i) v s = s).
  { rewrite <- (List.app_nil_r s) at 1.
    rewrite replace_pass by (apply gap_no_hit; auto; now left).
    cbn [replace replace_from]. apply List.app_nil_r. }
  rewrite Hrep. now apply IH.
Qed.

(** X16. The restorers raise nothing and do nothing where the markers are
    gone: on a text in which the name of their markers does not occur they
    return the text, whatever the bag holds, so a value whose marker the
    provider dropped is lost without a trace. *)
Theorem restore_without_markers (s : str) (bag : list str) :
  (contains (lit "PENBRAND") s = false -> _restore_brands s bag = s)
  /\ (contains (lit "PENPROT") s = false -> _restore_brackets s bag = s).
Proof.
  split; intros H.
  - unfold _restore_brands. rewrite brand_marker_of.
    apply restore_from_free; [reflexivity|discriminate|].
    unfold name_free. now rewrite H.
  - unfold _restore_brackets. rewrite brack_marker_of.
    apply restore_from_free; [reflexivity|discriminate|].
    unfold name_free. now rewrite H.
Qed.

Lemma restore_without_markers_witness :
  _restore_brands (lit "Bienvenue a la maison_1") [lit "More House"]
  = lit "Bienvenue a la maison_1"
  /\ _restore_brackets (lit "Bienvenue a la maison_1") [lit "{{name}}"]
     = lit "Bienvenue a la maison_1".
Proof.
  split.
  - apply (proj1 (restore_without_markers (lit "Bienvenue a la maison_1")
                    [lit "More House"])).
    reflexivity.
  - apply (proj2 (restore_without_markers (lit "Bienvenue a la maison_1")
                    [lit "{{name}}"])).
    reflexivity.
Defined.

(* ================================================================== *)
(** * Further properties: the two hooks of a request *)
(* ================================================================== *)

(** X17. A request without a [lang] argument, or with one that normalizes
    to [en], unknown codes included, gets its response back untouched
    from the hook that follows [_set_lang]. *)
Theorem base_language_untouched (U : UnicodeData) (e : env) (req : request)
    (resp : response) :
  normalise_lang (or_default (dict_get (args req) (lit "lang")) (lit "en"))
  = lit "en" ->
  _translate_response e (_set_lang req) resp = resp.
Proof.
  intros Hen.
  destruct (@set_lang_stashes U req) as [Hstash Hargs].
  unfold _translate_response. rewrite Hstash, Hargs, Hen.
  cbn [or_default]. rewrite str_eqb_refl. cbn [negb andb].
  now destruct (str_eqb _ (lit "off")).
Qed.

Lemma base_language_untouched_witness :
  _translate_response (U := ascii_tables) (env_of upper_provider)
    (_set_lang (U := ascii_tables)
       {| args := [(lit "lang", lit "ja")]; _pen_lang := None |})
    {| status_code := 200;
       headers := [(lit "Content-Type", lit "text/html; charset=utf-8")];
       direct_passthrough := false;
       data := lit "<p>Hello from More House</p>" |}
  = {| status_code := 200;
       headers := [(lit "Content-Type", lit "text/html; charset=utf-8")];
       direct_passthrough := false;
       data := lit "<p>Hello from More House</p>" |}.
Proof.
  apply (@base_language_untouched ascii_tables). reflexivity.
Defined.

Lemma hook_on_exception_witness :
  _translate_response (U := ascii_tables) (env_of (constant_provider JNull))
    {| args := []; _pen_lang := Some (lit "fr") |}
    {| status_code := 200;
       headers := [(lit "Content-Type", lit "text/html; charset=utf-8")];
       direct_passthrough := false;
       data := lit "<p>Hello world</p>" |}
  = {| status_code := 200;
       headers := [(lit "Content-Type", lit "text/html; charset=utf-8")];
       direct_passthrough := false;
       data := lit "<p>Hello world</p>" |}.
Proof.
  apply (@hook_on_exception ascii_tables (env_of (constant_provider JNull))
           {| args := []; _pen_lang := Some (lit "fr") |}
           {| status_code := 200;
              headers := [(lit "Content-Type",
                           lit "text/html; charset=utf-8")];
              direct_passthrough := false;
              data := lit "<p>Hello world</p>" |}
           TypeError).
  vm_compute. reflexivity.
Defined.

(* ================================================================== *)
(** * Further properties: what the bags hold *)
(* ================================================================== *)

Section Bags.
Context {U : UnicodeData}.

(** The lazy repetition of any character stops at the first position
    where what follows it matches. *)
Lemma rep_lazy_any_first (A : Type) (s : str) :
  forall prev off (k : kont A) x,
    rep_lazy CAny 0 prev s off k = Some x ->
    exists n,
      n <= length s
      /\ k (after prev s n) (skipn n s) (off + n) = Some x
      /\ forall n', n' < n ->
                    k (after prev s n') (skipn n' s) (off + n') = None.
Proof.
  induction s as [|c s IH]; intros prev off k x H; cbn [rep_lazy] in H.
  - destruct (k prev [] off) eqn:Hk; [|discriminate].
    inversion H; subst. exists 0. cbn [after skipn length].
    rewrite Nat.add_0_r. repeat split; auto. intros n' Hn'. lia.
  - destruct (k prev (c :: s) off) eqn:Hk.
    + inversion H; subst. exists 0. cbn [after skipn].
      rewrite Nat.add_0_r. repeat split; auto; [cbn; lia|].
      intros n' Hn'. lia.
    + cbn [in_cset pred] in H.
      destruct (IH _ _ _ _ H) as (n & Hlen & Hn & Hmin).
      exists (S n). cbn [after skipn length]. rewrite Nat.add_succ_r.
      repeat split; auto; [lia|].
      intros [|n'] Hn'.
      * cbn [after skipn]. now rewrite Nat.add_0_r.
      * cbn [after skipn]. rewrite Nat.add_succ_r. apply Hmin. lia.
Qed.

Lemma startswith_length (t s : str) :
  startswith t s = true -> length t <= length s.
Proof.
  intros H. rewrite (startswith_split _ _ H), length_app. lia.
Qed.

Lemma removelast_split (l : str) :
  l <> [] ->
  exists c, l = removelast l ++ [c] /\ length (removelast l) = length l - 1.
Proof.
  intros Hne. exists (last l 0%N).
  pose proof (app_removelast_last 0%N Hne) as E. split; [exact E|].
  apply (f_equal (@length char)) in E. rewrite length_app in E.
  change (length [last l 0%N]) with 1 in E. unfold char in *. lia.
Qed.

(** A match of an opening pair, any text taken lazily and a closing pair,
    before a continuation that accepts whatever follows. *)
Lemma span_match (o cl : str) (A : Type) (prev : option char) (s : str)
    (off : nat) (caps : captures)
    (k : option char -> str -> nat -> captures -> option A) (res : A) :
  cl <> [] ->
  (forall p t n c, k p t n c <> None) ->
  m false (Cat [Str o; Rep Lazy 0 CAny; Str cl]) prev s off caps k = Some res ->
  exists x rest p',
    s = o ++ x ++ cl ++ rest
    /\ contains cl (x ++ removelast cl) = false
    /\ k p' rest (off + length (o ++ x ++ cl)) caps = Some res.
Proof.
  intros Hcl Hk H. cbn [Cat m] in H. rewrite m_Str in H.
  destruct (startswith o s) eqn:Ho; [|discriminate].
  apply rep_lazy_any_first in H as (n & Hlen & Hn & Hmin).
  rewrite m_Str in Hn.
  destruct (startswith cl (skipn n (skipn (length o) s))) eqn:Hc;
    [|discriminate].
  cbn [m] in Hn.
  set (s2 := skipn (length o) s) in *.
  exists (firstn n s2), (skipn (length cl) (skipn n s2)).
  eexists.
  assert (Hs2 : s2 = firstn n s2 ++ cl ++ skipn (length cl) (skipn n s2)).
  { rewrite <- (startswith_split _ _ Hc). symmetry. apply firstn_skipn. }
  assert (Hx : length (firstn n s2) = n) by (apply firstn_length_le; lia).
  split; [|split].
  - rewrite <- Hs2. apply (startswith_split _ _ Ho).
  - destruct (contains cl (firstn n s2 ++ removelast cl)) eqn:E;
      [exfalso|reflexivity].
    apply contains_offset in E as (j & Hj & Hst).
    pose proof (startswith_length _ _ Hst) as Hl.
    destruct (removelast_split Hcl) as (c0 & Hsplit & Hrl).
    rewrite length_skipn, length_app, Hx, Hrl in Hl.
    assert (Hcl0 : length cl <> 0) by (destruct cl; [congruence|discriminate]).
    assert (Hjn : j < n) by lia.
    specialize (Hmin j Hjn). rewrite m_Str in Hmin.
    assert (Hst2 : startswith cl (skipn j s2) = true).
    { rewrite Hs2, Hsplit, <- app_assoc, app_assoc, skipn_app.
      apply startswith_longer. rewrite <- Hsplit. exact Hst. }
    rewrite Hst2 in Hmin. cbn [m] in Hmin.
    now apply Hk in Hmin.
  - rewrite !length_app, Hx.
    replace (off + (length o + (n + length cl)))
      with (off + length o + n + length cl) by lia.
    exact Hn.
Qed.

Lemma firstn_exact (a rest : str) : firstn (length a) (a ++ rest) = a.
Proof.
  rewrite firstn_app, Nat.sub_diag, firstn_all. cbn [firstn].
  apply List.app_nil_r.
Qed.

Lemma brack_match (prev : option char) (s : str) (len : nat)
    (caps : captures) :
  match_at false BRACK_RE prev s = Some (len, caps) ->
  placeholder_span (firstn len s).
Proof.
  unfold match_at, BRACK_RE. cbn [m].
  match goal with
  | |- match ?a with _ => _ end = _ -> _ => destruct a as [res|] eqn:HA
  end.
  - intros H. inversion H; subst res. clear H.
    apply span_match in HA as (x & rest & p' & Hs & Hmin & Hk);
      [|discriminate|discriminate].
    assert (Hlen : len = length (lit "{{" ++ x ++ lit "}}"))
      by (inversion Hk; reflexivity).
    subst len s.
    replace (lit "{{" ++ x ++ lit "}}" ++ rest)
      with ((lit "{{" ++ x ++ lit "}}") ++ rest)
      by (now rewrite <- !app_assoc).
    rewrite firstn_exact.
    exists x. left. split; [reflexivity|exact Hmin].
  - intros HB.
    apply span_match in HB as (x & rest & p' & Hs & Hmin & Hk);
      [|discriminate|discriminate].
    assert (Hlen : len = length (lit "[[" ++ x ++ lit "]]"))
      by (inversion Hk; reflexivity).
    subst len s.
    replace (lit "[[" ++ x ++ lit "]]" ++ rest)
      with ((lit "[[" ++ x ++ lit "]]") ++ rest)
      by (now rewrite <- !app_assoc).
    rewrite firstn_exact.
    exists x. right. split; [reflexivity|exact Hmin].
Qed.

End Bags.

Section Scanned.
Context {U : UnicodeData}.

Lemma prev_after_app (prev : option char) (x y : str) :
  prev_after prev (x ++ y) = prev_after (prev_after prev x) y.
Proof. unfold prev_after. apply fold_left_app. Qed.

(** The shape of what the protecting loop returns, tied to the matches of
    the pattern: the stretches are the positions where the pattern does not
    match, and each value is the match at its position. *)
Lemma protect_loop_scanned (r : re) (marker : nat -> str) (s : str) :
  forall prev skip b0 out1 b1,
    sub_loop false r (bag_sub marker) None prev s skip b0 = (out1, b1) ->
    exists g rest,
      out1 = g ++ tail_marked marker (length b0) rest
      /\ b1 = b0 ++ map fst rest
      /\ skipn skip s = g ++ tail_filled rest
      /\ gap_clear (head_len false r) (prev_after prev (firstn skip s)) g
           (tail_filled rest) = true
      /\ tail_matched (head_len false r)
           (prev_after (prev_after prev (firstn skip s)) g) rest = true.
Proof.
  induction s as [|c s IH]; intros prev skip b0 out1 b1 H;
    cbn [sub_loop] in H.
  - inversion H; subst. exists [], [].
    cbn [tail_marked tail_filled map app gap_clear tail_matched].
    now rewrite List.app_nil_r, skipn_nil.
  - destruct skip as [|k]; [|now apply (IH _ _ _ _ _ H)].
    cbn [firstn prev_after fold_left].
    destruct (match_at false r prev (c :: s)) as [[[|n] caps]|] eqn:Hm.
    + destruct (sub_loop _ _ _ _ _ s 0 b0) as [o bg] eqn:E.
      inversion H; subst.
      destruct (IH _ _ _ _ _ E) as (g & rest & -> & -> & Hr & Hg & Ht).
      exists (c :: g), rest. cbn [skipn app firstn prev_after fold_left] in *.
      repeat split; [now rewrite Hr | | exact Ht].
      cbn [gap_clear]. rewrite Hg, andb_true_r.
      cbn [app]. rewrite <- Hr. unfold head_len. now rewrite Hm.
    + cbn [bag_sub option_map group] in H.
      destruct (sub_loop _ _ _ _ _ s n _) as [o bg] eqn:E.
      inversion H; subst.
      destruct (IH _ _ _ _ _ E) as (g & rest & -> & -> & Hr & Hg & Ht).
      rewrite length_app in *. cbn [length] in *.
      exists [], ((firstn (S n) (c :: s), g) :: rest).
      cbn [tail_marked tail_filled map fst app gap_clear].
      replace (length b0 + 1) with (S (length b0)) by lia.
      assert (Hsplit : firstn (S n) (c :: s) ++ g ++ tail_filled rest = c :: s).
      { rewrite <- Hr. change (skipn n s) with (skipn (S n) (c :: s)).
        apply (firstn_skipn (S n) (c :: s)). }
      assert (Hlen : length (firstn (S n) (c :: s)) = S n).
      { apply match_at_length in Hm as [_ Hm]. rewrite length_firstn. lia. }
      repeat split.
      * now rewrite <- app_assoc.
      * now rewrite Hsplit.
      * cbn [tail_matched]. rewrite Hsplit, Hlen.
        change (prev_after prev []) with prev.
        change (prev_after prev (firstn (S n) (c :: s)))
          with (prev_after (Some c) (firstn n s)).
        unfold head_len at 1. rewrite Hm, Nat.eqb_refl, Hg, Ht.
        reflexivity.
    + destruct (sub_loop _ _ _ _ _ s 0 b0) as [o bg] eqn:E.
      inversion H; subst.
      destruct (IH _ _ _ _ _ E) as (g & rest & -> & -> & Hr & Hg & Ht).
      exists (c :: g), rest. cbn [skipn app firstn prev_after fold_left] in *.
      repeat split; [now rewrite Hr | | exact Ht].
      cbn [gap_clear]. rewrite Hg, andb_true_r.
      cbn [app]. rewrite <- Hr. unfold head_len. now rewrite Hm.
Qed.

End Scanned.

(** X18. What [_protect_brands] returns, for every text: a first stretch
    of the text, then for each match of the token pattern, in the order of
    the text, the marker of its number, counted from 0, and the stretch
    after it; the bag holds the matches in that order, each a brand token;
    with each match in the place of its marker the shielded text is the
    text; the pattern matches at no position of a stretch, and each entry
    of the bag is the match of the pattern at its position.  So every
    brand token that occurs in the text lies inside an entry of the bag. *)
Theorem protect_brands_shape (U : UnicodeData) (s : str) :
  (exists g rest,
     fst (_protect_brands s) = g ++ tail_marked brand_marker 0 rest
     /\ snd (_protect_brands s) = map fst rest
     /\ s = g ++ tail_filled rest
     /\ Forall (fun v => In v BRAND_TOKENS) (map fst rest)
     /\ gap_clear brand_len None g (tail_filled rest) = true
     /\ tail_matched brand_len (prev_after None g) rest = true)
  /\ (forall b,
        In b BRAND_TOKENS -> contains b s = true ->
        exists k v,
          nth_error (snd (_protect_brands s)) k = Some v
          /\ contains b v = true).
Proof.
  split; [|intros b; apply protect_brands_covers].
  unfold _protect_brands, brand_len. destruct s as [|c s].
  - exists [], []. cbn. repeat split; auto.
  - destruct TOKEN_RE as [r|] eqn:Hr0; [|now rewrite TOKEN_RE_eq in Hr0].
    destruct (sub_loop _ _ _ _ _ _ _ _) as [o bag] eqn:E. cbn [fst snd].
    destruct (protect_loop_scanned _ _ _ _ _ _ E)
      as (g & rest & -> & -> & Hr & Hg & Ht).
    exists g, rest. cbn [skipn length app firstn prev_after fold_left] in *.
    repeat split; auto.
    eapply (@protect_loop_entries _ r brand_marker
              (fun v => In v BRAND_TOKENS)) in E; [exact E| |constructor].
    intros prev x len caps Hm.
    now destruct (brand_match _ _ Hr0 Hm) as (_ & _ & Hin & _).
Qed.

(** X19. What [_protect_brackets] returns, for every text: the same shape
    with the placeholder markers, and a bag of placeholders, each an
    opening pair of braces or square brackets, the shortest text up to the
    closing pair, line breaks included, and the closing pair; the bracket
    pattern matches at no position of a stretch, and each entry of the bag
    is the match of the pattern at its position. *)
Theorem protect_brackets_shape (U : UnicodeData) (s : str) :
  exists g rest,
    fst (_protect_brackets s) = g ++ tail_marked brack_marker 0 rest
    /\ snd (_protect_brackets s) = map fst rest
    /\ s = g ++ tail_filled rest
    /\ Forall placeholder_span (map fst rest)
    /\ gap_clear brack_len None g (tail_filled rest) = true
    /\ tail_matched brack_len (prev_after None g) rest = true.
Proof.
  unfold _protect_brackets, brack_len. destruct s as [|c s].
  - exists [], []. cbn. repeat split; auto.
  - destruct (sub_loop _ _ _ _ _ _ _ _) as [o bag] eqn:E. cbn [fst snd].
    destruct (protect_loop_scanned _ _ _ _ _ _ E)
      as (g & rest & -> & -> & Hr & Hg & Ht).
    exists g, rest. cbn [skipn length app firstn prev_after fold_left] in *.
    repeat split; auto.
    eapply (@protect_loop_entries _ BRACK_RE brack_marker placeholder_span)
      in E; [exact E| |constructor].
    intros prev x len caps Hm. now apply brack_match in Hm.
Qed.

(* ================================================================== *)
(** * Further properties: the queue of the scan *)
(* ================================================================== *)

Section Queue.
Context {U : UnicodeData}.

Lemma queued_spec (l : list str) (p : str) :
  queued (scan_parts l) p = true
  <-> startswith (lit "<") p = false
      /\ should_skip_text p = false
      /\ ~ spec_inside (lit "script") l (length l)
      /\ ~ spec_inside (lit "style") l (length l).
Proof.
  unfold queued. rewrite !andb_true_iff, !negb_true_iff, orb_false_iff.
  rewrite <- in_script_inside, <- in_style_inside.
  split.
  - intros [[Ht [Hsc Hsy]] Hsk]. repeat split; congruence.
  - intros (Ht & Hsk & Hsc & Hsy). repeat split; auto.
    + destruct (in_script (scan_parts l)); [now elim Hsc|reflexivity].
    + destruct (in_style (scan_parts l)); [now elim Hsy|reflexivity].
Qed.

Lemma jobs_idx_step (l : list str) (q : str) :
  jobs_idx (scan_parts (l ++ [q]))
  = if queued (scan_parts l) q
    then jobs_idx (scan_parts l) ++ [length l]
    else jobs_idx (scan_parts l).
Proof.
  rewrite scan_parts_snoc.
  destruct (scan_parts_ok l) as [Hlen _ _ _ _ _ _].
  destruct (queued (scan_parts l) q) eqn:Hq.
  - destruct (scan_step_queued _ _ Hq) as (_ & _ & Hi & _).
    now rewrite Hi, Hlen.
  - now destruct (scan_step_kept _ _ Hq) as (_ & _ & Hi & _).
Qed.

Lemma jobs_idx_bound (l : list str) (k : nat) :
  In k (jobs_idx (scan_parts l)) -> k < length l.
Proof.
  intros Hin. destruct (scan_parts_ok l) as [_ _ _ _ _ Hidx _].
  destruct (Hidx _ Hin) as (p & Hp & _).
  apply nth_error_Some. congruence.
Qed.

Lemma jobs_idx_iff (l : list str) :
  forall k,
    In k (jobs_idx (scan_parts l))
    <-> exists p, nth_error l k = Some p
                  /\ queued (scan_parts (firstn k l)) p = true.
Proof.
  intros k. split.
  - destruct (scan_parts_ok l) as [_ _ _ _ _ Hidx _]. apply Hidx.
  - revert k. induction l as [|q l IH] using rev_ind; intros k (p & Hp & Hq).
    + now destruct k.
    + rewrite jobs_idx_step.
      assert (Hk : k < length (l ++ [q]))
        by (apply nth_error_Some; congruence).
      rewrite length_app in Hk. cbn [length] in Hk.
      destruct (Nat.eq_dec k (length l)) as [->|Hne].
      * rewrite nth_error_app2, Nat.sub_diag in Hp by lia.
        inversion Hp; subst p.
        rewrite firstn_app, firstn_all, Nat.sub_diag in Hq.
        cbn [firstn] in Hq. rewrite List.app_nil_r in Hq.
        rewrite Hq. apply in_or_app. right. now left.
      * rewrite nth_error_app1 in Hp by lia.
        rewrite firstn_snoc_le in Hq by lia.
        assert (Hin : In k (jobs_idx (scan_parts l))) by (apply IH; eauto).
        destruct (queued (scan_parts l) q); [apply in_or_app|]; auto.
Qed.

Lemma jobs_idx_increasing (l : list str) :
  forall j j' i i',
    j < j' ->
    nth_error (jobs_idx (scan_parts l)) j = Some i ->
    nth_error (jobs_idx (scan_parts l)) j' = Some i' ->
    i < i'.
Proof.
  induction l as [|q l IH] using rev_ind; intros j j' i i' Hlt H H'.
  - now destruct j.
  - rewrite jobs_idx_step in *.
    destruct (queued (scan_parts l) q); [|eauto].
    apply nth_error_snoc in H as [[Hj H]|[-> ->]];
      apply nth_error_snoc in H' as [[Hj' H']|[-> ->]].
    + eauto.
    + apply nth_error_In, jobs_idx_bound in H. exact H.
    + lia.
    + lia.
Qed.

End Queue.

(** X20. The loop queues exactly the text tokens that are to be
    translated: the part at position [k] is queued if and only if it does
    not start with the character that opens a tag, [should_skip_text] does
    not skip it, and it lies neither inside a script nor inside a style
    element. *)
Theorem queued_exactly (U : UnicodeData) (parts : list str) (k : nat) :
  In k (jobs_idx (scan_parts parts))
  <-> exists p,
        nth_error parts k = Some p
        /\ startswith (lit "<") p = false
        /\ should_skip_text p = false
        /\ ~ spec_inside (lit "script") parts k
        /\ ~ spec_inside (lit "style") parts k.
Proof.
  rewrite jobs_idx_iff.
  split; intros (p & Hp & H); exists p; (split; [assumption|]);
    destruct (nth_error_split _ _ Hp) as [Hparts Hlen].
  - apply queued_spec in H as (Ht & Hsk & Hsc & Hsy).
    repeat split; auto; intros Hin.
    + apply Hsc. apply (spec_inside_prefix _ _ (skipn k parts)).
      now rewrite <- Hparts, Hlen.
    + apply Hsy. apply (spec_inside_prefix _ _ (skipn k parts)).
      now rewrite <- Hparts, Hlen.
  - destruct H as (Ht & Hsk & Hsc & Hsy).
    apply queued_spec. repeat split; auto; intros Hin.
    + apply Hsc. apply (spec_inside_prefix _ _ (skipn k parts)) in Hin.
      now rewrite <- Hparts, Hlen in Hin.
    + apply Hsy. apply (spec_inside_prefix _ _ (skipn k parts)) in Hin.
      now rewrite <- Hparts, Hlen in Hin.
Qed.

(** X21. The jobs go to the provider in the order of the document: job
    [j] is the shielded text of the part at the [j]-th queued position,
    with the two bags of that part beside it, and the queued positions
    grow with [j]. *)
Theorem jobs_in_document_order (U : UnicodeData) (parts : list str) :
  (forall j i,
     nth_error (jobs_idx (scan_parts parts)) j = Some i ->
     exists p,
       nth_error parts i = Some p
       /\ nth_error (jobs (scan_parts parts)) j
          = Some (fst (_protect_brackets (fst (_protect_brands p))))
       /\ nth_error (jobs_brandbags (scan_parts parts)) j
          = Some (snd (_protect_brands p))
       /\ nth_error (jobs_brackbags (scan_parts parts)) j
          = Some (snd (_protect_brackets (fst (_protect_brands p)))))
  /\ (forall j j' i i',
        j < j' ->
        nth_error (jobs_idx (scan_parts parts)) j = Some i ->
        nth_error (jobs_idx (scan_parts parts)) j' = Some i' ->
        i < i')
  /\ length (jobs (scan_parts parts))
     = length (jobs_idx (scan_parts parts)).
Proof.
  split; [apply scan_jobs|]. split; [apply jobs_idx_increasing|].
  now destruct (scan_parts_ok parts).
Qed.

(* ================================================================== *)
(** * A token that the post-processing spares *)
(* ================================================================== *)

Section Spared.
Context {U : UnicodeData}.

(** Followed around a token, the substitution gives what [re.sub] gives:
    the token stands in the result between what became of the text before
    it and what became of the text after it. *)
Lemma sub_track_sound (T : Type) (ic : bool) (r : re)
    (f : T -> str -> nat -> captures -> str * T) (s : str) :
  forall count prev skip st a b x y,
    sub_track ic r f count prev s skip st a b = Some (x, y) ->
    fst (sub_loop ic r f count prev s skip st)
    = x ++ firstn b (skipn a s) ++ y
    /\ (a = 0 -> x = []).
Proof.
  induction s as [|c s IH]; intros count prev skip st a b x y H;
    cbn [sub_track] in H.
  - destruct a, b, skip; try discriminate H. inversion H; subst.
    cbn. auto.
  - destruct a as [|a'].
    + destruct skip as [|k]; [|destruct b; discriminate H].
      destruct b as [|b'].
      * inversion H; subst. cbn [firstn skipn app]. auto.
      * assert (Hstep :
          match match_at ic r prev (c :: s) with
          | Some (S _, _) => None
          | _ => sub_track ic r f count (Some c) s 0 st 0 b'
          end = Some (x, y) ->
          (count <> Some 0) ->
          fst (sub_loop ic r f count prev (c :: s) 0 st)
          = x ++ firstn (S b') (skipn 0 (c :: s)) ++ y /\ (0 = 0 -> x = [])).
        { intros Hm Hc. cbn [sub_loop].
          assert (Hgo :
            sub_track ic r f count (Some c) s 0 st 0 b' = Some (x, y) ->
            fst (let '(out, st2) := sub_loop ic r f count (Some c) s 0 st in
                 (c :: out, st2))
            = x ++ firstn (S b') (skipn 0 (c :: s)) ++ y /\ (0 = 0 -> x = [])).
          { intros Hr. destruct (IH _ _ _ _ _ _ _ _ Hr) as [Hout Hx].
            rewrite (Hx eq_refl) in *.
            destruct (sub_loop ic r f count (Some c) s 0 st) as [out st2].
            cbn [fst skipn firstn app] in *. now rewrite Hout. }
          destruct count as [[|n]|]; [congruence| |];
            destruct (match_at ic r prev (c :: s)) as [[[|n'] caps]|];
            try discriminate Hm; now apply Hgo. }
        destruct count as [[|n]|].
        -- destruct (Nat.leb (S b') (length (c :: s))); [|discriminate H].
           inversion H; subst. cbn [sub_loop fst skipn app].
           split; [|auto]. symmetry. exact (firstn_skipn (S b') (c :: s)).
        -- apply Hstep; [exact H|discriminate].
        -- apply Hstep; [exact H|discriminate].
    + destruct skip as [|k].
      * assert (Hstep :
          match match_at ic r prev (c :: s) with
          | Some (S n, caps) =>
              if Nat.leb (S n) (S a') then
                let '(rep, st1) := f st (c :: s) (S n) caps in
                match sub_track ic r f (option_map pred count)
                        (Some c) s n st1 a' b with
                | Some (x, y) => Some (rep ++ x, y)
                | None => None
                end
              else None
          | _ =>
              match sub_track ic r f count (Some c) s 0 st a' b with
              | Some (x, y) => Some (c :: x, y)
              | None => None
              end
          end = Some (x, y) ->
          (count <> Some 0) ->
          fst (sub_loop ic r f count prev (c :: s) 0 st)
          = x ++ firstn b (skipn (S a') (c :: s)) ++ y
            /\ (S a' = 0 -> x = [])).
        { intros Hm Hc. split; [|discriminate]. cbn [sub_loop skipn].
          assert (Hpass :
            match sub_track ic r f count (Some c) s 0 st a' b with
            | Some (x, y) => Some (c :: x, y)
            | None => None
            end = Some (x, y) ->
            fst (let '(out, st2) := sub_loop ic r f count (Some c) s 0 st in
                 (c :: out, st2))
            = x ++ firstn b (skipn a' s) ++ y).
          { intros Hr.
            destruct (sub_track ic r f count (Some c) s 0 st a' b)
              as [[x0 y0]|] eqn:E; [|discriminate Hr].
            inversion Hr; subst. destruct (IH _ _ _ _ _ _ _ _ E) as [Hout _].
            destruct (sub_loop ic r f count (Some c) s 0 st) as [out st2].
            cbn [fst app] in *. now rewrite Hout. }
          assert (Hhit :
            forall n caps,
              (if Nat.leb (S n) (S a') then
                 let '(rep, st1) := f st (c :: s) (S n) caps in
                 match sub_track ic r f (option_map pred count)
                         (Some c) s n st1 a' b with
                 | Some (x, y) => Some (rep ++ x, y)
                 | None => None
                 end
               else None) = Some (x, y) ->
              fst (let '(rep, st1) := f st (c :: s) (S n) caps in
                   let '(out, st2) :=
                     sub_loop ic r f (option_map pred count) (Some c) s n st1 in
                   (rep ++ out, st2))
              = x ++ firstn b (skipn a' s) ++ y).
          { intros n caps Hr.
            destruct (Nat.leb (S n) (S a')); [|discriminate Hr].
            destruct (f st (c :: s) (S n) caps) as [rep st1].
            destruct (sub_track ic r f (option_map pred count) (Some c) s n
                        st1 a' b) as [[x0 y0]|] eqn:E; [|discriminate Hr].
            inversion Hr; subst. destruct (IH _ _ _ _ _ _ _ _ E) as [Hout _].
            destruct (sub_loop ic r f (option_map pred count) (Some c) s n st1)
              as [out st2].
            cbn [fst] in *. now rewrite Hout, <- app_assoc. }
          destruct count as [[|n]|]; [congruence| |];
            destruct (match_at ic r prev (c :: s)) as [[[|n'] caps]|];
            first [now apply Hpass | now apply Hhit]. }
        destruct count as [[|n]|].
        -- destruct (Nat.leb (S a' + b) (length (c :: s))); [|discriminate H].
           inversion H; subst. split; [|discriminate].
           cbn [sub_loop fst skipn app]. f_equal.
           rewrite Nat.add_comm, <- skipn_skipn.
           now rewrite !firstn_skipn.
        -- apply Hstep; [exact H|discriminate].
        -- apply Hstep; [exact H|discriminate].
      * split; [|discriminate]. cbn [sub_loop skipn].
        now destruct (IH _ _ _ _ _ _ _ _ H) as [Hout _].
Qed.

Lemma token_at (x p y : str) :
  firstn (length p) (skipn (length x) (x ++ p ++ y)) = p.
Proof.
  rewrite skipn_app, skipn_all, Nat.sub_diag. cbn [skipn app].
  apply firstn_exact.
Qed.

Lemma re_sub_around_sound (ic : bool) (r : re) (t : list titem)
    (count : option nat) (x p y x' y' : str) :
  re_sub_around ic r t count x p y = Some (x', y') ->
  re_sub ic r t count (x ++ p ++ y) = x' ++ p ++ y'.
Proof.
  unfold re_sub_around, re_sub. intros H.
  apply sub_track_sound in H as [H _]. now rewrite H, token_at.
Qed.

(** The post-processing around a token it spares: the token stands in the
    result as it stood in the document. *)
Lemma postprocess_spared (lang x p y x' y' : str) :
  postprocess_around lang x p y = Some (x', y') ->
  postprocess lang (x ++ p ++ y) = x' ++ p ++ y'.
Proof.
  unfold postprocess_around, postprocess. intros H.
  assert (Hend :
    forall x3 y3,
      (if re_search true HEAD_END_RE (x3 ++ p ++ y3) then
         re_sub_around true HEAD_END_RE
           [TText (lit "<meta name=" ++ quoted (lit "penai-lang")
                   ++ lit " content=" ++ quoted lang ++ lit "></head>")]
           (Some 1) x3 p y3
       else Some (x3, y3)) = Some (x', y') ->
      (if re_search true HEAD_END_RE (x3 ++ p ++ y3) then
         re_sub true HEAD_END_RE
           [TText (lit "<meta name=" ++ quoted (lit "penai-lang")
                   ++ lit " content=" ++ quoted lang ++ lit "></head>")]
           (Some 1) (x3 ++ p ++ y3)
       else x3 ++ p ++ y3) = x' ++ p ++ y').
  { intros x3 y3 He.
    destruct (re_search true HEAD_END_RE (x3 ++ p ++ y3)).
    - now apply re_sub_around_sound.
    - now inversion He. }
  destruct (re_search true HTML_RE (x ++ p ++ y)); [|now apply Hend].
  destruct (re_sub_around true HTML_LANG_RE [TGroup 1] None x p y)
    as [[x1 y1]|] eqn:E1; [|discriminate H].
  rewrite (re_sub_around_sound _ _ _ _ _ _ _ E1).
  destruct (re_sub_around true HTML_OPEN_RE _ None x1 p y1)
    as [[x2 y2]|] eqn:E2; [|discriminate H].
  rewrite (re_sub_around_sound _ _ _ _ _ _ _ E2).
  destruct (is_rtl lang).
  - destruct (re_search true HTML_HAS_DIR_RE (x2 ++ p ++ y2)).
    + destruct (re_sub_around true HTML_DIR_RE _ None x2 p y2)
        as [[x3 y3]|] eqn:E3; [|discriminate H].
      rewrite (re_sub_around_sound _ _ _ _ _ _ _ E3). now apply Hend.
    + destruct (re_sub_around true HTML_OPEN_RE _ None x2 p y2)
        as [[x3 y3]|] eqn:E3; [|discriminate H].
      rewrite (re_sub_around_sound _ _ _ _ _ _ _ E3). now apply Hend.
  - destruct (re_sub_around true HTML_DIR_RE _ None x2 p y2)
      as [[x3 y3]|] eqn:E3; [|discriminate H].
    rewrite (re_sub_around_sound _ _ _ _ _ _ _ E3). now apply Hend.
Qed.

End Spared.

(* ================================================================== *)
(** * The script and style texts in the returned document *)
(* ================================================================== *)

(** C2 as stated fails where the post-processing reaches into a script:
    the text token number 4 of this document lies inside the script
    element, the substitution that strips the [lang] attribute replaces a
    match that runs through it, and nothing of it is left in the result. *)
Lemma script_text_lost_in_postprocess :
  nth_error
    (re_split (U := ascii_tables) false TAG_RE
       (lit "<script>x<html lang=" ++ dquote :: lit "a>QQQ" ++ dquote
          :: lit "</script>")) 4
  = Some (lit "QQQ" ++ [dquote])
  /\ startswith (lit "<") (lit "QQQ" ++ [dquote]) = false
  /\ spec_inside (U := ascii_tables) (lit "script")
       (re_split (U := ascii_tables) false TAG_RE
          (lit "<script>x<html lang=" ++ dquote :: lit "a>QQQ" ++ dquote
             :: lit "</script>")) 4
  /\ translate_html_fragment (U := ascii_tables) (env_of upper_provider)
       (lit "<script>x<html lang=" ++ dquote :: lit "a>QQQ" ++ dquote
          :: lit "</script>") (lit "fr")
     = Ok (lit "<script>x<html lang=" ++ quoted (lit "fr") ++ lit "</script>")
  /\ contains (lit "QQQ")
       (lit "<script>x<html lang=" ++ quoted (lit "fr") ++ lit "</script>")
     = false
  /\ postprocess_around (U := ascii_tables) (lit "fr")
       (lit "<script>x<html lang=" ++ dquote :: lit "a>")
       (lit "QQQ" ++ [dquote]) (lit "</script>")
     = None.
Proof.
  split; [vm_compute; reflexivity|].
  split; [vm_compute; reflexivity|].
  split; [|repeat split; vm_compute; reflexivity].
  exists 1, (lit "<script>"). split; [lia|].
  split; [vm_compute; reflexivity|].
  split; [vm_compute; reflexivity|].
  intros k q Hk.
  assert (Hcases : k = 1 \/ k = 2 \/ k = 3) by lia.
  destruct Hcases as [-> | [-> | ->]]; vm_compute; intros H; inversion H;
    reflexivity.
Qed.

(** C2, amended. A token that lies inside a script or a style element is
    never queued for translation and keeps its place, character for
    character, in the document joined from the parts.  The result of
    [translate_html_fragment] is the input itself, in which the token
    stands between the tokens before it and the tokens after it, or the
    joined document after the post-processing; and whenever no substitution
    of the post-processing replaces a match that reaches into the token,
    the token stands in the result, character for character, between what
    the post-processing made of the text before it and of the text after
    it. *)
Theorem script_style_text_kept (U : UnicodeData) (e : env) (html lang : str)
    (i : nat) (p : str) :
  nth_error (re_split false TAG_RE html) i = Some p ->
  spec_inside (lit "script") (re_split false TAG_RE html) i
  \/ spec_inside (lit "style") (re_split false TAG_RE html) i ->
  ~ In i (jobs_idx (scan_parts (re_split false TAG_RE html)))
  /\ forall res,
       translate_html_fragment e html lang = Ok res ->
       (res = html
        /\ html = concat (firstn i (re_split false TAG_RE html)) ++ p
                  ++ concat (skipn (S i) (re_split false TAG_RE html)))
       \/ exists outl pre post,
            spliced e html (normalise_lang lang) = Ok outl
            /\ join (firstn i outl) = Ok pre
            /\ join (skipn (S i) outl) = Ok post
            /\ res = postprocess (normalise_lang lang) (pre ++ p ++ post)
            /\ forall pre' post',
                 postprocess_around (normalise_lang lang) pre p post
                 = Some (pre', post') ->
                 res = pre' ++ p ++ post'.
Proof.
  intros Hp Hin.
  assert (Hnot : ~ In i (jobs_idx (scan_parts (re_split false TAG_RE html))))
    by (eapply inside_not_queued; eauto).
  split; [assumption|].
  intros res Hres.
  apply fragment_steps in Hres as [->|(outl & html2 & Hs & Hj & ->)].
  - left. split; [reflexivity|].
    rewrite <- (split_concat html) at 1.
    rewrite <- (firstn_skipn i (re_split false TAG_RE html)) at 1.
    rewrite concat_app. f_equal.
    destruct (nth_error_split _ _ Hp) as [Hparts Hlen].
    destruct (skipn i (re_split false TAG_RE html)) as [|q rest] eqn:Hsk.
    + exfalso. apply (f_equal (@length str)) in Hsk.
      rewrite length_skipn in Hsk. cbn [length] in Hsk.
      assert (i < length (re_split false TAG_RE html))
        by (apply nth_error_Some; congruence).
      lia.
    + assert (Hq : nth_error (skipn i (re_split false TAG_RE html)) 0 = Some p)
        by (rewrite nth_error_skipn, Nat.add_0_r; exact Hp).
      rewrite Hsk in Hq. inversion Hq; subst q.
      replace (skipn (S i) (re_split false TAG_RE html)) with rest.
      * reflexivity.
      * change (S i) with (1 + i). rewrite <- skipn_skipn, Hsk. reflexivity.
  - right.
    assert (Hi : nth_error outl i = Some (JStr p))
      by (eapply spliced_keeps; eauto).
    destruct (join_at _ _ Hj Hi) as (pre & post & Hpre & Hpost & ->).
    exists outl, pre, post. repeat split; auto.
    intros pre' post' Hsp. now apply postprocess_spared.
Qed.

Lemma script_style_text_kept_witness :
  nth_error
    (re_split (U := ascii_tables) false TAG_RE
       (lit "<html lang=" ++ quoted (lit "en")
       ++ lit "><head><script>var a = 1;</script></head><body><p>Hello world</p></body></html>")) 6
  = Some (lit "var a = 1;")
  /\ (forall res,
        translate_html_fragment (U := ascii_tables) (env_of upper_provider)
          (lit "<html lang=" ++ quoted (lit "en")
       ++ lit "><head><script>var a = 1;</script></head><body><p>Hello world</p></body></html>") (lit "fr") = Ok res ->
        (res = (lit "<html lang=" ++ quoted (lit "en")
       ++ lit "><head><script>var a = 1;</script></head><body><p>Hello world</p></body></html>")
         /\ (lit "<html lang=" ++ quoted (lit "en")
       ++ lit "><head><script>var a = 1;</script></head><body><p>Hello world</p></body></html>")
            = concat (firstn 6 (re_split (U := ascii_tables) false TAG_RE (lit "<html lang=" ++ quoted (lit "en")
       ++ lit "><head><script>var a = 1;</script></head><body><p>Hello world</p></body></html>")))
                ++ lit "var a = 1;"
                ++ concat (skipn 7 (re_split (U := ascii_tables) false TAG_RE
                                      (lit "<html lang=" ++ quoted (lit "en")
       ++ lit "><head><script>var a = 1;</script></head><body><p>Hello world</p></body></html>"))))
        \/ exists outl pre post,
             spliced (U := ascii_tables) (env_of upper_provider) (lit "<html lang=" ++ quoted (lit "en")
       ++ lit "><head><script>var a = 1;</script></head><body><p>Hello world</p></body></html>")
               (normalise_lang (U := ascii_tables) (lit "fr")) = Ok outl
             /\ join (firstn 6 outl) = Ok pre
             /\ join (skipn 7 outl) = Ok post
             /\ res = postprocess (U := ascii_tables)
                        (normalise_lang (U := ascii_tables) (lit "fr"))
                        (pre ++ lit "var a = 1;" ++ post)
             /\ forall pre' post',
                  postprocess_around (U := ascii_tables)
                    (normalise_lang (U := ascii_tables) (lit "fr"))
                    pre (lit "var a = 1;") post = Some (pre', post') ->
                  res = pre' ++ lit "var a = 1;" ++ post')
  /\ postprocess_around (U := ascii_tables) (lit "fr")
       (lit "<html lang=" ++ quoted (lit "en") ++ lit "><head><script>")
       (lit "var a = 1;")
       (lit "</script></head><body><p>HELLO WORLD</p></body></html>")
     = Some (lit "<html lang=" ++ quoted (lit "fr") ++ lit "><head><script>",
             lit "</script><meta name=" ++ quoted (lit "penai-lang")
               ++ lit " content=" ++ quoted (lit "fr")
               ++ lit "></head><body><p>HELLO WORLD</p></body></html>").
Proof.
  assert (Hp : nth_error
                 (re_split (U := ascii_tables) false TAG_RE (lit "<html lang=" ++ quoted (lit "en")
       ++ lit "><head><script>var a = 1;</script></head><body><p>Hello world</p></body></html>"))
                 6 = Some (lit "var a = 1;"))
    by (vm_compute; reflexivity).
  split; [exact Hp|]. split; [|vm_compute; reflexivity].
  refine (proj2 (@script_style_text_kept ascii_tables (env_of upper_provider)
                   _ (lit "fr") 6 _ Hp _)).
  left. exists 5, (lit "<script>"). split; [lia|].
  split; [vm_compute; reflexivity|].
  split; [vm_compute; reflexivity|].
  intros k q Hk. assert (k = 5) by lia; subst k.
  vm_compute; intros H; inversion H; reflexivity.
Defined.

(* ================================================================== *)
(** * A blank translation *)
(* ================================================================== *)

Section BlankSegment.
Context {U : UnicodeData}.

Lemma space_name_free (n : str) (t : str) :
  forallb isspace t = true -> name_free (ch "P" :: n) t = true.
Proof.
  unfold name_free. induction t as [|c t IH]; intros H; [reflexivity|].
  cbn [forallb] in H. apply andb_true_iff in H as [Hc Ht].
  cbn [contains startswith].
  assert (Hne : char_eqb (ch "P") c = false).
  { destruct (char_eqb (ch "P") c) eqn:E; [|reflexivity].
    apply N.eqb_eq in E. subst c. discriminate Hc. }
  rewrite Hne. cbn [andb orb]. now apply IH.
Qed.

Lemma restore_blank (t : str) (bk br : list str) :
  forallb isspace t = true ->
  _restore_brands (_restore_brackets t bk) br = t.
Proof.
  intros H. unfold _restore_brands, _restore_brackets.
  rewrite brand_marker_of, brack_marker_of.
  rewrite (@restore_from_free (lit "PENPROT") bk eq_refl)
    by (try discriminate; now apply space_name_free).
  rewrite (@restore_from_free (lit "PENBRAND") br eq_refl)
    by (try discriminate; now apply space_name_free).
  reflexivity.
Qed.

Lemma fragment_steps_translated (e : env) (html lang res : str) :
  normalise_lang lang <> lit "en" ->
  forallb isspace html = false ->
  translate_html_fragment e html lang = Ok res ->
  exists outl html2,
    spliced e html (normalise_lang lang) = Ok outl
    /\ join outl = Ok html2
    /\ res = postprocess (normalise_lang lang) html2.
Proof.
  intros Hne Hblank. unfold translate_html_fragment.
  destruct (str_eqb (normalise_lang lang) (lit "en")) eqn:E.
  { apply str_eqb_eq in E. congruence. }
  destruct html as [|c html]; [discriminate Hblank|].
  destruct (strip (c :: html)) eqn:Hs.
  { apply strip_nil in Hs. congruence. }
  destruct (spliced e (c :: html) (normalise_lang lang)) as [outl|] eqn:Hsp;
    cbn [bind]; [|discriminate].
  destruct (join outl) as [html2|] eqn:Hj; cbn [bind]; [|discriminate].
  intros H. inversion H; subst. eauto.
Qed.

(** What the splice writes for a queued part whose translation is blank:
    the blank translation. *)
Lemma blank_segment_written (e : env) (html lang : str) (i j : nat)
    (p t res : str) :
  normalise_lang lang <> lit "en" ->
  nth_error (re_split false TAG_RE html) i = Some p ->
  nth_error (jobs_idx (scan_parts (re_split false TAG_RE html))) j = Some i ->
  nth_error
    (_deepl_batch e (jobs (scan_parts (re_split false TAG_RE html)))
       (normalise_lang lang)) j = Some (JStr t) ->
  forallb isspace t = true ->
  translate_html_fragment e html lang = Ok res ->
  exists outl pre post,
    spliced e html (normalise_lang lang) = Ok outl
    /\ nth_error outl i = Some (JStr t)
    /\ join (firstn i outl) = Ok pre
    /\ join (skipn (S i) outl) = Ok post
    /\ res = postprocess (normalise_lang lang) (pre ++ t ++ post)
    /\ forall pre' post',
         postprocess_around (normalise_lang lang) pre t post
         = Some (pre', post') ->
         res = pre' ++ t ++ post'.
Proof.
  intros Hne Hp Hj Ht Hblank Hres.
  apply fragment_steps_translated in Hres
    as (outl & html2 & Hs & Hjoin & ->);
    [|assumption|eapply queued_not_blank; eauto].
  destruct (spliced_at _ _ _ _ Hp Hj Ht Hs) as (s1 & s2 & H1 & H2 & Hout).
  rewrite restore_brackets_value in H1. inversion H1; subst s1.
  rewrite restore_brands_value in H2. inversion H2; subst s2.
  rewrite restore_blank in Hout by assumption.
  destruct (join_at _ _ Hjoin Hout) as (pre & post & Hpre & Hpost & ->).
  exists outl, pre, post. repeat split; auto.
  intros pre' post' Hsp. now apply postprocess_spared.
Qed.

End BlankSegment.

(** C9 as stated fails: the batch client takes the text of an entry as it
    is, so an empty translation of a segment takes the place of the
    segment, and the document that results, not being blank, is served. *)
Lemma empty_segment_translation_kept :
  translate_html_fragment (U := ascii_tables)
    (env_of (constant_provider (JStr []))) (lit "<p>Hello world</p>")
    (lit "fr")
  = Ok (lit "<p></p>")
  /\ contains (lit "Hello world") (lit "<p></p>") = false
  /\ data (_translate_response (U := ascii_tables)
             (env_of (constant_provider (JStr [])))
             {| args := []; _pen_lang := Some (lit "fr") |}
             {| status_code := 200;
                headers := [(lit "Content-Type", lit "text/html; charset=utf-8")];
                direct_passthrough := false;
                data := lit "<p>Hello world</p>" |})
     = lit "<p></p>".
Proof. repeat split; vm_compute; reflexivity. Qed.

(** C9, amended. When [translate_html_fragment] returns an empty or
    whitespace-only document for the body of a response, the hook treats
    that as a failure: the response keeps its body, its status and its
    pass-through flag, and is the response as it was or that response with
    the body written back, which sets [Content-Length].  An empty or
    whitespace-only translation of a single segment is no failure: it goes
    into the joined document in the place of the segment, and it stands in
    the result whenever the post-processing does not reach into it. *)
Theorem blank_translation_serves_original (U : UnicodeData) (e : env)
    (req : request) (resp : response) (translated html lang : str)
    (i j : nat) (p t : str) :
  (translate_html_fragment e (data resp)
     (or_default (_pen_lang req) (lit "en")) = Ok translated ->
   forallb isspace translated = true ->
   data (_translate_response e req resp) = data resp
   /\ status_code (_translate_response e req resp) = status_code resp
   /\ direct_passthrough (_translate_response e req resp)
      = direct_passthrough resp
   /\ (_translate_response e req resp = resp
       \/ _translate_response e req resp = with_data resp (data resp)))
  /\ (normalise_lang lang <> lit "en" ->
      nth_error (re_split false TAG_RE html) i = Some p ->
      nth_error (jobs_idx (scan_parts (re_split false TAG_RE html))) j
      = Some i ->
      nth_error
        (_deepl_batch e (jobs (scan_parts (re_split false TAG_RE html)))
           (normalise_lang lang)) j = Some (JStr t) ->
      forallb isspace t = true ->
      forall res,
        translate_html_fragment e html lang = Ok res ->
        exists outl pre post,
          spliced e html (normalise_lang lang) = Ok outl
          /\ nth_error outl i = Some (JStr t)
          /\ join (firstn i outl) = Ok pre
          /\ join (skipn (S i) outl) = Ok post
          /\ res = postprocess (normalise_lang lang) (pre ++ t ++ post)
          /\ forall pre' post',
               postprocess_around (normalise_lang lang) pre t post
               = Some (pre', post') ->
               res = pre' ++ t ++ post').
Proof.
  split.
  - intros Ht Hblank.
    destruct (hook_blank_translation _ _ _ Ht Hblank) as [H|H]; rewrite H;
      cbn [with_data data status_code direct_passthrough]; auto.
  - intros Hne Hp Hj Hb Hblank res Hres.
    eapply blank_segment_written; eauto.
Qed.

Lemma blank_translation_serves_original_witness :
  data (_translate_response (U := ascii_tables)
          (env_of (constant_provider (JStr (lit " "))))
          {| args := []; _pen_lang := Some (lit "fr") |}
          {| status_code := 200;
             headers := [(lit "Content-Type", lit "text/html; charset=utf-8")];
             direct_passthrough := false;
             data := lit "Hello world" |})
  = lit "Hello world"
  /\ exists outl pre post,
       spliced (U := ascii_tables) (env_of (constant_provider (JStr [])))
         (lit "<p>Hello world</p>")
         (normalise_lang (U := ascii_tables) (lit "fr")) = Ok outl
       /\ nth_error outl 2 = Some (JStr [])
       /\ join (firstn 2 outl) = Ok pre
       /\ join (skipn 3 outl) = Ok post
       /\ lit "<p></p>"
          = postprocess (U := ascii_tables)
              (normalise_lang (U := ascii_tables) (lit "fr"))
              (pre ++ [] ++ post)
       /\ forall pre' post',
            postprocess_around (U := ascii_tables)
              (normalise_lang (U := ascii_tables) (lit "fr")) pre [] post
            = Some (pre', post') ->
            lit "<p></p>" = pre' ++ [] ++ post'.
Proof.
  split.
  - refine (proj1 (proj1
              (@blank_translation_serves_original ascii_tables
                 (env_of (constant_provider (JStr (lit " "))))
                 {| args := []; _pen_lang := Some (lit "fr") |}
                 {| status_code := 200;
                    headers := [(lit "Content-Type",
                                 lit "text/html; charset=utf-8")];
                    direct_passthrough := false;
                    data := lit "Hello world" |}
                 (lit " ") [] [] 0 0 [] []) _ _));
      vm_compute; reflexivity.
  - refine (proj2
              (@blank_translation_serves_original ascii_tables
                 (env_of (constant_provider (JStr [])))
                 {| args := []; _pen_lang := None |}
                 {| status_code := 200; headers := [];
                    direct_passthrough := false; data := [] |}
                 [] (lit "<p>Hello world</p>") (lit "fr") 2 0
                 (lit "Hello world") [])
              _ _ _ _ _ (lit "<p></p>") _);
      first [discriminate | vm_compute; reflexivity].
Defined.

(* ================================================================== *)
(** * A marker that stands set off in the translation *)
(* ================================================================== *)

Section SetOff.

Lemma startswith_barrier (c : char) (old : str) :
  forallb (fun o => negb (char_eqb o c)) old = true ->
  forall x z, startswith old (x ++ c :: z) = startswith old x.
Proof.
  induction old as [|o old IH]; intros H x z; [reflexivity|].
  cbn [forallb] in H. apply andb_true_iff in H as [Ho H].
  destruct x as [|a x]; cbn [app startswith].
  - apply negb_true_iff in Ho. now rewrite Ho.
  - now rewrite IH.
Qed.

(** No occurrence of [old] reaches over a character that [old] does not
    hold: the replacement works on each side of it. *)
Lemma replace_from_barrier (c : char) (old new : str) (z : str) :
  forallb (fun o => negb (char_eqb o c)) old = true -> old <> [] ->
  forall x skip,
    skip <= length x ->
    replace_from old new (x ++ c :: z) skip
    = replace_from old new x skip ++ c :: replace_from old new z 0.
Proof.
  intros Hold Hne. induction x as [|a x IH]; intros skip Hskip.
  - assert (skip = 0) by (simpl in Hskip; lia). subst skip.
    cbn [app replace_from].
    assert (E : startswith old (c :: z) = false).
    { change (c :: z) with ([] ++ c :: z).
      rewrite (startswith_barrier c old Hold [] z).
      destruct old; [congruence | reflexivity]. }
    now rewrite E.
  - destruct skip as [|k]; cbn [app replace_from].
    + change (a :: x ++ c :: z) with ((a :: x) ++ c :: z).
      rewrite (startswith_barrier c old Hold (a :: x) z).
      destruct (startswith old (a :: x)) eqn:E.
      * rewrite IH; [now rewrite <- app_assoc|].
        apply startswith_length in E. simpl in E. lia.
      * now rewrite IH by lia.
    + apply IH. simpl in Hskip. lia.
Qed.

Lemma replace_barrier (c : char) (old new x z : str) :
  forallb (fun o => negb (char_eqb o c)) old = true -> old <> [] ->
  replace old new (x ++ c :: z)
  = replace old new x ++ c :: replace old new z.
Proof.
  intros Hold Hne. unfold replace.
  apply replace_from_barrier; auto. lia.
Qed.

Lemma marker_char_other (old : str) (c : char) :
  forallb marker_char old = true -> marker_char c = false ->
  forallb (fun o => negb (char_eqb o c)) old = true.
Proof.
  intros Hold Hc. apply forallb_forall. intros o Ho.
  rewrite forallb_forall in Hold. specialize (Hold _ Ho).
  destruct (char_eqb o c) eqn:E; [|reflexivity].
  apply N.eqb_eq in E. subst o. congruence.
Qed.

Lemma ends_clear_cases (x : str) :
  ends_clear x = true ->
  x = [] \/ exists x' c, x = x' ++ [c] /\ marker_char c = false.
Proof.
  unfold ends_clear. intros H.
  destruct (rev x) as [|c r] eqn:E.
  - left. apply (f_equal (@rev char)) in E. now rewrite rev_involutive in E.
  - right. exists (rev r), c. split.
    + apply (f_equal (@rev char)) in E. now rewrite rev_involutive in E.
    + cbn [starts_clear] in H. now apply negb_true_iff in H.
Qed.

Lemma ends_clear_snoc (x : str) (c : char) :
  marker_char c = false -> ends_clear (x ++ [c]) = true.
Proof.
  intros H. unfold ends_clear. rewrite rev_app_distr. cbn [rev app starts_clear].
  now rewrite H.
Qed.

Section OneMarker.
Variables old new : str.
Hypothesis old_chars : forallb marker_char old = true.
Hypothesis old_ne : old <> [].

Lemma replace_left (x : str) :
  ends_clear x = true ->
  exists x2, ends_clear x2 = true
             /\ forall w, replace old new (x ++ w) = x2 ++ replace old new w.
Proof.
  intros H. apply ends_clear_cases in H as [->|(x' & c & -> & Hc)].
  - exists []. split; [reflexivity|]. reflexivity.
  - exists (replace old new x' ++ [c]). split; [now apply ends_clear_snoc|].
    intros w. rewrite <- !app_assoc. cbn [app].
    apply replace_barrier; [now apply marker_char_other | assumption].
Qed.

Lemma replace_right (y : str) :
  starts_clear y = true ->
  exists y2, starts_clear y2 = true
             /\ forall w, replace old new (w ++ y) = replace old new w ++ y2.
Proof.
  intros H. destruct y as [|c y].
  - exists []. split; [reflexivity|]. intros w. now rewrite !List.app_nil_r.
  - cbn [starts_clear] in H. apply negb_true_iff in H.
    exists (c :: replace old new y). split.
    + cbn [starts_clear]. now rewrite H.
    + intros w. apply replace_barrier;
        [now apply marker_char_other | assumption].
Qed.

(** What stands set off in a text stands set off after a replacement,
    with the replacement done inside it. *)
Lemma replace_stands (m t : str) :
  stands_in m t -> stands_in (replace old new m) (replace old new t).
Proof.
  intros (x & y & -> & Hx & Hy).
  destruct (replace_left x Hx) as (x2 & Hx2 & Hl).
  destruct (replace_right y Hy) as (y2 & Hy2 & Hr).
  exists x2, y2. rewrite Hl, Hr. auto.
Qed.

End OneMarker.

Lemma stands_contains (m t : str) : stands_in m t -> contains m t = true.
Proof.
  intros (x & y & -> & _ & _).
  apply contains_app_r, contains_app_l, contains_self.
Qed.

Lemma restore_from_stands (marker : nat -> str) (bag : list str) :
  (forall i, forallb marker_char (marker i) = true /\ marker i <> []) ->
  forall i m t,
    stands_in m t ->
    stands_in (restore_from marker m bag i) (restore_from marker t bag i).
Proof.
  intros Hm. induction bag as [|v bag IH]; intros i m t H; [exact H|].
  cbn [restore_from]. apply IH.
  destruct (Hm i) as [Hc Hne]. now apply replace_stands.
Qed.

Lemma str_of_nat_marker_chars (i : nat) :
  forallb marker_char (str_of_nat i) = true.
Proof.
  unfold str_of_nat. induction (Nat.to_uint i); simpl; auto.
Qed.

Lemma brand_marker_chars (i : nat) :
  forallb marker_char (brand_marker i) = true /\ brand_marker i <> [].
Proof.
  split; [|discriminate]. unfold brand_marker.
  rewrite !forallb_app, str_of_nat_marker_chars. reflexivity.
Qed.

Lemma brack_marker_chars (i : nat) :
  forallb marker_char (brack_marker i) = true /\ brack_marker i <> [].
Proof.
  split; [|discriminate]. unfold brack_marker.
  rewrite !forallb_app, str_of_nat_marker_chars. reflexivity.
Qed.

(** The restoring loop on the marker of an entry of the bag: the entry,
    with the markers of the later entries restored in it. *)
Lemma restore_marker (name : str) (bag : list str) :
  plain name = true -> name <> [] ->
  forall i n w,
    nth_error bag n = Some w ->
    restore_from (marker_of name) (marker_of name (i + n)) bag i
    = restore_from (marker_of name) w (skipn (S n) bag) (S (i + n)).
Proof.
  intros Hp Hne. induction bag as [|v bag IH]; intros i n w Hn;
    [now destruct n|].
  cbn [restore_from]. destruct n as [|n]; cbn [nth_error] in Hn.
  - inversion Hn; subst v. rewrite Nat.add_0_r. cbn [skipn].
    rewrite <- (List.app_nil_r (marker_of name i)) at 2.
    rewrite replace_hit by (unfold marker_of; discriminate).
    now rewrite List.app_nil_r.
  - rewrite <- (List.app_nil_r (marker_of name (i + S n))) at 1.
    rewrite replace_pass.
    + rewrite List.app_nil_r. replace (i + S n) with (S i + n) by lia.
      cbn [skipn]. now apply IH.
    + change (@nil char) with (@nil char ++ @nil char) at 1.
      apply marker_of_no_hit;
        [assumption | assumption | lia
        | destruct name; [congruence | reflexivity] | now left].
Qed.

End SetOff.

(* ================================================================== *)
(** * Brand tokens in the returned document *)
(* ================================================================== *)

Section BrandRestored.
Context {U : UnicodeData}.

Lemma restore_brackets_brand_marker (k i : nat) (bag : list str) :
  restore_from brack_marker (brand_marker k) bag i = brand_marker k.
Proof.
  rewrite brack_marker_of.
  apply restore_from_free; [reflexivity | discriminate |].
  rewrite <- (List.app_nil_r (brand_marker k)).
  now apply brand_marker_name_free.
Qed.

Lemma restore_brand_marker (br : list str) (k : nat) (v : str) :
  forallb plain br = true -> nth_error br k = Some v ->
  contains v (_restore_brands (brand_marker k) br) = true.
Proof.
  intros Hplain Hk.
  pose proof (@restore_brands_contains br [Mark k] k v Hplain eq_refl Hk
                (or_introl eq_refl)) as H.
  cbn [render flat_map render_atom] in H.
  now rewrite List.app_nil_r in H.
Qed.

(** The restored translation holds the entry [k] of the brand bag when
    the marker [k] stands set off in the translation, or stands set off in
    an entry of the bracket bag whose marker stands set off in the
    translation. *)
Lemma restored_holds (br bk : list str) (k : nat) (v t : str) :
  forallb plain br = true -> nth_error br k = Some v ->
  stands_in (brand_marker k) t
  \/ (exists n w, nth_error bk n = Some w
                  /\ stands_in (brack_marker n) t
                  /\ stands_in (brand_marker k) w) ->
  contains v (_restore_brands (_restore_brackets t bk) br) = true.
Proof.
  intros Hplain Hk [H|(n & w & Hn & Hp & Hw)].
  - apply (restore_from_stands brack_marker bk brack_marker_chars 0) in H.
    rewrite restore_brackets_brand_marker in H.
    apply (restore_from_stands brand_marker br brand_marker_chars 0) in H.
    apply stands_contains in H.
    eapply contains_trans; [|exact H]. now apply restore_brand_marker.
  - apply (restore_from_stands brack_marker bk brack_marker_chars 0) in Hp.
    apply (restore_from_stands brand_marker br brand_marker_chars 0) in Hp.
    apply stands_contains in Hp.
    eapply contains_trans; [|exact Hp].
    pose proof (@restore_marker (lit "PENPROT") bk eq_refl
                  ltac:(discriminate) 0 n w Hn) as E.
    rewrite <- brack_marker_of in E. cbn [Nat.add] in E. rewrite E.
    apply (restore_from_stands brack_marker (skipn (S n) bk)
             brack_marker_chars (S n)) in Hw.
    rewrite restore_brackets_brand_marker in Hw.
    apply (restore_from_stands brand_marker br brand_marker_chars 0) in Hw.
    apply stands_contains in Hw.
    eapply contains_trans; [|exact Hw]. now apply restore_brand_marker.
Qed.

End BrandRestored.



